(** * Kinematic character controller (kcc.mjs, kccUtils.mjs)

    A shallow embedding of the collide-and-slide controller: the vector
    helpers of [kccUtils.mjs], the [sweep] loop, and the per-tick
    [update] of the [KCC] script, followed by the properties of the
    controller that are settled against that code.

    Numbers.  JavaScript numbers are idealised as real numbers: every
    arithmetic operation is exact, there is no rounding, no NaN and no
    infinity.  [Math.sqrt], [Math.acos], [Math.abs], [Math.max] and
    [Math.min] are the functions [sqrt], [acos], [Rabs], [Rmax] and
    [Rmin] of the standard library of reals. *)

From Stdlib Require Import Reals Lra Lia List Bool.
Import ListNotations.
Open Scope R_scope.

(* ================================================================== *)
(** ** The engine's three-component vector *)

(** Modelled from the spec: the engine's [Vec3] class is imported from
    'playcanvas' and is not part of the sources; the spec calls it pure
    vector math.  Only the operations the controller calls are given,
    componentwise; [normalize] leaves the zero vector unchanged. *)
Module Vec3.

Record t : Type := mk { x : R; y : R; z : R }.

Definition ZERO : t := mk 0 0 0.
Definition UP : t := mk 0 1 0.
Definition DOWN : t := mk 0 (-1) 0.

Definition add (a b : t) : t := mk (x a + x b) (y a + y b) (z a + z b).
Definition sub (a b : t) : t := mk (x a - x b) (y a - y b) (z a - z b).
Definition mulScalar (a : t) (s : R) : t := mk (x a * s) (y a * s) (z a * s).
Definition dot (a b : t) : R := x a * x b + y a * y b + z a * z b.
Definition lengthSq (a : t) : R := x a * x a + y a * y a + z a * z a.
Definition length (a : t) : R := sqrt (lengthSq a).

Definition normalize (a : t) : t :=
  if Rgt_dec (lengthSq a) 0
  then mulScalar a (1 / sqrt (lengthSq a))
  else a.

(** [v.y = c] on a mutable vector. *)
Definition setY (a : t) (c : R) : t := mk (x a) c (z a).

End Vec3.

(* ================================================================== *)
(** ** kccUtils.mjs: constants and helpers *)

(** [export const EPS = 1e-8]. *)
Definition EPS : R := 1 / 100000000.

(** [clamp = (v, lo, hi) => Math.max(lo, Math.min(hi, v))]. *)
Definition clamp (v lo hi : R) : R := Rmax lo (Rmin hi v).

(** [projectOnPlane(v, n)]: [v] itself for a normal of squared length
    below [EPS], otherwise [v] minus its component along [n]. *)
Definition projectOnPlane (v n : Vec3.t) : Vec3.t :=
  let m := Vec3.lengthSq n in
  if Rlt_dec m EPS then v
  else
    let d := Vec3.dot v n / m in
    Vec3.mk (Vec3.x v - Vec3.x n * d)
            (Vec3.y v - Vec3.y n * d)
            (Vec3.z v - Vec3.z n * d).

(** Slope metrics, as computed inline in [sweep] and in the ground-snap
    probe of [update]. *)
Definition cosTheta (normal : Vec3.t) : R :=
  clamp (Vec3.dot normal Vec3.UP) (-1) 1.

Definition slopeDeg (normal : Vec3.t) : R :=
  acos (cosTheta normal) * 180 / PI.

(* ================================================================== *)
(** ** Entities, hits and the physics world *)

(** An entity is an opaque identity; the controller only compares a
    reference with [null] and asks the world for the entity's pose. *)
Definition Entity : Type := nat.

(** A swept segment handed to [sphereCast]: start and end position. *)
Definition Cast : Type := (Vec3.t * Vec3.t)%type.

(** [ConvexCastResult] of convex-cast.js.  [convexCast] builds a result
    only for a body that has an entity, so a non-null result always
    carries one and the test [!hit || !hit.entity] is the test for
    [None]. *)
Record ConvexCastResult : Type := mkHit {
  entity : Entity;
  hitFraction : R;
  point : Vec3.t;
  normal : Vec3.t
}.

(** Modelled from the spec: the engine's [Quat] class and the entity
    transform accessors are imported from 'playcanvas' and are not part
    of the sources.  They are taken as an interface; nothing is assumed
    about them.  [qmul a b] is [a.clone().mul(b)], [qinvert a] is
    [a.clone().invert()], [rotateLocal x y z r] is the rotation of an
    entity with rotation [r] after [entity.rotateLocal(x, y, z)], and
    [forward r], [right r] are [entity.forward], [entity.right]. *)
Class Engine (Quat : Type) : Type := {
  qmul : Quat -> Quat -> Quat;
  qinvert : Quat -> Quat;
  getEulerAngles : Quat -> Vec3.t;
  setFromEulerAngles : R -> R -> R -> Quat;
  transformVector : Quat -> Vec3.t -> Vec3.t;
  rotateLocal : R -> R -> R -> Quat -> Quat;
  forward : Quat -> Vec3.t;
  right : Quat -> Vec3.t
}.

(** The script attributes of [KCC].  [maxIterations] counts loop rounds
    and is a natural number; [debug] and the debug colours only drive
    drawing and are left out. *)
Record Attributes : Type := mkAttributes {
  speed : R;
  gravity : R;
  jumpSpeed : R;
  airControl : R;
  radius : R;
  maxIterations : nat;
  slopeLimitDeg : R;
  skin : R;
  groundSnap : R;
  hover : R
}.

(** The attribute defaults of the class declaration. *)
Definition defaultAttributes : Attributes :=
  {| speed := 6; gravity := - (981 / 100); jumpSpeed := 6; airControl := 1;
     radius := 1 / 2; maxIterations := 5; slopeLimitDeg := 50;
     skin := 1 / 100; groundSnap := 3 / 10; hover := 2 / 10 |}.

(** The unit normal of a surface tilted by [deg] degrees from the
    horizontal, in the x-y plane. *)
Definition normalAt (deg : R) : Vec3.t :=
  Vec3.mk (sin (deg * PI / 180)) (cos (deg * PI / 180)) 0.

(** [walkable = slopeDeg < kcc.slopeLimitDeg]. *)
Definition walkable (a : Attributes) (normal : Vec3.t) : bool :=
  if Rlt_dec (slopeDeg normal) (slopeLimitDeg a) then true else false.

(** "Step to just before impact": the position after advancing along
    the travel direction by the hit distance less the skin, when that
    distance exceeds [EPS]. *)
Definition stepDist (a : Attributes) (remaining : Vec3.t)
    (hit : ConvexCastResult) : R :=
  let totalDist := Vec3.length remaining in
  let hitDist := clamp (hitFraction hit * totalDist) 0 totalDist in
  Rmax (hitDist - skin a) 0.

Definition stepToImpact (a : Attributes) (pos remaining : Vec3.t)
    (hit : ConvexCastResult) : Vec3.t :=
  let dir := Vec3.normalize remaining in
  if Rgt_dec (stepDist a remaining hit) EPS
  then Vec3.add pos (Vec3.mulScalar dir (stepDist a remaining hit))
  else pos.

(** Landing branch of the vertical pass: the post-contact fraction of
    the remainder projected on the contact plane, its [y] snapped to
    zero when within [EPS] of it. *)
Definition landingRemainder (remaining : Vec3.t) (hit : ConvexCastResult)
    : Vec3.t :=
  let r := projectOnPlane (Vec3.mulScalar remaining (1 - hitFraction hit))
                          (normal hit) in
  if Rlt_dec (Rabs (Vec3.y r)) EPS then Vec3.setY r 0 else r.

(** Steep branch of the vertical pass: slide along the slope with the
    sine scaling, plus the skin push-out along the contact normal. *)
Definition steepRemainder (a : Attributes) (remaining : Vec3.t)
    (hit : ConvexCastResult) : Vec3.t :=
  let c := cosTheta (normal hit) in
  let sinTheta := sqrt (Rmax (1 - c * c) 0) in
  let slideDir := Vec3.normalize (projectOnPlane Vec3.DOWN (normal hit)) in
  let slideMag := Rabs (Vec3.y remaining) * sinTheta * (1 - hitFraction hit) in
  Vec3.add (Vec3.mulScalar slideDir slideMag)
           (Vec3.mulScalar (normal hit) (skin a)).

(** Walkable contact of the horizontal pass. *)
Definition walkableRemainder (remaining : Vec3.t) (hit : ConvexCastResult)
    : Vec3.t :=
  projectOnPlane (Vec3.mulScalar remaining (1 - hitFraction hit)) (normal hit).

(** The contact normal flattened to the horizontal plane, renormalised
    when its squared length exceeds [EPS]. *)
Definition flatten (n : Vec3.t) : Vec3.t :=
  let wallN := Vec3.mk (Vec3.x n) 0 (Vec3.z n) in
  if Rgt_dec (Vec3.lengthSq wallN) EPS then Vec3.normalize wallN else wallN.

(** Recording of the first and of a second distinct wall normal. *)
Definition recordWall (wallN : Vec3.t) (wallN1 wallN2 : option Vec3.t)
    : option Vec3.t * option Vec3.t :=
  match wallN1 with
  | None => (Some wallN, wallN2)
  | Some n1 =>
      if Rlt_dec (Vec3.dot wallN n1) (99 / 100)
      then (wallN1, Some wallN)
      else (wallN1, wallN2)
  end.

(** Single-wall slide: the post-contact remainder projected on the
    locked wall normal plus the skin push-out along it. *)
Definition wallRemainder (a : Attributes) (remaining lockN : Vec3.t)
    (hit : ConvexCastResult) : Vec3.t :=
  Vec3.add
    (projectOnPlane (Vec3.mulScalar remaining (1 - hitFraction hit)) lockN)
    (Vec3.mulScalar lockN (skin a)).

Section Controller.

Context {Quat : Type} {E : Engine Quat}.

(** What the controller reads from [this.app] and from platform
    entities during one tick: the sphere sweep of convex-cast.js and the
    world pose of an entity.  The world is fixed during a tick and may
    differ from one tick to the next. *)
Record World : Type := mkWorld {
  sphereCast : R -> Vec3.t -> Vec3.t -> option ConvexCastResult;
  getPosition : Entity -> Vec3.t;
  getRotation : Entity -> Quat
}.

(** The [KCC] script instance: its attributes, the runtime fields set
    up by [initialize], and the world position and rotation of
    [this.entity]. *)
Record KCC : Type := mkKCC {
  attrs : Attributes;
  _velY : R;
  _horizontal : R;
  _vertical : R;
  _jumpPressed : bool;
  _yawDelta : R;
  _grounded : bool;
  _wasGrounded : bool;
  _groundEntity : option Entity;
  _groundPrevPos : Vec3.t;
  _groundPrevRot : Quat;
  _groundCandidate : option Entity;
  _steepNormal : option Vec3.t;
  entityPosition : Vec3.t;
  entityRotation : Quat
}.

(** Field assignments [this._f = v]. *)
Definition set_velY (v : R) (k : KCC) : KCC :=
  mkKCC (attrs k) v (_horizontal k) (_vertical k) (_jumpPressed k)
        (_yawDelta k) (_grounded k) (_wasGrounded k) (_groundEntity k)
        (_groundPrevPos k) (_groundPrevRot k) (_groundCandidate k)
        (_steepNormal k) (entityPosition k) (entityRotation k).

Definition set_horizontal (v : R) (k : KCC) : KCC :=
  mkKCC (attrs k) (_velY k) v (_vertical k) (_jumpPressed k)
        (_yawDelta k) (_grounded k) (_wasGrounded k) (_groundEntity k)
        (_groundPrevPos k) (_groundPrevRot k) (_groundCandidate k)
        (_steepNormal k) (entityPosition k) (entityRotation k).

Definition set_vertical (v : R) (k : KCC) : KCC :=
  mkKCC (attrs k) (_velY k) (_horizontal k) v (_jumpPressed k)
        (_yawDelta k) (_grounded k) (_wasGrounded k) (_groundEntity k)
        (_groundPrevPos k) (_groundPrevRot k) (_groundCandidate k)
        (_steepNormal k) (entityPosition k) (entityRotation k).

Definition set_jumpPressed (v : bool) (k : KCC) : KCC :=
  mkKCC (attrs k) (_velY k) (_horizontal k) (_vertical k) v
        (_yawDelta k) (_grounded k) (_wasGrounded k) (_groundEntity k)
        (_groundPrevPos k) (_groundPrevRot k) (_groundCandidate k)
        (_steepNormal k) (entityPosition k) (entityRotation k).

Definition set_yawDelta (v : R) (k : KCC) : KCC :=
  mkKCC (attrs k) (_velY k) (_horizontal k) (_vertical k) (_jumpPressed k)
        v (_grounded k) (_wasGrounded k) (_groundEntity k)
        (_groundPrevPos k) (_groundPrevRot k) (_groundCandidate k)
        (_steepNormal k) (entityPosition k) (entityRotation k).

Definition set_grounded (v : bool) (k : KCC) : KCC :=
  mkKCC (attrs k) (_velY k) (_horizontal k) (_vertical k) (_jumpPressed k)
        (_yawDelta k) v (_wasGrounded k) (_groundEntity k)
        (_groundPrevPos k) (_groundPrevRot k) (_groundCandidate k)
        (_steepNormal k) (entityPosition k) (entityRotation k).

Definition set_wasGrounded (v : bool) (k : KCC) : KCC :=
  mkKCC (attrs k) (_velY k) (_horizontal k) (_vertical k) (_jumpPressed k)
        (_yawDelta k) (_grounded k) v (_groundEntity k)
        (_groundPrevPos k) (_groundPrevRot k) (_groundCandidate k)
        (_steepNormal k) (entityPosition k) (entityRotation k).

Definition set_groundEntity (v : option Entity) (k : KCC) : KCC :=
  mkKCC (attrs k) (_velY k) (_horizontal k) (_vertical k) (_jumpPressed k)
        (_yawDelta k) (_grounded k) (_wasGrounded k) v
        (_groundPrevPos k) (_groundPrevRot k) (_groundCandidate k)
        (_steepNormal k) (entityPosition k) (entityRotation k).

Definition set_groundPrevPos (v : Vec3.t) (k : KCC) : KCC :=
  mkKCC (attrs k) (_velY k) (_horizontal k) (_vertical k) (_jumpPressed k)
        (_yawDelta k) (_grounded k) (_wasGrounded k) (_groundEntity k)
        v (_groundPrevRot k) (_groundCandidate k)
        (_steepNormal k) (entityPosition k) (entityRotation k).

Definition set_groundPrevRot (v : Quat) (k : KCC) : KCC :=
  mkKCC (attrs k) (_velY k) (_horizontal k) (_vertical k) (_jumpPressed k)
        (_yawDelta k) (_grounded k) (_wasGrounded k) (_groundEntity k)
        (_groundPrevPos k) v (_groundCandidate k)
        (_steepNormal k) (entityPosition k) (entityRotation k).

Definition set_groundCandidate (v : option Entity) (k : KCC) : KCC :=
  mkKCC (attrs k) (_velY k) (_horizontal k) (_vertical k) (_jumpPressed k)
        (_yawDelta k) (_grounded k) (_wasGrounded k) (_groundEntity k)
        (_groundPrevPos k) (_groundPrevRot k) v
        (_steepNormal k) (entityPosition k) (entityRotation k).

Definition set_steepNormal (v : option Vec3.t) (k : KCC) : KCC :=
  mkKCC (attrs k) (_velY k) (_horizontal k) (_vertical k) (_jumpPressed k)
        (_yawDelta k) (_grounded k) (_wasGrounded k) (_groundEntity k)
        (_groundPrevPos k) (_groundPrevRot k) (_groundCandidate k)
        v (entityPosition k) (entityRotation k).

(** [this.entity.setPosition(p)] and [this.entity.setRotation(r)]. *)
Definition setPosition (v : Vec3.t) (k : KCC) : KCC :=
  mkKCC (attrs k) (_velY k) (_horizontal k) (_vertical k) (_jumpPressed k)
        (_yawDelta k) (_grounded k) (_wasGrounded k) (_groundEntity k)
        (_groundPrevPos k) (_groundPrevRot k) (_groundCandidate k)
        (_steepNormal k) v (entityRotation k).

Definition setRotation (v : Quat) (k : KCC) : KCC :=
  mkKCC (attrs k) (_velY k) (_horizontal k) (_vertical k) (_jumpPressed k)
        (_yawDelta k) (_grounded k) (_wasGrounded k) (_groundEntity k)
        (_groundPrevPos k) (_groundPrevRot k) (_groundCandidate k)
        (_steepNormal k) (entityPosition k) v.

(** [initialize()], for an entity placed at [p] with rotation [r]. *)
Definition initialize (a : Attributes) (p : Vec3.t) (r : Quat)
    (identity : Quat) : KCC :=
  {| attrs := a; _velY := 0; _horizontal := 0; _vertical := 0;
     _jumpPressed := false; _yawDelta := 0;
     _grounded := false; _wasGrounded := false; _groundEntity := None;
     _groundPrevPos := Vec3.ZERO; _groundPrevRot := identity;
     _groundCandidate := None; _steepNormal := None;
     entityPosition := p; entityRotation := r |}.

(** [setInput(h, v, jump, yaw)]. *)
Definition setInput (h v : R) (jump : bool) (yaw : R) (k : KCC) : KCC :=
  set_yawDelta yaw (set_jumpPressed jump (set_vertical v (set_horizontal h k))).

(* ------------------------------------------------------------------ *)
(** *** kccUtils.mjs: [sweep] *)

(** The variables of the [for] loop of [sweep]: the controller (whose
    fields the loop assigns), the position, the remaining displacement,
    the recorded wall normals, and the swept segments so far (the
    segments the loop hands to [drawLine] under [debug]), oldest
    first. *)
Record SweepLoop : Type := mkLoop {
  l_kcc : KCC;
  l_pos : Vec3.t;
  l_remaining : Vec3.t;
  l_wallN1 : option Vec3.t;
  l_wallN2 : option Vec3.t;
  l_casts : list Cast
}.

(** How a round of the loop ends: [break], or on to the next round
    (by [continue] or by reaching the end of the body). *)
Inductive Flow : Type := Break | Continue.

(** The branch taken after a hit, for either pass. *)
Definition resolveHit (isVerticalPass : bool) (s : SweepLoop)
    (casts : list Cast) (hit : ConvexCastResult) : Flow * SweepLoop :=
  let kcc := l_kcc s in
  let a := attrs kcc in
  let remaining := l_remaining s in
  let pos := stepToImpact a (l_pos s) remaining hit in
  if isVerticalPass then
    if Rgt_dec (Vec3.y remaining) 0 then
      (* ceiling *)
      (Break, mkLoop (set_velY 0 kcc) pos remaining
                     (l_wallN1 s) (l_wallN2 s) casts)
    else if Rlt_dec (Vec3.y remaining) 0 then
      if walkable a (normal hit) then
        (* landing *)
        (Continue,
         mkLoop (set_velY 0
                   (set_groundCandidate (Some (entity hit))
                      (set_grounded true kcc)))
                pos (landingRemainder remaining hit)
                (l_wallN1 s) (l_wallN2 s) casts)
      else
        (* steep *)
        (Continue,
         mkLoop (set_steepNormal (Some (normal hit)) kcc)
                pos (steepRemainder a remaining hit)
                (l_wallN1 s) (l_wallN2 s) casts)
    else
      (Continue, mkLoop kcc pos remaining (l_wallN1 s) (l_wallN2 s) casts)
  else
    if walkable a (normal hit) then
      (Continue,
       mkLoop (set_groundCandidate (Some (entity hit))
                 (set_grounded true kcc))
              pos (walkableRemainder remaining hit)
              (l_wallN1 s) (l_wallN2 s) casts)
    else
      (* wall *)
      let wallN := flatten (normal hit) in
      let '(wallN1, wallN2) := recordWall wallN (l_wallN1 s) (l_wallN2 s) in
      match wallN1, wallN2 with
      | Some _, Some _ =>
          (* corner lock *)
          (Continue, mkLoop kcc pos Vec3.ZERO wallN1 wallN2 casts)
      | _, _ =>
          let lockN := match wallN1 with Some n => n | None => wallN end in
          (Continue,
           mkLoop kcc pos (wallRemainder a remaining lockN hit)
                  wallN1 wallN2 casts)
      end.

(** One round of the loop. *)
Definition sweepRound (app : World) (isVerticalPass : bool) (s : SweepLoop)
    : Flow * SweepLoop :=
  if Rlt_dec (Vec3.lengthSq (l_remaining s)) EPS then (Break, s)
  else
    let end_ := Vec3.add (l_pos s) (l_remaining s) in
    let casts := l_casts s ++ [(l_pos s, end_)] in
    match sphereCast app (radius (attrs (l_kcc s))) (l_pos s) end_ with
    | None =>
        (* no hit - move fully *)
        (Break, mkLoop (l_kcc s) end_ (l_remaining s)
                       (l_wallN1 s) (l_wallN2 s) casts)
    | Some hit => resolveHit isVerticalPass s casts hit
    end.

(** [for (let i = 0; i < kcc.maxIterations; ++i)]: [n] rounds left. *)
Fixpoint sweepLoop (app : World) (isVerticalPass : bool) (n : nat)
    (s : SweepLoop) : SweepLoop :=
  match n with
  | O => s
  | S n' =>
      match sweepRound app isVerticalPass s with
      | (Break, s') => s'
      | (Continue, s') => sweepLoop app isVerticalPass n' s'
      end
  end.

(** [sweep(kcc, pos, disp, isVerticalPass)].  The source returns the
    position and leaves its assignments in [kcc]; here both, and the
    swept segments, are read off the final loop variables. *)
Definition sweep (app : World) (kcc : KCC) (pos disp : Vec3.t)
    (isVerticalPass : bool) : SweepLoop :=
  sweepLoop app isVerticalPass (maxIterations (attrs kcc))
            (mkLoop kcc pos disp None None []).

(* ------------------------------------------------------------------ *)
(** *** kcc.mjs: [update] *)

(** Step 1: apply the player yaw from input. *)
Definition applyYaw (k : KCC) : KCC :=
  if Rgt_dec (Rabs (_yawDelta k)) EPS
  then set_yawDelta 0
         (setRotation (rotateLocal 0 (_yawDelta k) 0 (entityRotation k)) k)
  else k.

(** The yaw-only quaternion built from a rotation delta: its Euler
    angles are taken and only the [y] angle is kept. *)
Definition yawOnly (deltaRot : Quat) : Quat :=
  let e := getEulerAngles deltaRot in
  let yawDeg := Vec3.y e in
  setFromEulerAngles 0 yawDeg 0.

(** Step 2: follow the moving ground, position and Y-only rotation. *)
Definition followGround (app : World) (k : KCC) : KCC :=
  if _wasGrounded k then
    match _groundEntity k with
    | Some g =>
        let gp := getPosition app g in
        let gr := getRotation app g in
        let deltaRot := qmul gr (qinvert (_groundPrevRot k)) in
        let yawQuat := yawOnly deltaRot in
        let rel :=
          transformVector yawQuat
            (Vec3.sub (entityPosition k) (_groundPrevPos k)) in
        setPosition (Vec3.add gp rel)
          (setRotation (qmul yawQuat (entityRotation k)) k)
    | None => k
    end
  else k.

(** Step 3: jump. *)
Definition jump (k : KCC) : KCC :=
  set_jumpPressed false
    (if _grounded k && _jumpPressed k
     then set_grounded false (set_velY (jumpSpeed (attrs k)) k)
     else k).

(** Step 4: the horizontal input vector scaled to this tick's step. *)
Definition horizDir (k : KCC) : Vec3.t :=
  let dir :=
    Vec3.normalize
      (Vec3.add
         (Vec3.mulScalar (forward (entityRotation k)) (- _vertical k))
         (Vec3.mulScalar (right (entityRotation k)) (_horizontal k))) in
  if Req_dec_T (_horizontal k) 0
  then if Req_dec_T (_vertical k) 0 then Vec3.ZERO else dir
  else dir.

Definition moveSpeed (k : KCC) : R :=
  if _grounded k then speed (attrs k)
  else speed (attrs k) * airControl (attrs k).

Definition inputDisplacement (dt : R) (k : KCC) : Vec3.t :=
  Vec3.mulScalar (horizDir k) (moveSpeed k * dt).

(** Step 5: gravity. *)
Definition applyGravity (dt : R) (k : KCC) : KCC :=
  set_velY (_velY k + gravity (attrs k) * dt) k.

(** Step 6: clamp the uphill component when on a steep slope. *)
Definition clampUphill (steepNormal : option Vec3.t) (desiredHoriz : Vec3.t)
    : Vec3.t :=
  match steepNormal with
  | Some n =>
      let upDir := Vec3.normalize (projectOnPlane Vec3.UP n) in
      let uphill := Vec3.dot desiredHoriz upDir in
      if Rgt_dec uphill 0
      then Vec3.sub desiredHoriz (Vec3.mulScalar upDir uphill)
      else desiredHoriz
  | None => desiredHoriz
  end.

(** The controller and the local [pos] at a point of [update], with the
    segments swept so far by the vertical pass, the horizontal pass and
    the ground-snap probe. *)
Record Tick : Type := mkTick {
  t_kcc : KCC;
  t_pos : Vec3.t;
  t_vertical : list Cast;
  t_horizontal : list Cast;
  t_snap : list Cast
}.

(** The state in which the passes are run: steps 1 to 3 and 5.  The
    input displacement of step 4 is read off the state after step 3;
    gravity only assigns the vertical velocity. *)
Definition beforePasses (app : World) (dt : R) (k : KCC) : KCC :=
  applyGravity dt (jump (followGround app (applyYaw k))).

(** The displacement handed to the horizontal pass: steps 4 and 6 on
    the state after yaw, platform follow and jump. *)
Definition desiredHoriz (app : World) (dt : R) (k : KCC) : Vec3.t :=
  let k := jump (followGround app (applyYaw k)) in
  clampUphill (_steepNormal k) (inputDisplacement dt k).

(** Step 7, vertical pass: the loop variables it ends with (those of
    an empty pass when the vertical step is within [EPS]). *)
Definition verticalPass (app : World) (dt : R) (k : KCC) : SweepLoop :=
  let k := beforePasses app dt k in
  let desiredVert := _velY k * dt in
  let pos := entityPosition k in
  let k := set_groundCandidate None (set_grounded false k) in
  if Rgt_dec (Rabs desiredVert) EPS
  then sweep app k pos (Vec3.mk 0 desiredVert 0) true
  else mkLoop k pos Vec3.ZERO None None [].

(** Step 7, horizontal pass, run on what the vertical pass [v] left. *)
Definition horizontalPass (app : World) (dt : R) (k : KCC) (v : SweepLoop)
    : SweepLoop :=
  if Rgt_dec (Vec3.lengthSq (desiredHoriz app dt k)) EPS
  then sweep app (l_kcc v) (l_pos v) (desiredHoriz app dt k) false
  else mkLoop (l_kcc v) (l_pos v) Vec3.ZERO None None [].

(** Steps 1 to 7: everything up to and including the two passes and
    the clearing of the steep flag. *)
Definition movePasses (app : World) (dt : R) (k : KCC) : Tick :=
  let v := verticalPass app dt k in
  let h := horizontalPass app dt k v in
  mkTick (set_steepNormal None (l_kcc h)) (l_pos h)
         (l_casts v) (l_casts h) [].

(** Step 8: ground-snap. *)
Definition snapTarget (k : KCC) (pos : Vec3.t) : Vec3.t :=
  Vec3.add pos (Vec3.mulScalar Vec3.UP (- groundSnap (attrs k))).

Definition snapAttempted (k : KCC) : bool :=
  negb (_grounded k)
  && (if Rlt_dec (_velY k) 0 then true else false)
  && (if Rgt_dec (groundSnap (attrs k)) 0 then true else false).

Definition snapDrop (k : KCC) (snapHit : ConvexCastResult) : R :=
  clamp (hitFraction snapHit * groundSnap (attrs k)) 0 (groundSnap (attrs k)).

Definition groundSnapProbe (app : World) (t : Tick) : Tick :=
  let k := t_kcc t in
  let pos := t_pos t in
  if snapAttempted k then
    let casts := t_snap t ++ [(pos, snapTarget k pos)] in
    match sphereCast app (radius (attrs k)) pos (snapTarget k pos) with
    | Some snapHit =>
        if walkable (attrs k) (normal snapHit) then
          mkTick (set_groundCandidate (Some (entity snapHit))
                    (set_grounded true k))
                 (Vec3.setY pos (Vec3.y pos - snapDrop k snapHit))
                 (t_vertical t) (t_horizontal t) casts
        else mkTick k pos (t_vertical t) (t_horizontal t) casts
    | None => mkTick k pos (t_vertical t) (t_horizontal t) casts
    end
  else t.

(** Step 12: remember the ground for the platform follow. *)
Definition rememberGround (app : World) (k : KCC) : KCC :=
  let k :=
    if _grounded k then
      let k := set_groundEntity (_groundCandidate k) k in
      match _groundEntity k with
      | Some g =>
          set_groundPrevRot (getRotation app g)
            (set_groundPrevPos (getPosition app g) k)
      | None => k
      end
    else set_groundEntity None k in
  set_wasGrounded (_grounded k) k.

(** Steps 9 to 12: hover, commit, reset of the vertical velocity when
    grounded, and the ground bookkeeping. *)
Definition commit (app : World) (t : Tick) : Tick :=
  let k := t_kcc t in
  let pos :=
    if _grounded k
    then Vec3.add (t_pos t) (Vec3.mulScalar Vec3.UP (hover (attrs k)))
    else t_pos t in
  let k := setPosition pos k in
  let k :=
    if _grounded k && (if Rlt_dec (_velY k) 0 then true else false)
    then set_velY 0 k else k in
  let k := rememberGround app k in
  mkTick k pos (t_vertical t) (t_horizontal t) (t_snap t).

(** [update(dt)]. *)
Definition update (app : World) (dt : R) (k : KCC) : Tick :=
  commit app (groundSnapProbe app (movePasses app dt k)).

(** The controller after one tick. *)
Definition tick (app : World) (dt : R) (k : KCC) : KCC :=
  t_kcc (update app dt k).

(** The platform follow of the older copy of [update] that is kept next
    to the current one: it applies the whole rotation delta to the
    offset and leaves the rider's orientation alone. *)
Definition followGroundLegacy (app : World) (k : KCC) : KCC :=
  if _wasGrounded k then
    match _groundEntity k with
    | Some g =>
        let gp := getPosition app g in
        let gr := getRotation app g in
        let rel :=
          transformVector (qmul gr (qinvert (_groundPrevRot k)))
            (Vec3.sub (entityPosition k) (_groundPrevPos k)) in
        setPosition (Vec3.add gp rel) k
    | None => k
    end
  else k.

(* ------------------------------------------------------------------ *)
(** *** Predicates on runs of the loop *)

(** A reading of the controller that the four assignments of [sweep]
    leave alone. *)
Definition sweepFrame {T : Type} (f : KCC -> T) : Prop :=
  (forall v k, f (set_velY v k) = f k) /\
  (forall v k, f (set_grounded v k) = f k) /\
  (forall v k, f (set_groundCandidate v k) = f k) /\
  (forall v k, f (set_steepNormal v k) = f k).

(** The segment a round hands to [sphereCast], and the answer. *)
Definition roundCast (s : SweepLoop) : Cast :=
  (l_pos s, Vec3.add (l_pos s) (l_remaining s)).

Definition roundHit (app : World) (s : SweepLoop) : option ConvexCastResult :=
  sphereCast app (radius (attrs (l_kcc s))) (l_pos s)
             (Vec3.add (l_pos s) (l_remaining s)).

(** For as long as the loop keeps going, up to [n] rounds from [s]:
    each round finds a remainder of squared length at least [EPS] and
    its query reports a hit. *)
Fixpoint hitsEveryQuery (app : World) (isVerticalPass : bool) (n : nat)
    (s : SweepLoop) : Prop :=
  match n with
  | O => True
  | S n' =>
      ~ Vec3.lengthSq (l_remaining s) < EPS /\
      roundHit app s <> None /\
      match sweepRound app isVerticalPass s with
      | (Break, _) => True
      | (Continue, s') => hitsEveryQuery app isVerticalPass n' s'
      end
  end.

(** A round is a ceiling strike when the pass is vertical and the
    remainder points up; this says none of the rounds run is one. *)
Fixpoint noCeilingStrike (app : World) (isVerticalPass : bool) (n : nat)
    (s : SweepLoop) : Prop :=
  match n with
  | O => True
  | S n' =>
      ~ (isVerticalPass = true /\ Vec3.y (l_remaining s) > 0) /\
      match sweepRound app isVerticalPass s with
      | (Break, _) => True
      | (Continue, s') => noCeilingStrike app isVerticalPass n' s'
      end
  end.

(** A reading of the controller that steps 9 to 12 of [update] leave
    alone. *)
Definition commitFrame {T : Type} (f : KCC -> T) : Prop :=
  (forall v k, f (setPosition v k) = f k) /\
  (forall v k, f (set_velY v k) = f k) /\
  (forall v k, f (set_groundEntity v k) = f k) /\
  (forall v k, f (set_groundPrevPos v k) = f k) /\
  (forall v k, f (set_groundPrevRot v k) = f k) /\
  (forall v k, f (set_wasGrounded v k) = f k).

(** Entity [g] was reported by the world as the hit of one of the
    swept segments [casts], on a surface that is walkable for the
    attributes [a]. *)
Definition hitAmong (app : World) (a : Attributes) (casts : list Cast)
    (g : Entity) : Prop :=
  exists c hit,
    In c casts /\ sphereCast app (radius a) (fst c) (snd c) = Some hit /\
    entity hit = g /\ walkable a (normal hit) = true.

(** All segments swept during a tick. *)
Definition tickCasts (t : Tick) : list Cast :=
  t_vertical t ++ t_horizontal t ++ t_snap t.

(** The footing fields are fresh with respect to the segments [casts]:
    the controller is grounded exactly when it has a ground candidate,
    and the candidate is an entity the world reported as a walkable hit
    of one of those segments. *)
Definition footingFresh (app : World) (a : Attributes) (casts : list Cast)
    (k : KCC) : Prop :=
  (_grounded k = true -> exists g, _groundCandidate k = Some g) /\
  (forall g, _groundCandidate k = Some g ->
             _grounded k = true /\ hitAmong app a casts g).


(* ------------------------------------------------------------------ *)
(** *** The older kcc.mjs: [_sweep] and [update] *)

(** The branch taken after a hit in the in-class [_sweep] of the older
    kcc.mjs.  It is [resolveHit] line for line, except that the steep
    branch of the vertical pass does not store the contact normal. *)
Definition resolveHitLegacy (isVerticalPass : bool) (s : SweepLoop)
    (casts : list Cast) (hit : ConvexCastResult) : Flow * SweepLoop :=
  let kcc := l_kcc s in
  let a := attrs kcc in
  let remaining := l_remaining s in
  let pos := stepToImpact a (l_pos s) remaining hit in
  if isVerticalPass then
    if Rgt_dec (Vec3.y remaining) 0 then
      (Break, mkLoop (set_velY 0 kcc) pos remaining
                     (l_wallN1 s) (l_wallN2 s) casts)
    else if Rlt_dec (Vec3.y remaining) 0 then
      if walkable a (normal hit) then
        (Continue,
         mkLoop (set_velY 0
                   (set_groundCandidate (Some (entity hit))
                      (set_grounded true kcc)))
                pos (landingRemainder remaining hit)
                (l_wallN1 s) (l_wallN2 s) casts)
      else
        (Continue,
         mkLoop kcc pos (steepRemainder a remaining hit)
                (l_wallN1 s) (l_wallN2 s) casts)
    else
      (Continue, mkLoop kcc pos remaining (l_wallN1 s) (l_wallN2 s) casts)
  else
    if walkable a (normal hit) then
      (Continue,
       mkLoop (set_groundCandidate (Some (entity hit))
                 (set_grounded true kcc))
              pos (walkableRemainder remaining hit)
              (l_wallN1 s) (l_wallN2 s) casts)
    else
      let wallN := flatten (normal hit) in
      let '(wallN1, wallN2) := recordWall wallN (l_wallN1 s) (l_wallN2 s) in
      match wallN1, wallN2 with
      | Some _, Some _ =>
          (Continue, mkLoop kcc pos Vec3.ZERO wallN1 wallN2 casts)
      | _, _ =>
          let lockN := match wallN1 with Some n => n | None => wallN end in
          (Continue,
           mkLoop kcc pos (wallRemainder a remaining lockN hit)
                  wallN1 wallN2 casts)
      end.

Definition sweepRoundLegacy (app : World) (isVerticalPass : bool)
    (s : SweepLoop) : Flow * SweepLoop :=
  if Rlt_dec (Vec3.lengthSq (l_remaining s)) EPS then (Break, s)
  else
    let end_ := Vec3.add (l_pos s) (l_remaining s) in
    let casts := l_casts s ++ [(l_pos s, end_)] in
    match sphereCast app (radius (attrs (l_kcc s))) (l_pos s) end_ with
    | None =>
        (Break, mkLoop (l_kcc s) end_ (l_remaining s)
                       (l_wallN1 s) (l_wallN2 s) casts)
    | Some hit => resolveHitLegacy isVerticalPass s casts hit
    end.

Fixpoint sweepLoopLegacy (app : World) (isVerticalPass : bool) (n : nat)
    (s : SweepLoop) : SweepLoop :=
  match n with
  | O => s
  | S n' =>
      match sweepRoundLegacy app isVerticalPass s with
      | (Break, s') => s'
      | (Continue, s') => sweepLoopLegacy app isVerticalPass n' s'
      end
  end.

(** [this._sweep(pos, disp, isVerticalPass)] of the older kcc.mjs. *)
Definition _sweep (app : World) (kcc : KCC) (pos disp : Vec3.t)
    (isVerticalPass : bool) : SweepLoop :=
  sweepLoopLegacy app isVerticalPass (maxIterations (attrs kcc))
                  (mkLoop kcc pos disp None None []).

(** The older [update], by the same stages as the current one: it
    follows the platform with the whole rotation delta, has no uphill
    clamp, runs its passes through [_sweep], and never assigns the
    steep normal.  Its ground-snap, hover, commit and ground
    bookkeeping are those of the current [update]. *)
Definition desiredHorizLegacy (app : World) (dt : R) (k : KCC) : Vec3.t :=
  inputDisplacement dt (jump (followGroundLegacy app (applyYaw k))).

Definition verticalPassLegacy (app : World) (dt : R) (k : KCC) : SweepLoop :=
  let k := applyGravity dt (jump (followGroundLegacy app (applyYaw k))) in
  let desiredVert := _velY k * dt in
  let pos := entityPosition k in
  let k := set_groundCandidate None (set_grounded false k) in
  if Rgt_dec (Rabs desiredVert) EPS
  then _sweep app k pos (Vec3.mk 0 desiredVert 0) true
  else mkLoop k pos Vec3.ZERO None None [].

Definition horizontalPassLegacy (app : World) (dt : R) (k : KCC)
    (v : SweepLoop) : SweepLoop :=
  if Rgt_dec (Vec3.lengthSq (desiredHorizLegacy app dt k)) EPS
  then _sweep app (l_kcc v) (l_pos v) (desiredHorizLegacy app dt k) false
  else mkLoop (l_kcc v) (l_pos v) Vec3.ZERO None None [].

Definition movePassesLegacy (app : World) (dt : R) (k : KCC) : Tick :=
  let v := verticalPassLegacy app dt k in
  let h := horizontalPassLegacy app dt k v in
  mkTick (l_kcc h) (l_pos h) (l_casts v) (l_casts h) [].

Definition updateLegacy (app : World) (dt : R) (k : KCC) : Tick :=
  commit app (groundSnapProbe app (movePassesLegacy app dt k)).

(* ------------------------------------------------------------------ *)
(** *** Views used to compare states *)

(** The loop variables with the controller's steep normal replaced. *)
Definition withSteep (sn : option Vec3.t) (s : SweepLoop) : SweepLoop :=
  mkLoop (set_steepNormal sn (l_kcc s)) (l_pos s) (l_remaining s)
         (l_wallN1 s) (l_wallN2 s) (l_casts s).

(** [kcc.speed = v], an assignment to an attribute. *)
Definition set_speed (v : R) (k : KCC) : KCC :=
  mkKCC (mkAttributes v (gravity (attrs k)) (jumpSpeed (attrs k))
                      (airControl (attrs k)) (radius (attrs k))
                      (maxIterations (attrs k)) (slopeLimitDeg (attrs k))
                      (skin (attrs k)) (groundSnap (attrs k))
                      (hover (attrs k)))
        (_velY k) (_horizontal k) (_vertical k) (_jumpPressed k)
        (_yawDelta k) (_grounded k) (_wasGrounded k) (_groundEntity k)
        (_groundPrevPos k) (_groundPrevRot k) (_groundCandidate k)
        (_steepNormal k) (entityPosition k) (entityRotation k).

(** The combined direction of step 4 before it is normalised. *)
Definition inputDirection (k : KCC) : Vec3.t :=
  Vec3.add
    (Vec3.mulScalar (forward (entityRotation k)) (- _vertical k))
    (Vec3.mulScalar (right (entityRotation k)) (_horizontal k)).

End Controller.

(* ================================================================== *)
(** ** A reference engine *)

(** Quaternions over the reals with the Hamilton product, the rotation
    of a vector by conjugation, and Euler angles in degrees.  It gives
    the interface a concrete inhabitant so that the controller can be
    run on concrete inputs; no property below depends on it. *)
Record Quaternion : Type := mkQuat { qx : R; qy : R; qz : R; qw : R }.

Definition quatIdentity : Quaternion := mkQuat 0 0 0 1.

Definition quatMul (a b : Quaternion) : Quaternion :=
  mkQuat (qw a * qx b + qx a * qw b + qy a * qz b - qz a * qy b)
         (qw a * qy b + qy a * qw b + qz a * qx b - qx a * qz b)
         (qw a * qz b + qz a * qw b + qx a * qy b - qy a * qx b)
         (qw a * qw b - qx a * qx b - qy a * qy b - qz a * qz b).

Definition quatLength (q : Quaternion) : R :=
  sqrt (qx q * qx q + qy q * qy q + qz q * qz q + qw q * qw q).

Definition quatNormalize (q : Quaternion) : Quaternion :=
  if Req_dec_T (quatLength q) 0 then quatIdentity
  else mkQuat (qx q / quatLength q) (qy q / quatLength q)
              (qz q / quatLength q) (qw q / quatLength q).

Definition quatInvert (q : Quaternion) : Quaternion :=
  quatNormalize (mkQuat (- qx q) (- qy q) (- qz q) (qw q)).

Definition atan2 (b a : R) : R :=
  if Rgt_dec a 0 then atan (b / a)
  else if Rlt_dec a 0 then
         (if Rle_dec 0 b then atan (b / a) + PI else atan (b / a) - PI)
  else if Rgt_dec b 0 then PI / 2
  else if Rlt_dec b 0 then - (PI / 2)
  else 0.

Definition quatGetEulerAngles (q : Quaternion) : Vec3.t :=
  let a2 := 2 * (qw q * qy q - qx q * qz q) in
  let e :=
    if Rle_dec a2 (- (99999 / 100000))
    then Vec3.mk (2 * atan2 (qx q) (qw q)) (- (PI / 2)) 0
    else if Rle_dec (99999 / 100000) a2
    then Vec3.mk (2 * atan2 (qx q) (qw q)) (PI / 2) 0
    else Vec3.mk
           (atan2 (2 * (qw q * qx q + qy q * qz q))
                  (1 - 2 * (qx q * qx q + qy q * qy q)))
           (asin a2)
           (atan2 (2 * (qw q * qz q + qx q * qy q))
                  (1 - 2 * (qy q * qy q + qz q * qz q))) in
  Vec3.mulScalar e (180 / PI).

Definition quatSetFromEulerAngles (ex ey ez : R) : Quaternion :=
  let h := PI / 360 in
  let sx := sin (ex * h) in let cx := cos (ex * h) in
  let sy := sin (ey * h) in let cy := cos (ey * h) in
  let sz := sin (ez * h) in let cz := cos (ez * h) in
  mkQuat (sx * cy * cz - cx * sy * sz)
         (cx * sy * cz + sx * cy * sz)
         (cx * cy * sz - sx * sy * cz)
         (cx * cy * cz + sx * sy * sz).

Definition quatTransformVector (q : Quaternion) (v : Vec3.t) : Vec3.t :=
  let ix := qw q * Vec3.x v + qy q * Vec3.z v - qz q * Vec3.y v in
  let iy := qw q * Vec3.y v + qz q * Vec3.x v - qx q * Vec3.z v in
  let iz := qw q * Vec3.z v + qx q * Vec3.y v - qy q * Vec3.x v in
  let iw := - qx q * Vec3.x v - qy q * Vec3.y v - qz q * Vec3.z v in
  Vec3.mk (ix * qw q + iw * - qx q + iy * - qz q - iz * - qy q)
          (iy * qw q + iw * - qy q + iz * - qx q - ix * - qz q)
          (iz * qw q + iw * - qz q + ix * - qy q - iy * - qx q).

#[export] Instance referenceEngine : Engine Quaternion := {|
  qmul := quatMul;
  qinvert := quatInvert;
  getEulerAngles := quatGetEulerAngles;
  setFromEulerAngles := quatSetFromEulerAngles;
  transformVector := quatTransformVector;
  rotateLocal := fun ex ey ez r => quatMul r (quatSetFromEulerAngles ex ey ez);
  forward := fun r => quatTransformVector r (Vec3.mk 0 0 (-1));
  right := fun r => quatTransformVector r (Vec3.mk 1 0 0)
|}.

(* ================================================================== *)
(** ** Concrete worlds and controllers *)

(** A controller with the default attributes, freshly initialised at
    the origin with the identity rotation. *)
Definition kcc0 : @KCC Quaternion :=
  initialize defaultAttributes Vec3.ZERO quatIdentity quatIdentity.

(** A world whose sweep gives the same answer to every query, with
    every entity resting at the origin. *)
Definition constWorld (answer : option ConvexCastResult) : @World Quaternion :=
  mkWorld (fun _ _ _ => answer) (fun _ => Vec3.ZERO) (fun _ => quatIdentity).

(** Open space. *)
Definition emptyWorld : @World Quaternion := constWorld None.

(** Every sweep hits the underside of a ceiling (normal pointing down),
    half way along the segment. *)
Definition ceilingHit : ConvexCastResult :=
  mkHit 1%nat (1 / 2) Vec3.ZERO Vec3.DOWN.

Definition ceilingWorld : @World Quaternion := constWorld (Some ceilingHit).

(** Every sweep touches a flat floor right at its start. *)
Definition floorHit : ConvexCastResult := mkHit 1%nat 0 Vec3.ZERO Vec3.UP.

Definition floorWorld : @World Quaternion := constWorld (Some floorHit).

(** A wall facing +x that the sphere's centre cannot cross at
    x = -3/2: a segment ending beyond it is stopped half way. *)
Definition wallHit : ConvexCastResult :=
  mkHit 7%nat (1 / 2) (Vec3.mk (-2) 0 2) (Vec3.mk 1 0 0).

Definition planeWall : @World Quaternion :=
  mkWorld (fun _ a b => if Rlt_dec (Vec3.x b) (- (3 / 2)) then Some wallHit
                        else None)
          (fun _ => Vec3.ZERO) (fun _ => quatIdentity).

(** Three wall faces met one after the other along z: the first faces
    +x, the second and third are turned about 7.6 degrees to either
    side of it.  Each stops a segment half way; past z = 13/4 the way
    is free. *)
Definition wallA : ConvexCastResult :=
  mkHit 1%nat (1 / 2) Vec3.ZERO (Vec3.mk 1 0 0).
Definition wallB : ConvexCastResult :=
  mkHit 2%nat (1 / 2) Vec3.ZERO (Vec3.mk (112 / 113) 0 (15 / 113)).
Definition wallC : ConvexCastResult :=
  mkHit 3%nat (1 / 2) Vec3.ZERO (Vec3.mk (112 / 113) 0 (- (15 / 113))).

Definition corridor : @World Quaternion :=
  mkWorld (fun _ a _ =>
             if Rlt_dec (Vec3.z a) 1 then Some wallA
             else if Rlt_dec (Vec3.z a) (5 / 2) then Some wallB
             else if Rlt_dec (Vec3.z a) (13 / 4) then Some wallC
             else None)
          (fun _ => Vec3.ZERO) (fun _ => quatIdentity).

(** The default attributes with the skin gap set to zero. *)
Definition noSkinAttributes : Attributes :=
  {| speed := 6; gravity := - (981 / 100); jumpSpeed := 6; airControl := 1;
     radius := 1 / 2; maxIterations := 5; slopeLimitDeg := 50;
     skin := 0; groundSnap := 3 / 10; hover := 2 / 10 |}.

Definition kccNoSkin : @KCC Quaternion :=
  initialize noSkinAttributes Vec3.ZERO quatIdentity quatIdentity.

(** A flat floor that the sphere's centre cannot cross at y = -1/10:
    a segment ending below it is stopped where it reaches that
    height. *)
Definition floorBelow : @World Quaternion :=
  mkWorld (fun _ a b =>
             if Rlt_dec (Vec3.y b) (- (1 / 10))
             then Some (mkHit 1%nat
                              ((Vec3.y a + 1 / 10) / (Vec3.y a - Vec3.y b))
                              b Vec3.UP)
             else None)
          (fun _ => Vec3.ZERO) (fun _ => quatIdentity).

(** A rider that ended the previous tick on platform 3, and a world in
    which that platform has since moved and turned. *)
Definition rider : @KCC Quaternion :=
  set_groundPrevPos (Vec3.mk 1 0 0)
    (set_groundEntity (Some 3%nat)
       (set_wasGrounded true
          (initialize defaultAttributes (Vec3.mk 2 1 0)
                      quatIdentity quatIdentity))).

Definition platformWorld : @World Quaternion :=
  mkWorld (fun _ _ _ => None)
          (fun _ => Vec3.mk 1 0 5)
          (fun _ => quatSetFromEulerAngles 30 90 0).

(** The loop variables of the horizontal pass of [kccNoSkin] from the
    origin by (-3, 0, 4) in the corridor, after each of its three wall
    contacts. *)
Definition corridorStart : @SweepLoop Quaternion :=
  mkLoop kccNoSkin Vec3.ZERO (Vec3.mk (-3) 0 4) None None [].

Definition afterWallA : @SweepLoop Quaternion :=
  mkLoop kccNoSkin (Vec3.mk (- (3 / 2)) 0 2) (Vec3.mk 0 0 2)
         (Some (Vec3.mk 1 0 0)) None
         (l_casts corridorStart ++ [roundCast corridorStart]).

Definition afterWallB : @SweepLoop Quaternion :=
  mkLoop kccNoSkin (Vec3.mk (- (3 / 2)) 0 3) (Vec3.mk 0 0 1)
         (Some (Vec3.mk 1 0 0)) None
         (l_casts afterWallA ++ [roundCast afterWallA]).

Definition afterWallC : @SweepLoop Quaternion :=
  mkLoop kccNoSkin (Vec3.mk (- (3 / 2)) 0 (7 / 2)) (Vec3.mk 0 0 (1 / 2))
         (Some (Vec3.mk 1 0 0)) None
         (l_casts afterWallB ++ [roundCast afterWallB]).

Definition corridorEnd : @SweepLoop Quaternion :=
  mkLoop kccNoSkin
         (Vec3.add (Vec3.mk (- (3 / 2)) 0 (7 / 2)) (Vec3.mk 0 0 (1 / 2)))
         (Vec3.mk 0 0 (1 / 2))
         (Some (Vec3.mk 1 0 0)) None
         (l_casts afterWallC ++ [roundCast afterWallC]).

(** A steep ramp rising towards -x, tilted by about 67 degrees: every
    sweep is stopped half way by it. *)
Definition rampNormal : Vec3.t := Vec3.mk (12 / 13) (5 / 13) 0.

Definition rampHit : ConvexCastResult := mkHit 9%nat (1 / 2) Vec3.ZERO rampNormal.

Definition rampWorld : @World Quaternion := constWorld (Some rampHit).

(* ================================================================== *)
(** ** kccInputDesktop.mjs *)

(** The two-component vector of the mouse positions. *)
Record Vec2 : Type := mkVec2 { mouseX : R; mouseY : R }.

(** What the input script reads from [this.app.keyboard] in one frame:
    [isPressed] for the movement, sprint and jump keys and [wasPressed]
    for the jump key. *)
Record Keyboard : Type := mkKeyboard {
  KEY_D : bool;
  KEY_A : bool;
  KEY_S : bool;
  KEY_W : bool;
  KEY_SHIFT : bool;
  KEY_SPACE : bool;
  KEY_SPACE_wasPressed : bool
}.

(** [+(b)] for a boolean [b]. *)
Definition toNumber (b : bool) : R := if b then 1 else 0.

Module KccInputDesktop.

(** The script instance: its attributes, the mouse positions, and the
    speed cached at [initialize]. *)
Record t : Type := mk {
  lookSpeed : R;
  sprintScalar : R;
  continuousJump : bool;
  currMousePosition : Vec2;
  prevMousePosition : Vec2;
  _cachedSpeed : R
}.

(** [initialize()], for the attribute values given and the controller
    [kcc] of the same entity. *)
Definition initialize {Quat : Type} (look sprint : R) (continuous : bool)
    (kcc : @KCC Quat) : t :=
  mk look sprint continuous (mkVec2 0 0) (mkVec2 0 0) (speed (attrs kcc)).

(** [onMouseMove(event)]. *)
Definition onMouseMove (eventX eventY : R) (i : t) : t :=
  mk (lookSpeed i) (sprintScalar i) (continuousJump i)
     (mkVec2 eventX eventY) (prevMousePosition i) (_cachedSpeed i).

(** The jump request of a frame. *)
Definition jumpRequested (keys : Keyboard) (i : t) : bool :=
  if continuousJump i then KEY_SPACE keys else KEY_SPACE_wasPressed keys.

(** The yaw handed to the controller in a frame. *)
Definition yawInput (i : t) : R :=
  (mouseX (prevMousePosition i) - mouseX (currMousePosition i)) * lookSpeed i.

(** [update(dt)]: the script after the frame and the controller after
    the speed assignment and [setInput]. *)
Definition update {Quat : Type} (keys : Keyboard) (i : t) (kcc : @KCC Quat)
    : t * @KCC Quat :=
  let horizontal := toNumber (KEY_D keys) - toNumber (KEY_A keys) in
  let vertical := toNumber (KEY_S keys) - toNumber (KEY_W keys) in
  let kcc :=
    if KEY_SHIFT keys
    then set_speed (_cachedSpeed i * sprintScalar i) kcc
    else set_speed (_cachedSpeed i) kcc in
  let jump := jumpRequested keys i in
  let yawDelta :=
    mouseX (prevMousePosition i) - mouseX (currMousePosition i) in
  let i' := mk (lookSpeed i) (sprintScalar i) (continuousJump i)
               (currMousePosition i) (currMousePosition i)
               (_cachedSpeed i) in
  (i', setInput horizontal vertical jump (yawDelta * lookSpeed i) kcc).

(** A run of frames, each a keyboard state and the mouse position last
    reported before the script's [update]: the script and controller
    after the run, and the yaw handed over in each frame. *)
Fixpoint frames {Quat : Type} (fs : list (Keyboard * Vec2)) (i : t)
    (kcc : @KCC Quat) : t * @KCC Quat * list R :=
  match fs with
  | [] => (i, kcc, [])
  | (keys, m) :: rest =>
      let i1 := onMouseMove (mouseX m) (mouseY m) i in
      let '(i2, kcc2) := update keys i1 kcc in
      let '(i3, kcc3, yaws) := frames rest i2 kcc2 in
      (i3, kcc3, yawInput i1 :: yaws)
  end.

End KccInputDesktop.


(* ================================================================== *)
(** * Properties *)

(** ** Vector and scalar facts *)

Lemma EPS_pos : 0 < EPS.
Proof. unfold EPS; lra. Qed.

Lemma clamp_bounds (v lo hi : R) : lo <= hi -> lo <= clamp v lo hi <= hi.
Proof.
  intros Hle; unfold clamp, Rmax, Rmin.
  destruct (Rle_dec hi v); destruct (Rle_dec lo _); lra.
Qed.

Lemma clamp_id (v lo hi : R) : lo <= v <= hi -> clamp v lo hi = v.
Proof.
  intros [H1 H2]; unfold clamp, Rmax, Rmin.
  destruct (Rle_dec hi v); destruct (Rle_dec lo _); lra.
Qed.

Lemma lengthSq_nonneg (v : Vec3.t) : 0 <= Vec3.lengthSq v.
Proof. unfold Vec3.lengthSq; nra. Qed.

Lemma lengthSq_ZERO : Vec3.lengthSq Vec3.ZERO = 0.
Proof. unfold Vec3.lengthSq, Vec3.ZERO; simpl; ring. Qed.

Lemma vec3_eq (a b : Vec3.t) :
  Vec3.x a = Vec3.x b -> Vec3.y a = Vec3.y b -> Vec3.z a = Vec3.z b -> a = b.
Proof. destruct a, b; simpl; intros; subst; reflexivity. Qed.

(** The projection has no component left along a non-degenerate normal. *)
Lemma projectOnPlane_normal (v n : Vec3.t) :
  ~ Vec3.lengthSq n < EPS -> Vec3.dot (projectOnPlane v n) n = 0.
Proof.
  intros Hn; unfold projectOnPlane.
  destruct (Rlt_dec (Vec3.lengthSq n) EPS) as [Hlt | _]; [contradiction |].
  assert (Hm : Vec3.lengthSq n <> 0) by (pose proof EPS_pos; lra).
  unfold Vec3.dot, Vec3.lengthSq in *; simpl; field; exact Hm.
Qed.

(** The projection keeps the component along any direction of the plane. *)
Lemma projectOnPlane_tangent (v n t : Vec3.t) :
  Vec3.dot t n = 0 -> Vec3.dot (projectOnPlane v n) t = Vec3.dot v t.
Proof.
  intros Ht; unfold projectOnPlane.
  destruct (Rlt_dec (Vec3.lengthSq n) EPS) as [_ | _]; [reflexivity |].
  unfold Vec3.dot in *; simpl.
  set (d := (_ / _)).
  replace (_ + _ + _) with
    (Vec3.x v * Vec3.x t + Vec3.y v * Vec3.y t + Vec3.z v * Vec3.z t
     - d * (Vec3.x t * Vec3.x n + Vec3.y t * Vec3.y n + Vec3.z t * Vec3.z n))
    by ring.
  rewrite Ht; ring.
Qed.

(** ** Slope classification *)

Lemma dot_UP (n : Vec3.t) : Vec3.dot n Vec3.UP = Vec3.y n.
Proof. unfold Vec3.dot, Vec3.UP; simpl; ring. Qed.

Lemma slopeDeg_normalAt (deg : R) :
  0 <= deg <= 180 -> slopeDeg (normalAt deg) = deg.
Proof.
  intros [H0 H180].
  pose proof PI_RGT_0 as Hpi.
  assert (Hrange : 0 <= deg * PI / 180 <= PI).
  { split.
    - apply Rmult_le_pos; [apply Rmult_le_pos |]; lra.
    - assert (deg * PI <= 180 * PI) by (apply Rmult_le_compat_r; lra).
      lra. }
  unfold slopeDeg, cosTheta.
  rewrite dot_UP; unfold normalAt; cbn [Vec3.y].
  rewrite clamp_id by (pose proof (COS_bound (deg * PI / 180)); lra).
  rewrite acos_cos by exact Hrange.
  field; lra.
Qed.

(** C8 - Slope boundary.  The slope angle of a contact normal is
    acos(clamp(normal . up, -1, 1)) in degrees, and the contact is
    walkable exactly when that angle is strictly below slopeLimitDeg:
    at the limit exactly it is not walkable, below it is, above it is
    not.  A surface tilted by deg degrees (0 to 180) has slope angle
    deg, so the three cases all occur. *)
Theorem slope_classification_strict (a : Attributes) (n : Vec3.t) :
  slopeDeg n = acos (clamp (Vec3.dot n Vec3.UP) (-1) 1) * 180 / PI /\
  (walkable a n = true <-> slopeDeg n < slopeLimitDeg a) /\
  (slopeDeg n = slopeLimitDeg a -> walkable a n = false) /\
  (slopeDeg n < slopeLimitDeg a -> walkable a n = true) /\
  (slopeDeg n > slopeLimitDeg a -> walkable a n = false) /\
  (forall deg, 0 <= deg <= 180 ->
     slopeDeg (normalAt deg) = deg /\
     (walkable a (normalAt deg) = true <-> deg < slopeLimitDeg a)).
Proof.
  assert (Hiff : forall m, walkable a m = true <-> slopeDeg m < slopeLimitDeg a).
  { intros m; unfold walkable.
    destruct (Rlt_dec (slopeDeg m) (slopeLimitDeg a)); split; intros H;
      try reflexivity; try assumption; try discriminate; contradiction. }
  assert (Hnot : forall m, ~ slopeDeg m < slopeLimitDeg a -> walkable a m = false).
  { intros m Hge; destruct (walkable a m) eqn:Hw; [| reflexivity].
    apply Hiff in Hw; contradiction. }
  split; [reflexivity |].
  split; [apply Hiff |].
  split; [intros Heq; apply Hnot; lra |].
  split; [intros Hlt; apply Hiff; exact Hlt |].
  split; [intros Hgt; apply Hnot; lra |].
  intros deg Hdeg; split; [apply slopeDeg_normalAt; exact Hdeg |].
  rewrite Hiff, slopeDeg_normalAt by exact Hdeg; tauto.
Qed.

Section SweepProperties.

Context {Quat : Type} {E : Engine Quat}.

Implicit Types (app : @World Quat) (k kcc : @KCC Quat) (s : @SweepLoop Quat).

(** ** Frame of [sweep]: the fields the loop never assigns *)

Lemma resolveHit_frame {T : Type} (f : @KCC Quat -> T) v s casts hit :
  sweepFrame f -> f (l_kcc (snd (resolveHit v s casts hit))) = f (l_kcc s).
Proof.
  intros (Hv & Hg & Hc & Hs); unfold resolveHit.
  destruct v.
  - destruct (Rgt_dec _ 0); [simpl; apply Hv |].
    destruct (Rlt_dec _ 0); [| reflexivity].
    destruct (walkable _ _); simpl.
    + rewrite Hv, Hc, Hg; reflexivity.
    + apply Hs.
  - destruct (walkable _ _); simpl.
    + rewrite Hc, Hg; reflexivity.
    + destruct (recordWall _ _ _) as [[n1 |] [n2 |]]; reflexivity.
Qed.

Lemma sweepRound_frame {T : Type} (f : @KCC Quat -> T) app v s :
  sweepFrame f -> f (l_kcc (snd (sweepRound app v s))) = f (l_kcc s).
Proof.
  intros Hf; unfold sweepRound.
  destruct (Rlt_dec _ EPS); [reflexivity |].
  destruct (sphereCast _ _ _ _); [| reflexivity].
  apply resolveHit_frame; exact Hf.
Qed.

Lemma sweepLoop_frame {T : Type} (f : @KCC Quat -> T) app v n :
  sweepFrame f -> forall s, f (l_kcc (sweepLoop app v n s)) = f (l_kcc s).
Proof.
  intros Hf; induction n as [| n IH]; intros s; simpl; [reflexivity |].
  pose proof (sweepRound_frame f app v s Hf) as Hr.
  destruct (sweepRound app v s) as [[|] s']; simpl in Hr.
  - exact Hr.
  - rewrite IH; exact Hr.
Qed.

Lemma sweep_frame {T : Type} (f : @KCC Quat -> T) app kcc pos disp v :
  sweepFrame f -> f (l_kcc (sweep app kcc pos disp v)) = f kcc.
Proof. intros Hf; unfold sweep; rewrite sweepLoop_frame by exact Hf; reflexivity. Qed.

Ltac frame := repeat split; intros; reflexivity.

Lemma frame_attrs : sweepFrame (@attrs Quat). Proof. frame. Qed.
Lemma frame_horizontal : sweepFrame (@_horizontal Quat). Proof. frame. Qed.
Lemma frame_vertical : sweepFrame (@_vertical Quat). Proof. frame. Qed.
Lemma frame_jumpPressed : sweepFrame (@_jumpPressed Quat). Proof. frame. Qed.
Lemma frame_yawDelta : sweepFrame (@_yawDelta Quat). Proof. frame. Qed.
Lemma frame_wasGrounded : sweepFrame (@_wasGrounded Quat). Proof. frame. Qed.
Lemma frame_groundEntity : sweepFrame (@_groundEntity Quat). Proof. frame. Qed.
Lemma frame_groundPrevPos : sweepFrame (@_groundPrevPos Quat). Proof. frame. Qed.
Lemma frame_groundPrevRot : sweepFrame (@_groundPrevRot Quat). Proof. frame. Qed.
Lemma frame_entityPosition : sweepFrame (@entityPosition Quat). Proof. frame. Qed.
Lemma frame_entityRotation : sweepFrame (@entityRotation Quat). Proof. frame. Qed.

(** ** The rounds of the loop, case by case *)

Lemma sweepRound_converged app v s :
  Vec3.lengthSq (l_remaining s) < EPS -> sweepRound app v s = (Break, s).
Proof.
  intros H; unfold sweepRound.
  destruct (Rlt_dec _ EPS); [reflexivity | contradiction].
Qed.

Lemma sweepRound_nohit app v s :
  ~ Vec3.lengthSq (l_remaining s) < EPS ->
  sphereCast app (radius (attrs (l_kcc s))) (l_pos s)
             (Vec3.add (l_pos s) (l_remaining s)) = None ->
  sweepRound app v s =
  (Break, mkLoop (l_kcc s) (Vec3.add (l_pos s) (l_remaining s))
                 (l_remaining s) (l_wallN1 s) (l_wallN2 s)
                 (l_casts s ++ [(l_pos s, Vec3.add (l_pos s) (l_remaining s))])).
Proof.
  intros H Hc; unfold sweepRound.
  destruct (Rlt_dec _ EPS); [contradiction |].
  rewrite Hc; reflexivity.
Qed.

Lemma sweepRound_hit app v s hit :
  ~ Vec3.lengthSq (l_remaining s) < EPS ->
  sphereCast app (radius (attrs (l_kcc s))) (l_pos s)
             (Vec3.add (l_pos s) (l_remaining s)) = Some hit ->
  sweepRound app v s =
  resolveHit v s
    (l_casts s ++ [(l_pos s, Vec3.add (l_pos s) (l_remaining s))]) hit.
Proof.
  intros H Hc; unfold sweepRound.
  destruct (Rlt_dec _ EPS); [contradiction |].
  rewrite Hc; reflexivity.
Qed.

Lemma resolveHit_casts v s casts hit :
  l_casts (snd (resolveHit v s casts hit)) = casts.
Proof.
  unfold resolveHit.
  destruct v.
  - destruct (Rgt_dec _ 0); [reflexivity |].
    destruct (Rlt_dec _ 0); [| reflexivity].
    destruct (walkable _ _); reflexivity.
  - destruct (walkable _ _); [reflexivity |].
    destruct (recordWall _ _ _) as [[n1 |] [n2 |]]; reflexivity.
Qed.

Lemma resolveHit_pos v s casts hit :
  l_pos (snd (resolveHit v s casts hit)) =
  stepToImpact (attrs (l_kcc s)) (l_pos s) (l_remaining s) hit.
Proof.
  unfold resolveHit.
  destruct v.
  - destruct (Rgt_dec _ 0); [reflexivity |].
    destruct (Rlt_dec _ 0); [| reflexivity].
    destruct (walkable _ _); reflexivity.
  - destruct (walkable _ _); [reflexivity |].
    destruct (recordWall _ _ _) as [[n1 |] [n2 |]]; reflexivity.
Qed.

Lemma sweepLoop_S_eq app (v : bool) (n : nat) s :
  sweepLoop app v (S n) s =
  match sweepRound app v s with
  | (Break, s') => s'
  | (Continue, s') => sweepLoop app v n s'
  end.
Proof. reflexivity. Qed.

(** A round sweeps at most one segment, and exactly one unless the
    remainder has converged. *)
Lemma sweepRound_casts app v s :
  l_casts (snd (sweepRound app v s)) =
  if Rlt_dec (Vec3.lengthSq (l_remaining s)) EPS then l_casts s
  else l_casts s ++ [(l_pos s, Vec3.add (l_pos s) (l_remaining s))].
Proof.
  unfold sweepRound.
  destruct (Rlt_dec _ EPS); [reflexivity |].
  destruct (sphereCast _ _ _ _); [apply resolveHit_casts | reflexivity].
Qed.

Lemma sweepLoop_casts_bound app v n :
  forall s, (length (l_casts (sweepLoop app v n s)) <= length (l_casts s) + n)%nat.
Proof.
  induction n as [| n IH]; intros s; simpl; [lia |].
  pose proof (sweepRound_casts app v s) as Hc.
  destruct (sweepRound app v s) as [[|] s']; simpl in Hc.
  - rewrite Hc; destruct (Rlt_dec _ EPS); [lia |].
    rewrite length_app; simpl; lia.
  - specialize (IH s'); rewrite Hc in IH.
    destruct (Rlt_dec _ EPS); [lia |].
    rewrite length_app in IH; simpl in IH; lia.
Qed.

End SweepProperties.

Section PassProperties.

Context {Quat : Type} {E : Engine Quat}.

Implicit Types (app : @World Quat) (k kcc : @KCC Quat) (s : @SweepLoop Quat).

(** ** Open space *)

(** C9 - Open-space identity.  At any round of either pass that still
    has a remainder to resolve (squared length at least EPS, a round
    left to run), if the world reports no hit for the segment from the
    current position to position + remainder, the loop adds the whole
    remainder to the position and stops: the position returned is
    exactly position + remainder, that one segment is the only one
    swept from there on, and the controller's fields are untouched.
    For the first round this is start + d. *)
Theorem open_space_identity app (isVerticalPass : bool) (n : nat) s :
  ~ Vec3.lengthSq (l_remaining s) < EPS ->
  roundHit app s = None ->
  l_pos (sweepLoop app isVerticalPass (S n) s)
    = Vec3.add (l_pos s) (l_remaining s) /\
  l_casts (sweepLoop app isVerticalPass (S n) s)
    = l_casts s ++ [roundCast s] /\
  l_kcc (sweepLoop app isVerticalPass (S n) s) = l_kcc s.
Proof.
  intros Hrem Hnone; simpl.
  rewrite (sweepRound_nohit app isVerticalPass s Hrem Hnone).
  repeat split.
Qed.

(** A pass that swept anything started with a round that had a
    remainder to resolve. *)
Lemma sweep_queried app kcc (pos disp : Vec3.t) (v : bool) :
  l_casts (sweep app kcc pos disp v) <> [] ->
  ~ Vec3.lengthSq disp < EPS /\ exists n, maxIterations (attrs kcc) = S n.
Proof.
  unfold sweep; intros Hne.
  destruct (maxIterations (attrs kcc)) as [| n]; [contradiction |].
  split; [| exists n; reflexivity].
  intros Hsmall; apply Hne.
  rewrite sweepLoop_S_eq, sweepRound_converged by exact Hsmall.
  reflexivity.
Qed.

(** For a whole pass: if its first segment was swept and the world
    reported no hit for it, the position returned is start + d and
    nothing else was swept. *)
Lemma sweep_open_space app kcc (pos disp : Vec3.t) (v : bool) :
  l_casts (sweep app kcc pos disp v) <> [] ->
  sphereCast app (radius (attrs kcc)) pos (Vec3.add pos disp) = None ->
  l_pos (sweep app kcc pos disp v) = Vec3.add pos disp /\
  l_casts (sweep app kcc pos disp v) = [(pos, Vec3.add pos disp)].
Proof.
  intros Hne Hnone.
  destruct (sweep_queried app kcc pos disp v Hne) as (Hrem & n & Hn).
  unfold sweep; rewrite Hn, sweepLoop_S_eq, sweepRound_nohit by assumption.
  split; reflexivity.
Qed.

(** ** Bounded iteration *)

(** The only round that ends in [break] after a hit is the ceiling
    strike of the vertical pass. *)
Lemma resolveHit_flow (v : bool) s casts hit :
  fst (resolveHit v s casts hit) = Break <->
  (v = true /\ Vec3.y (l_remaining s) > 0).
Proof.
  unfold resolveHit; destruct v.
  - destruct (Rgt_dec _ 0) as [Hup | Hup]; simpl.
    + tauto.
    + destruct (Rlt_dec _ 0); [destruct (walkable _ _) |]; simpl;
        split; try discriminate; intros [_ ?]; contradiction.
  - destruct (walkable _ _); simpl.
    + split; [discriminate | intros [? _]; discriminate].
    + destruct (recordWall _ _ _) as [[n1 |] [n2 |]]; simpl;
        (split; [discriminate | intros [? _]; discriminate]).
Qed.

Lemma sweepLoop_casts_exact app (v : bool) (n : nat) :
  forall s,
    hitsEveryQuery app v n s -> noCeilingStrike app v n s ->
    length (l_casts (sweepLoop app v n s)) = (length (l_casts s) + n)%nat.
Proof.
  induction n as [| n IH]; intros s Hhit Hceil; simpl; [lia |].
  destruct Hhit as (Hrem & Hsome & Hnext).
  destruct Hceil as (Hno & Hnext').
  unfold roundHit in Hsome.
  destruct (sphereCast app _ _ _) as [hit |] eqn:Hcast; [| contradiction].
  rewrite (sweepRound_hit app v s hit Hrem Hcast) in Hnext, Hnext' |- *.
  match goal with
  | |- context [resolveHit ?a ?b ?c ?d] =>
      pose proof (resolveHit_flow a b c d) as Hflow;
      pose proof (resolveHit_casts a b c d) as Hcasts;
      destruct (resolveHit a b c d) as [[|] s']
  end; simpl in *.
  - exfalso; apply Hno, Hflow; reflexivity.
  - rewrite (IH s' Hnext Hnext'), Hcasts, length_app; simpl; lia.
Qed.

(** C6 (amended) - Bounded iteration.  One call of [sweep] performs at
    most [maxIterations] queries, whatever its input and whatever the
    world answers.  It performs exactly [maxIterations] queries when
    every round finds a remainder of squared length at least EPS, every
    query reports a hit, and no round is a ceiling strike (a hit in the
    vertical pass while the remainder points up, which ends the pass
    at once). *)
Theorem sweep_query_budget app kcc (pos disp : Vec3.t) (isVerticalPass : bool) :
  (length (l_casts (sweep app kcc pos disp isVerticalPass))
     <= maxIterations (attrs kcc))%nat /\
  (hitsEveryQuery app isVerticalPass (maxIterations (attrs kcc))
                  (mkLoop kcc pos disp None None []) ->
   noCeilingStrike app isVerticalPass (maxIterations (attrs kcc))
                   (mkLoop kcc pos disp None None []) ->
   length (l_casts (sweep app kcc pos disp isVerticalPass))
     = maxIterations (attrs kcc)).
Proof.
  unfold sweep; split.
  - pose proof (sweepLoop_casts_bound app isVerticalPass
                  (maxIterations (attrs kcc))
                  (mkLoop kcc pos disp None None [])) as H.
    simpl in H; exact H.
  - intros Hhit Hceil.
    rewrite (sweepLoop_casts_exact _ _ _ _ Hhit Hceil); reflexivity.
Qed.

End PassProperties.

Section TickProperties.

Context {Quat : Type} {E : Engine Quat}.

Implicit Types (app : @World Quat) (k kcc : @KCC Quat) (s : @SweepLoop Quat)
         (t : @Tick Quat).

(** ** Frame of [update] *)

Lemma verticalPass_frame {T : Type} (f : @KCC Quat -> T) app dt k :
  sweepFrame f ->
  f (l_kcc (verticalPass app dt k)) = f (jump (followGround app (applyYaw k))).
Proof.
  intros Hf; pose proof Hf as (Hv & Hg & Hc & Hs).
  unfold verticalPass, beforePasses, applyGravity; cbv zeta.
  destruct (Rgt_dec (Rabs _) EPS);
    [rewrite (sweep_frame f) by exact Hf |]; cbn [l_kcc];
    rewrite Hc, Hg; apply Hv.
Qed.

Lemma horizontalPass_frame {T : Type} (f : @KCC Quat -> T) app dt k v :
  sweepFrame f -> f (l_kcc (horizontalPass app dt k v)) = f (l_kcc v).
Proof.
  intros Hf; unfold horizontalPass.
  destruct (Rgt_dec (Vec3.lengthSq _) EPS);
    [rewrite (sweep_frame f) by exact Hf |]; reflexivity.
Qed.

Lemma movePasses_frame {T : Type} (f : @KCC Quat -> T) app dt k :
  sweepFrame f ->
  f (t_kcc (movePasses app dt k)) = f (jump (followGround app (applyYaw k))).
Proof.
  intros Hf; pose proof Hf as (Hv & Hg & Hc & Hs).
  unfold movePasses; cbv zeta; cbn [t_kcc].
  rewrite Hs, horizontalPass_frame, verticalPass_frame by exact Hf.
  reflexivity.
Qed.

Lemma groundSnapProbe_frame {T : Type} (f : @KCC Quat -> T) app t :
  sweepFrame f -> f (t_kcc (groundSnapProbe app t)) = f (t_kcc t).
Proof.
  intros (Hv & Hg & Hc & Hs); unfold groundSnapProbe.
  destruct (snapAttempted _); [| reflexivity].
  destruct (sphereCast _ _ _ _); [| reflexivity].
  destruct (walkable _ _); [| reflexivity].
  cbn [t_kcc]; rewrite Hc, Hg; reflexivity.
Qed.

Lemma rememberGround_frame {T : Type} (f : @KCC Quat -> T) app k :
  commitFrame f -> f (rememberGround app k) = f k.
Proof.
  intros (Hp & Hv & He & Hpp & Hpr & Hw); unfold rememberGround.
  rewrite Hw.
  destruct (_grounded k); [| apply He].
  destruct (_groundEntity _); [rewrite Hpr, Hpp |]; apply He.
Qed.

Lemma commit_frame {T : Type} (f : @KCC Quat -> T) app t :
  commitFrame f -> f (t_kcc (commit app t)) = f (t_kcc t).
Proof.
  intros Hf; pose proof Hf as (Hp & Hv & He & Hpp & Hpr & Hw).
  unfold commit; cbn [t_kcc].
  rewrite rememberGround_frame by exact Hf.
  destruct (_ && _); [rewrite Hv |]; apply Hp.
Qed.

Lemma tick_frame {T : Type} (f : @KCC Quat -> T) app dt k :
  sweepFrame f -> commitFrame f ->
  f (tick app dt k) = f (jump (followGround app (applyYaw k))).
Proof.
  intros Hs Hc; unfold tick, update.
  rewrite commit_frame, groundSnapProbe_frame, movePasses_frame by assumption.
  reflexivity.
Qed.

Ltac frame := repeat split; intros; reflexivity.

Lemma cframe_attrs : commitFrame (@attrs Quat). Proof. frame. Qed.
Lemma cframe_horizontal : commitFrame (@_horizontal Quat). Proof. frame. Qed.
Lemma cframe_vertical : commitFrame (@_vertical Quat). Proof. frame. Qed.
Lemma cframe_jumpPressed : commitFrame (@_jumpPressed Quat). Proof. frame. Qed.
Lemma cframe_yawDelta : commitFrame (@_yawDelta Quat). Proof. frame. Qed.
Lemma cframe_entityRotation : commitFrame (@entityRotation Quat). Proof. frame. Qed.

(** The early steps on the input fields. *)
Lemma followGround_inputs app k :
  _horizontal (followGround app k) = _horizontal k /\
  _vertical (followGround app k) = _vertical k /\
  _jumpPressed (followGround app k) = _jumpPressed k /\
  _yawDelta (followGround app k) = _yawDelta k /\
  attrs (followGround app k) = attrs k.
Proof.
  unfold followGround.
  destruct (_wasGrounded k); [destruct (_groundEntity k) |]; repeat split.
Qed.

Lemma jump_inputs k :
  _horizontal (jump k) = _horizontal k /\
  _vertical (jump k) = _vertical k /\
  _jumpPressed (jump k) = false /\
  _yawDelta (jump k) = _yawDelta k /\
  attrs (jump k) = attrs k.
Proof. unfold jump; destruct (_ && _); repeat split. Qed.

Lemma applyYaw_inputs k :
  _horizontal (applyYaw k) = _horizontal k /\
  _vertical (applyYaw k) = _vertical k /\
  attrs (applyYaw k) = attrs k /\
  (Rabs (_yawDelta k) > EPS -> _yawDelta (applyYaw k) = 0) /\
  (~ Rabs (_yawDelta k) > EPS -> applyYaw k = k).
Proof.
  unfold applyYaw; destruct (Rgt_dec _ EPS); repeat split; intros; tauto.
Qed.

(** ** Pending input *)

Lemma tick_axes app (dt : R) k :
  _horizontal (tick app dt k) = _horizontal k /\
  _vertical (tick app dt k) = _vertical k.
Proof.
  pose proof (applyYaw_inputs k) as (Hh1 & Hv1 & _).
  pose proof (followGround_inputs app (applyYaw k)) as (Hh2 & Hv2 & _).
  pose proof (jump_inputs (followGround app (applyYaw k))) as (Hh3 & Hv3 & _).
  split.
  - rewrite (tick_frame _horizontal)
      by (apply frame_horizontal || apply cframe_horizontal).
    congruence.
  - rewrite (tick_frame _vertical)
      by (apply frame_vertical || apply cframe_vertical).
    congruence.
Qed.

Lemma tick_yawDelta app (dt : R) k :
  _yawDelta (tick app dt k) = _yawDelta (applyYaw k).
Proof.
  pose proof (followGround_inputs app (applyYaw k)) as (_ & _ & _ & Hy2 & _).
  pose proof (jump_inputs (followGround app (applyYaw k))) as (_ & _ & _ & Hy3 & _).
  rewrite (tick_frame _yawDelta) by (apply frame_yawDelta || apply cframe_yawDelta).
  congruence.
Qed.

(** What is left of the yaw delta after a tick is too small to be
    applied by the next one. *)
Lemma tick_yaw_settled app (dt : R) k :
  Rabs (_yawDelta (tick app dt k)) <= EPS /\
  applyYaw (tick app dt k) = tick app dt k.
Proof.
  pose proof (applyYaw_inputs k) as (_ & _ & _ & Hy1 & Hy1').
  assert (Hsmall : Rabs (_yawDelta (tick app dt k)) <= EPS).
  { rewrite tick_yawDelta.
    destruct (Rgt_dec (Rabs (_yawDelta k)) EPS) as [Hbig | Hnot].
    - rewrite (Hy1 Hbig), Rabs_R0; pose proof EPS_pos; lra.
    - rewrite (Hy1' Hnot); lra. }
  split; [exact Hsmall |].
  apply applyYaw_inputs; lra.
Qed.

(** C2 (amended) - Pending input after a tick.  After any [update]
    the jump flag is false.  The yaw delta is zero when it was applied
    (magnitude above EPS) and is otherwise left as it was, so its
    magnitude is at most EPS and the next tick applies no yaw for it.
    The horizontal and vertical axes are not cleared: [update] leaves
    them exactly as [setInput] last set them, and a following tick
    without a new [setInput] sees the same axes again. *)
Theorem pending_input_after_update app (dt : R) k :
  _jumpPressed (tick app dt k) = false /\
  (Rabs (_yawDelta k) > EPS -> _yawDelta (tick app dt k) = 0) /\
  (~ Rabs (_yawDelta k) > EPS -> _yawDelta (tick app dt k) = _yawDelta k) /\
  Rabs (_yawDelta (tick app dt k)) <= EPS /\
  applyYaw (tick app dt k) = tick app dt k /\
  _horizontal (tick app dt k) = _horizontal k /\
  _vertical (tick app dt k) = _vertical k.
Proof.
  pose proof (applyYaw_inputs k) as (_ & _ & _ & Hy1 & Hy1').
  pose proof (jump_inputs (followGround app (applyYaw k)))
    as (_ & _ & Hj3 & _).
  destruct (tick_yaw_settled app dt k) as [Hsmall Hidle].
  destruct (tick_axes app dt k) as [Hh Hv].
  split.
  { rewrite (tick_frame _jumpPressed)
      by (apply frame_jumpPressed || apply cframe_jumpPressed).
    exact Hj3. }
  split; [intros Hbig; rewrite tick_yawDelta; auto |].
  split; [intros Hnot; rewrite tick_yawDelta, (Hy1' Hnot); reflexivity |].
  split; [exact Hsmall |].
  split; [exact Hidle |].
  split; [exact Hh | exact Hv].
Qed.

(** ** Footing bookkeeping *)

Lemma hitAmong_mono app (a : Attributes) (casts casts' : list Cast) (g : Entity) :
  incl casts casts' -> hitAmong app a casts g -> hitAmong app a casts' g.
Proof.
  intros Hincl (c & hit & Hin & Hcast & Hent & Hwalk).
  exists c, hit; auto.
Qed.

Lemma footingFresh_mono app (a : Attributes) (casts casts' : list Cast) k :
  incl casts casts' -> footingFresh app a casts k -> footingFresh app a casts' k.
Proof.
  intros Hincl [Hg Hc]; split; [exact Hg |].
  intros g Hcand; destruct (Hc g Hcand) as [H1 H2].
  split; [exact H1 | eapply hitAmong_mono; eauto].
Qed.

(** A walkable contact that grounds the controller makes the footing
    fresh. *)
Lemma footingFresh_contact app (a : Attributes) (casts : list Cast) k
    (c : Cast) (hit : ConvexCastResult) :
  In c casts -> sphereCast app (radius a) (fst c) (snd c) = Some hit ->
  walkable a (normal hit) = true ->
  footingFresh app a casts
    (set_groundCandidate (Some (entity hit)) (set_grounded true k)).
Proof.
  intros Hin Hcast Hwalk; split; cbn.
  - intros _; eexists; reflexivity.
  - intros g Hg; injection Hg as <-; split; [reflexivity |].
    exists c, hit; auto.
Qed.

Lemma resolveHit_footing app (pre : list Cast) (v : bool) s hit :
  sphereCast app (radius (attrs (l_kcc s))) (l_pos s)
             (Vec3.add (l_pos s) (l_remaining s)) = Some hit ->
  footingFresh app (attrs (l_kcc s)) (pre ++ l_casts s) (l_kcc s) ->
  footingFresh app (attrs (l_kcc s))
    (pre ++ l_casts s ++ [roundCast s])
    (l_kcc (snd (resolveHit v s (l_casts s ++ [roundCast s]) hit))).
Proof.
  intros Hcast Hfresh.
  assert (Hold : footingFresh app (attrs (l_kcc s))
                   (pre ++ l_casts s ++ [roundCast s]) (l_kcc s)).
  { eapply footingFresh_mono; [| exact Hfresh].
    rewrite app_assoc; apply incl_appl, incl_refl. }
  assert (Hin : In (roundCast s) (pre ++ l_casts s ++ [roundCast s])).
  { rewrite !in_app_iff; right; right; left; reflexivity. }
  unfold resolveHit; destruct v.
  - destruct (Rgt_dec _ 0); [exact Hold |].
    destruct (Rlt_dec _ 0); [| exact Hold].
    destruct (walkable _ _) eqn:Hwalk; cbn [snd l_kcc].
    + destruct (footingFresh_contact app _ _ (l_kcc s) _ hit Hin Hcast Hwalk)
        as [H1 H2].
      split; [exact H1 | exact H2].
    + exact Hold.
  - destruct (walkable _ _) eqn:Hwalk; cbn [snd l_kcc].
    + apply (footingFresh_contact app _ _ (l_kcc s) _ hit Hin Hcast Hwalk).
    + destruct (recordWall _ _ _) as [[n1 |] [n2 |]]; exact Hold.
Qed.

Lemma sweepLoop_footing app (a : Attributes) (pre : list Cast) (v : bool)
    (n : nat) :
  forall s,
    attrs (l_kcc s) = a ->
    footingFresh app a (pre ++ l_casts s) (l_kcc s) ->
    footingFresh app a (pre ++ l_casts (sweepLoop app v n s))
                 (l_kcc (sweepLoop app v n s)).
Proof.
  induction n as [| n IH]; intros s Ha Hfresh; simpl; [exact Hfresh |].
  assert (Hstep :
    footingFresh app a (pre ++ l_casts (snd (sweepRound app v s)))
                 (l_kcc (snd (sweepRound app v s)))).
  { unfold sweepRound.
    destruct (Rlt_dec _ EPS); [exact Hfresh |].
    destruct (sphereCast app _ _ _) as [hit |] eqn:Hcast.
    - rewrite resolveHit_casts. subst a.
      apply resolveHit_footing; assumption.
    - cbn [snd l_casts l_kcc].
      eapply footingFresh_mono; [| exact Hfresh].
      rewrite app_assoc; apply incl_appl, incl_refl. }
  pose proof (sweepRound_frame attrs app v s frame_attrs) as Hattrs.
  destruct (sweepRound app v s) as [[|] s']; cbn [snd] in *.
  - exact Hstep.
  - apply IH; [rewrite Hattrs; exact Ha | exact Hstep].
Qed.

Lemma early_attrs app k : attrs (jump (followGround app (applyYaw k))) = attrs k.
Proof.
  destruct (jump_inputs (followGround app (applyYaw k))) as (_ & _ & _ & _ & ->).
  destruct (followGround_inputs app (applyYaw k)) as (_ & _ & _ & _ & ->).
  apply applyYaw_inputs.
Qed.

Lemma tick_attrs app (dt : R) k : attrs (tick app dt k) = attrs k.
Proof.
  rewrite (tick_frame attrs) by (apply frame_attrs || apply cframe_attrs).
  apply early_attrs.
Qed.

Lemma movePasses_attrs app (dt : R) k : attrs (t_kcc (movePasses app dt k)) = attrs k.
Proof. rewrite (movePasses_frame attrs) by apply frame_attrs. apply early_attrs. Qed.

Lemma sweep_footing app (a : Attributes) (pre : list Cast) kcc
    (pos disp : Vec3.t) (v : bool) :
  attrs kcc = a ->
  footingFresh app a pre kcc ->
  footingFresh app a (pre ++ l_casts (sweep app kcc pos disp v))
               (l_kcc (sweep app kcc pos disp v)).
Proof.
  intros Ha Hfresh; unfold sweep.
  apply sweepLoop_footing; cbn [l_kcc l_casts]; [exact Ha |].
  rewrite app_nil_r; exact Hfresh.
Qed.

(** After the two passes the footing is fresh with respect to the
    segments they swept. *)
Lemma movePasses_footing app (dt : R) k :
  footingFresh app (attrs k)
    (t_vertical (movePasses app dt k) ++ t_horizontal (movePasses app dt k))
    (t_kcc (movePasses app dt k)).
Proof.
  unfold movePasses; cbv zeta; cbn [t_kcc t_vertical t_horizontal].
  assert (Hva : attrs (l_kcc (verticalPass app dt k)) = attrs k).
  { rewrite (verticalPass_frame attrs) by apply frame_attrs; apply early_attrs. }
  assert (Hv : footingFresh app (attrs k) (l_casts (verticalPass app dt k))
                 (l_kcc (verticalPass app dt k))).
  { unfold verticalPass; cbv zeta.
    set (k2 := set_groundCandidate None (set_grounded false (beforePasses app dt k))).
    assert (Hattrs : attrs k2 = attrs k)
      by (unfold k2, beforePasses; apply early_attrs).
    assert (H0 : footingFresh app (attrs k) [] k2).
    { split; cbn; [discriminate | intros g Hg; discriminate]. }
    destruct (Rgt_dec (Rabs _) EPS); cbn [l_kcc l_casts]; [| exact H0].
    apply (sweep_footing app _ [] k2); [exact Hattrs | exact H0]. }
  set (v := verticalPass app dt k) in *.
  assert (Hh : footingFresh app (attrs k)
                 (l_casts v ++ l_casts (horizontalPass app dt k v))
                 (l_kcc (horizontalPass app dt k v))).
  { unfold horizontalPass.
    destruct (Rgt_dec (Vec3.lengthSq _) EPS); cbn [l_kcc l_casts].
    - apply sweep_footing; [exact Hva | exact Hv].
    - rewrite app_nil_r; exact Hv. }
  destruct Hh as [H1 H2]; split; [exact H1 | exact H2].
Qed.

(** The ground-snap probe keeps the footing fresh. *)
Lemma groundSnapProbe_footing app (a : Attributes) t :
  attrs (t_kcc t) = a ->
  footingFresh app a (t_vertical t ++ t_horizontal t) (t_kcc t) ->
  t_snap t = [] ->
  footingFresh app a (tickCasts (groundSnapProbe app t))
               (t_kcc (groundSnapProbe app t)).
Proof.
  intros Ha Hfresh Hnil.
  assert (Hold : forall extra,
            footingFresh app a (t_vertical t ++ t_horizontal t ++ extra) (t_kcc t)).
  { intros extra; eapply footingFresh_mono; [| exact Hfresh].
    rewrite app_assoc; apply incl_appl, incl_refl. }
  unfold groundSnapProbe, tickCasts.
  destruct (snapAttempted _); [| apply Hold].
  destruct (sphereCast app _ _ _) as [snapHit |] eqn:Hcast;
    cbn [t_kcc t_vertical t_horizontal t_snap]; [| apply Hold].
  destruct (walkable _ _) eqn:Hwalk; cbn [t_kcc t_vertical t_horizontal t_snap];
    [| apply Hold].
  subst a.
  eapply footingFresh_contact with (c := (t_pos t, snapTarget (t_kcc t) (t_pos t))).
  - rewrite Hnil; cbn [List.app]; rewrite !in_app_iff; cbn [In]; tauto.
  - exact Hcast.
  - exact Hwalk.
Qed.

Lemma tick_footing app (dt : R) k :
  footingFresh app (attrs k)
    (tickCasts (groundSnapProbe app (movePasses app dt k)))
    (t_kcc (groundSnapProbe app (movePasses app dt k))).
Proof.
  apply groundSnapProbe_footing.
  - apply movePasses_attrs.
  - apply movePasses_footing.
  - reflexivity.
Qed.

(** A tick in a world that reports no walkable surface ends not
    grounded. *)
Lemma tick_not_grounded app (dt : R) k :
  (forall r a b hit,
     sphereCast app r a b = Some hit -> walkable (attrs k) (normal hit) = false) ->
  _grounded (t_kcc (groundSnapProbe app (movePasses app dt k))) = false.
Proof.
  intros Hsteep.
  destruct (tick_footing app dt k) as [Hg Hc].
  destruct (_grounded _) eqn:Hgr; [| reflexivity].
  destruct (Hg eq_refl) as [g Hcand].
  destruct (Hc g Hcand) as [_ (c & hit & _ & Hcast & _ & Hwalk)].
  rewrite (Hsteep _ _ _ _ Hcast) in Hwalk; discriminate.
Qed.

Lemma rememberGround_fields app k :
  _grounded (rememberGround app k) = _grounded k /\
  _wasGrounded (rememberGround app k) = _grounded k /\
  _groundEntity (rememberGround app k) =
    (if _grounded k then _groundCandidate k else None) /\
  (forall g, _grounded k = true -> _groundCandidate k = Some g ->
     _groundPrevPos (rememberGround app k) = getPosition app g /\
     _groundPrevRot (rememberGround app k) = getRotation app g).
Proof.
  unfold rememberGround.
  destruct (_grounded k) eqn:Hg.
  - cbn [_groundEntity set_groundEntity].
    destruct (_groundCandidate k) as [g0 |] eqn:Hc; cbn; rewrite ?Hg, ?Hc;
      (split; [reflexivity | split; [reflexivity | split; [reflexivity |]]]).
    + intros g _ Hsome; injection Hsome as <-; split; reflexivity.
    + intros g _ Hsome; discriminate.
  - cbn; rewrite Hg.
    split; [reflexivity | split; [reflexivity | split; [reflexivity |]]].
    intros g Hfalse; discriminate.
Qed.

(** What steps 9 to 12 leave in the footing fields. *)
Lemma commit_footing app t :
  _grounded (t_kcc (commit app t)) = _grounded (t_kcc t) /\
  _wasGrounded (t_kcc (commit app t)) = _grounded (t_kcc t) /\
  _groundEntity (t_kcc (commit app t)) =
    (if _grounded (t_kcc t) then _groundCandidate (t_kcc t) else None) /\
  (forall g, _grounded (t_kcc t) = true -> _groundCandidate (t_kcc t) = Some g ->
     _groundPrevPos (t_kcc (commit app t)) = getPosition app g /\
     _groundPrevRot (t_kcc (commit app t)) = getRotation app g) /\
  tickCasts (commit app t) = tickCasts t.
Proof.
  unfold commit; cbn [t_kcc].
  set (k1 := if _ && _ then _ else _).
  assert (Hg : _grounded k1 = _grounded (t_kcc t))
    by (unfold k1; destruct (_ && _); reflexivity).
  assert (Hc : _groundCandidate k1 = _groundCandidate (t_kcc t))
    by (unfold k1; destruct (_ && _); reflexivity).
  destruct (rememberGround_fields app k1) as (H1 & H2 & H3 & H4).
  rewrite Hg, ?Hc in *.
  split; [exact H1 | split; [exact H2 | split; [exact H3 | split]]].
  - exact H4.
  - reflexivity.
Qed.

(** C10 - Ground memory is fresh.  After every [update] the
    previous-grounded flag equals the grounded flag.  An [update] that
    ends not grounded leaves the remembered ground entity null and the
    previous-grounded flag false, so the platform follow of the next
    tick does nothing.  Whenever a ground entity is remembered, the
    tick ended grounded, the entity is one the world reported as a
    walkable hit of a segment swept during this very tick, and the
    remembered pose
    is that entity's pose in this tick's world: a reference from an
    older tick never survives. *)
Theorem ground_memory_is_fresh app (dt : R) k :
  _wasGrounded (tick app dt k) = _grounded (tick app dt k) /\
  (_grounded (tick app dt k) = false ->
     _groundEntity (tick app dt k) = None /\
     _wasGrounded (tick app dt k) = false /\
     forall app',
       followGround app' (applyYaw (tick app dt k)) = tick app dt k) /\
  (forall g, _groundEntity (tick app dt k) = Some g ->
     _grounded (tick app dt k) = true /\
     hitAmong app (attrs k) (tickCasts (update app dt k)) g /\
     _groundPrevPos (tick app dt k) = getPosition app g /\
     _groundPrevRot (tick app dt k) = getRotation app g).
Proof.
  unfold tick, update.
  set (t := groundSnapProbe app (movePasses app dt k)).
  destruct (commit_footing app t) as (Hg & Hw & He & Hp & Hc).
  pose proof (tick_footing app dt k) as [Hf1 Hf2]; fold t in Hf1, Hf2.
  split; [congruence |]; split.
  - intros Hfalse; rewrite Hg in Hfalse.
    rewrite He, Hw, Hfalse.
    split; [reflexivity | split; [reflexivity |]].
    intros app'.
    destruct (tick_yaw_settled app dt k) as [_ Hyaw].
    unfold tick, update in Hyaw; fold t in Hyaw; rewrite Hyaw.
    unfold followGround; rewrite Hw, Hfalse; reflexivity.
  - intros g Hsome; rewrite He in Hsome.
    destruct (_grounded (t_kcc t)) eqn:Hgr; [| discriminate].
    destruct (Hf2 g Hsome) as [_ Hhit].
    destruct (Hp g eq_refl Hsome) as [Hpos Hrot].
    rewrite Hg, Hc; auto.
Qed.

(** ** Ground snap *)

Lemma snapAttempted_iff k :
  snapAttempted k = true <->
  (_grounded k = false /\ _velY k < 0 /\ groundSnap (attrs k) > 0).
Proof.
  unfold snapAttempted.
  destruct (_grounded k); destruct (Rlt_dec _ 0); destruct (Rgt_dec _ 0);
    cbn; split; intros H; try discriminate; try tauto;
    destruct H as (H1 & H2 & H3); try discriminate; contradiction.
Qed.

(** The probe's segment runs straight down by [groundSnap]. *)
Lemma snapTarget_down k (pos : Vec3.t) :
  snapTarget k pos =
  Vec3.mk (Vec3.x pos) (Vec3.y pos - groundSnap (attrs k)) (Vec3.z pos).
Proof.
  unfold snapTarget, Vec3.add, Vec3.mulScalar, Vec3.UP.
  cbn [Vec3.x Vec3.y Vec3.z]; f_equal; ring.
Qed.

(** The probe either sweeps its one segment or leaves the tick alone. *)
Lemma groundSnapProbe_cases app t :
  (snapAttempted (t_kcc t) = true /\
   t_snap (groundSnapProbe app t) =
     t_snap t ++ [(t_pos t, snapTarget (t_kcc t) (t_pos t))]) \/
  (snapAttempted (t_kcc t) = false /\ groundSnapProbe app t = t).
Proof.
  unfold groundSnapProbe.
  destruct (snapAttempted (t_kcc t)); [left | right; auto].
  split; [reflexivity |].
  destruct (sphereCast _ _ _ _); [destruct (walkable _ _) |]; reflexivity.
Qed.

(** The probe on a walkable hit. *)
Lemma groundSnapProbe_hit app t (snapHit : ConvexCastResult) :
  snapAttempted (t_kcc t) = true ->
  sphereCast app (radius (attrs (t_kcc t))) (t_pos t)
             (snapTarget (t_kcc t) (t_pos t)) = Some snapHit ->
  walkable (attrs (t_kcc t)) (normal snapHit) = true ->
  groundSnapProbe app t =
  mkTick (set_groundCandidate (Some (entity snapHit))
            (set_grounded true (t_kcc t)))
         (Vec3.setY (t_pos t) (Vec3.y (t_pos t) - snapDrop (t_kcc t) snapHit))
         (t_vertical t) (t_horizontal t)
         (t_snap t ++ [(t_pos t, snapTarget (t_kcc t) (t_pos t))]).
Proof.
  intros Ha Hcast Hwalk; unfold groundSnapProbe.
  rewrite Ha, Hcast, Hwalk; reflexivity.
Qed.

(** C7 - Ground snap.  The probe of [update] sweeps a segment exactly
    when the two passes left the controller not grounded with negative
    vertical velocity and [groundSnap] is positive; that segment runs
    from the resolved position straight down by [groundSnap].  When the
    controller is already grounded the probe step changes nothing.
    When the probe's sweep hits a walkable surface, the resolved
    position keeps its x and z, its y is lowered by
    clamp(hitFraction * groundSnap, 0, groundSnap), and the tick ends
    grounded with the hit entity as ground. *)
Theorem ground_snap_contract app (dt : R) k :
  let p := movePasses app dt k in
  let kp := t_kcc p in
  (t_snap (update app dt k) <> [] <->
     (_grounded kp = false /\ _velY kp < 0 /\ groundSnap (attrs kp) > 0)) /\
  (t_snap (update app dt k) <> [] ->
     t_snap (update app dt k) =
       [(t_pos p, Vec3.mk (Vec3.x (t_pos p))
                          (Vec3.y (t_pos p) - groundSnap (attrs kp))
                          (Vec3.z (t_pos p)))]) /\
  (_grounded kp = true -> groundSnapProbe app p = p) /\
  (forall snapHit,
     t_snap (update app dt k) <> [] ->
     sphereCast app (radius (attrs kp)) (t_pos p) (snapTarget kp (t_pos p))
       = Some snapHit ->
     walkable (attrs kp) (normal snapHit) = true ->
     t_pos (groundSnapProbe app p) =
       Vec3.mk (Vec3.x (t_pos p))
               (Vec3.y (t_pos p)
                - clamp (hitFraction snapHit * groundSnap (attrs kp)) 0
                        (groundSnap (attrs kp)))
               (Vec3.z (t_pos p)) /\
     _grounded (t_kcc (groundSnapProbe app p)) = true /\
     _grounded (tick app dt k) = true /\
     _groundEntity (tick app dt k) = Some (entity snapHit)).
Proof.
  intros p kp.
  assert (Hp0 : t_snap p = []) by reflexivity.
  change (t_snap (update app dt k)) with (t_snap (groundSnapProbe app p)).
  change (tick app dt k) with (t_kcc (commit app (groundSnapProbe app p))).
  subst kp; clearbody p.
  destruct (groundSnapProbe_cases app p) as [[Ha Hs] | [Ha Hs]].
  - rewrite Hs, Hp0, snapTarget_down; cbn [List.app].
    split; [| split; [| split]].
    + rewrite <- snapAttempted_iff, Ha; split; [reflexivity | discriminate].
    + reflexivity.
    + intros Hgr; apply snapAttempted_iff in Ha; destruct Ha as [Ha _].
      congruence.
    + intros snapHit _ Hcast Hwalk.
      rewrite <- snapTarget_down in Hcast.
      destruct (commit_footing app (groundSnapProbe app p))
        as (Hg & _ & He & _).
      rewrite Hg, He, (groundSnapProbe_hit app p snapHit Ha Hcast Hwalk).
      cbn [t_pos t_kcc _grounded _groundCandidate set_groundCandidate
           set_grounded].
      split; [reflexivity | split; [reflexivity | split; reflexivity]].
  - rewrite Hs, Hp0.
    split; [| split; [| split]].
    + rewrite <- snapAttempted_iff, Ha.
      split; [intros H; contradiction | discriminate].
    + intros H; contradiction.
    + reflexivity.
    + intros snapHit H; contradiction.
Qed.

(** ** Platform follow *)

Lemma applyYaw_platform k :
  entityPosition (applyYaw k) = entityPosition k /\
  _wasGrounded (applyYaw k) = _wasGrounded k /\
  _groundEntity (applyYaw k) = _groundEntity k /\
  _groundPrevPos (applyYaw k) = _groundPrevPos k /\
  _groundPrevRot (applyYaw k) = _groundPrevRot k /\
  _steepNormal (applyYaw k) = _steepNormal k.
Proof. unfold applyYaw; destruct (Rgt_dec _ EPS); repeat split. Qed.

(** C5 - Platform yaw-only transfer.  For a rider that ended the
    previous tick grounded on entity g, the platform follow of [update]
    (step 2, after the rider's own yaw input) moves the rider to
    platformCurrentPosition + yawOnly(deltaRotation) applied to
    (riderPosition - platformPreviousPosition), and turns the rider's
    orientation by the same yawOnly(deltaRotation), where deltaRotation
    is the platform's current rotation times the inverse of the
    snapshot and yawOnly keeps only the y Euler angle of it.  The other
    Euler angles of the delta do not enter: any other platform rotation
    whose delta has the same y Euler angle gives the very same
    controller. *)
Theorem platform_follow_yaw_only app k (g : Entity) :
  _wasGrounded k = true ->
  _groundEntity k = Some g ->
  let delta := qmul (getRotation app g) (qinvert (_groundPrevRot k)) in
  let k1 := followGround app (applyYaw k) in
  entityPosition k1 =
    Vec3.add (getPosition app g)
      (transformVector (yawOnly delta)
         (Vec3.sub (entityPosition k) (_groundPrevPos k))) /\
  entityRotation k1 = qmul (yawOnly delta) (entityRotation (applyYaw k)) /\
  yawOnly delta = setFromEulerAngles 0 (Vec3.y (getEulerAngles delta)) 0 /\
  (forall app2,
     getPosition app2 g = getPosition app g ->
     Vec3.y (getEulerAngles
               (qmul (getRotation app2 g) (qinvert (_groundPrevRot k))))
       = Vec3.y (getEulerAngles delta) ->
     followGround app2 (applyYaw k) = k1).
Proof.
  intros Hw He delta k1.
  destruct (applyYaw_platform k) as (Hp & Hw' & He' & Hpp & Hpr & _).
  assert (Hk1 : k1 =
    setPosition
      (Vec3.add (getPosition app g)
         (transformVector (yawOnly delta)
            (Vec3.sub (entityPosition k) (_groundPrevPos k))))
      (setRotation (qmul (yawOnly delta) (entityRotation (applyYaw k)))
         (applyYaw k))).
  { unfold k1, followGround; rewrite Hw', Hw, He', He, Hp, Hpp, Hpr.
    reflexivity. }
  split; [rewrite Hk1; reflexivity |].
  split; [rewrite Hk1; reflexivity |].
  split; [reflexivity |].
  intros app2 Hpos Hyaw.
  rewrite Hk1; unfold followGround.
  rewrite Hw', Hw, He', He, Hp, Hpp, Hpr, Hpos.
  unfold yawOnly; rewrite Hyaw; reflexivity.
Qed.

(** The older copy of the platform follow applies the whole rotation
    delta to the offset and does not turn the rider. *)
Lemma legacy_follow_full_delta app k (g : Entity) :
  _wasGrounded k = true ->
  _groundEntity k = Some g ->
  entityPosition (followGroundLegacy app k) =
    Vec3.add (getPosition app g)
      (transformVector (qmul (getRotation app g) (qinvert (_groundPrevRot k)))
         (Vec3.sub (entityPosition k) (_groundPrevPos k))) /\
  entityRotation (followGroundLegacy app k) = entityRotation k.
Proof.
  intros Hw He; unfold followGroundLegacy; rewrite Hw, He; split; reflexivity.
Qed.

(** ** The steep-slope normal *)

(** A downward contact of the vertical pass on a non-walkable surface
    stores the contact normal in the controller. *)
Lemma steep_contact_recorded app s (hit : ConvexCastResult) :
  ~ Vec3.lengthSq (l_remaining s) < EPS ->
  roundHit app s = Some hit ->
  Vec3.y (l_remaining s) < 0 ->
  walkable (attrs (l_kcc s)) (normal hit) = false ->
  _steepNormal (l_kcc (snd (sweepRound app true s))) = Some (normal hit).
Proof.
  intros Hrem Hhit Hdown Hsteep.
  rewrite (sweepRound_hit app true s hit Hrem Hhit).
  unfold resolveHit.
  destruct (Rgt_dec _ 0); [lra |].
  destruct (Rlt_dec _ 0); [| contradiction].
  rewrite Hsteep; reflexivity.
Qed.

(** The two passes are followed by the clearing of the flag. *)
Lemma movePasses_steepNormal app (dt : R) k :
  _steepNormal (t_kcc (movePasses app dt k)) = None.
Proof. reflexivity. Qed.

Lemma tick_steepNormal app (dt : R) k : _steepNormal (tick app dt k) = None.
Proof.
  unfold tick, update.
  assert (Hc : forall t, _steepNormal (t_kcc (commit app t)) = _steepNormal (t_kcc t)).
  { intros t; apply (commit_frame _steepNormal); repeat split. }
  assert (Hs : forall t, _steepNormal (t_kcc (groundSnapProbe app t))
                         = _steepNormal (t_kcc t)).
  { intros t; unfold groundSnapProbe.
    destruct (snapAttempted _); [| reflexivity].
    destruct (sphereCast _ _ _ _); [destruct (walkable _ _) |]; reflexivity. }
  rewrite Hc, Hs; apply movePasses_steepNormal.
Qed.

Lemma early_steepNormal app k :
  _steepNormal (jump (followGround app (applyYaw k))) = _steepNormal k.
Proof.
  destruct (applyYaw_platform k) as (_ & _ & _ & _ & _ & Hs).
  rewrite <- Hs.
  unfold jump, followGround.
  destruct (_wasGrounded (applyYaw k)); [destruct (_groundEntity (applyYaw k)) |];
    destruct (_ && _); reflexivity.
Qed.

(** With no steep normal stored, step 6 of [update] leaves the input
    displacement as it is. *)
Lemma desiredHoriz_unclamped app (dt : R) k :
  _steepNormal k = None ->
  desiredHoriz app dt k =
  inputDisplacement dt (jump (followGround app (applyYaw k))).
Proof.
  intros Hnone; unfold desiredHoriz.
  rewrite early_steepNormal, Hnone; reflexivity.
Qed.

(** Whatever happened in a tick, and whatever the next input is, the
    next tick hands the raw input displacement to its horizontal pass:
    step 6 of [update] never finds a steep normal. *)
Lemma uphill_clamp_never_applies app (dt : R) k app' (dt' h v yaw : R)
    (j : bool) :
  desiredHoriz app' dt' (setInput h v j yaw (tick app dt k)) =
  inputDisplacement dt'
    (jump (followGround app' (applyYaw (setInput h v j yaw (tick app dt k))))).
Proof.
  pose proof (tick_steepNormal app dt k) as Hnone.
  generalize dependent (tick app dt k); intros kN Hnone.
  apply desiredHoriz_unclamped; exact Hnone.
Qed.

(** The horizontal pass of [update] is run on [desiredHoriz]. *)
Lemma movePasses_horizontal app (dt : R) k :
  t_horizontal (movePasses app dt k) <> [] ->
  t_horizontal (movePasses app dt k)
    = l_casts (sweep app (l_kcc (verticalPass app dt k))
                     (l_pos (verticalPass app dt k))
                     (desiredHoriz app dt k) false).
Proof.
  unfold movePasses, horizontalPass; cbv zeta; cbn [t_horizontal].
  destruct (Rgt_dec (Vec3.lengthSq _) EPS); cbn [l_casts].
  - intros _; reflexivity.
  - intros H; contradiction.
Qed.

(** The vertical pass of [update] is [verticalPass]. *)
Lemma movePasses_vertical app (dt : R) k :
  t_vertical (movePasses app dt k) = l_casts (verticalPass app dt k).
Proof. reflexivity. Qed.

(** Where every hit has the same normal, a stored steep normal stays
    for the rest of the pass. *)
Lemma sweepLoop_steepNormal_kept app (v : bool) (n : nat) (nrm : Vec3.t) :
  (forall r a b hit, sphereCast app r a b = Some hit -> normal hit = nrm) ->
  forall s,
    _steepNormal (l_kcc s) = Some nrm ->
    _steepNormal (l_kcc (sweepLoop app v n s)) = Some nrm.
Proof.
  intros Hsame; induction n as [| n IH]; intros s Hs; simpl; [exact Hs |].
  assert (Hstep : _steepNormal (l_kcc (snd (sweepRound app v s))) = Some nrm).
  { unfold sweepRound.
    destruct (Rlt_dec _ EPS); [exact Hs |].
    destruct (sphereCast app _ _ _) as [hit |] eqn:Hcast; [| exact Hs].
    pose proof (Hsame _ _ _ _ Hcast) as Hn.
    unfold resolveHit; destruct v.
    - destruct (Rgt_dec _ 0); [exact Hs |].
      destruct (Rlt_dec _ 0); [| exact Hs].
      destruct (walkable _ _); cbn; [exact Hs | rewrite Hn; reflexivity].
    - destruct (walkable _ _); [exact Hs |].
      destruct (recordWall _ _ _) as [[n1 |] [n2 |]]; exact Hs. }
  destruct (sweepRound app v s) as [[|] s']; cbn [snd] in Hstep.
  - exact Hstep.
  - apply IH; exact Hstep.
Qed.

(** A vertical pass that starts by meeting a steep surface while moving
    down ends with that surface's normal stored, where every hit has
    that same normal. *)
Lemma sweepLoop_steep_first app (n : nat) s (hit : ConvexCastResult) :
  ~ Vec3.lengthSq (l_remaining s) < EPS ->
  roundHit app s = Some hit ->
  Vec3.y (l_remaining s) < 0 ->
  walkable (attrs (l_kcc s)) (normal hit) = false ->
  (forall r a b h, sphereCast app r a b = Some h -> normal h = normal hit) ->
  _steepNormal (l_kcc (sweepLoop app true (S n) s)) = Some (normal hit).
Proof.
  intros Hrem Hhit Hdown Hsteep Hsame.
  pose proof (steep_contact_recorded app s hit Hrem Hhit Hdown Hsteep) as Hrec.
  cbn [sweepLoop].
  destruct (sweepRound app true s) as [[|] s']; cbn [snd] in Hrec.
  - exact Hrec.
  - apply sweepLoop_steepNormal_kept; assumption.
Qed.

End TickProperties.

Section WallProperties.

Context {Quat : Type} {E : Engine Quat}.

Implicit Types (app : @World Quat) (k kcc : @KCC Quat) (s : @SweepLoop Quat).

(** ** Walls in the horizontal pass *)

(** A flattened normal that was renormalised has unit length. *)
Lemma flatten_unit (n : Vec3.t) :
  Vec3.lengthSq (Vec3.mk (Vec3.x n) 0 (Vec3.z n)) > EPS ->
  Vec3.lengthSq (flatten n) = 1.
Proof.
  intros Hbig; unfold flatten.
  destruct (Rgt_dec _ EPS) as [_ | Hno]; [| contradiction].
  pose proof EPS_pos as Heps.
  set (w := Vec3.mk (Vec3.x n) 0 (Vec3.z n)) in *.
  assert (Hpos : 0 < Vec3.lengthSq w) by lra.
  unfold Vec3.normalize.
  destruct (Rgt_dec (Vec3.lengthSq w) 0) as [_ | Hno]; [| lra].
  assert (Hs : sqrt (Vec3.lengthSq w) * sqrt (Vec3.lengthSq w) = Vec3.lengthSq w)
    by (apply sqrt_sqrt; lra).
  assert (Hs0 : sqrt (Vec3.lengthSq w) <> 0).
  { intros H0; rewrite H0 in Hs; lra. }
  unfold Vec3.lengthSq at 1; unfold Vec3.mulScalar; cbn [Vec3.x Vec3.y Vec3.z].
  set (q := sqrt (Vec3.lengthSq w)) in *.
  replace (Vec3.x w * (1 / q) * (Vec3.x w * (1 / q)) +
           Vec3.y w * (1 / q) * (Vec3.y w * (1 / q)) +
           Vec3.z w * (1 / q) * (Vec3.z w * (1 / q)))
    with (Vec3.lengthSq w / (q * q))
    by (unfold Vec3.lengthSq; field; exact Hs0).
  rewrite Hs; field; lra.
Qed.

(** The first wall contact of a horizontal pass records its flattened
    normal as the locked normal and slides along it. *)
Lemma resolveHit_first_wall s (casts : list Cast) (hit : ConvexCastResult) :
  walkable (attrs (l_kcc s)) (normal hit) = false ->
  l_wallN1 s = None ->
  l_wallN2 s = None ->
  resolveHit false s casts hit =
  (Continue,
   mkLoop (l_kcc s)
          (stepToImpact (attrs (l_kcc s)) (l_pos s) (l_remaining s) hit)
          (wallRemainder (attrs (l_kcc s)) (l_remaining s)
                         (flatten (normal hit)) hit)
          (Some (flatten (normal hit))) None casts).
Proof.
  intros Hwall H1 H2; unfold resolveHit, recordWall.
  rewrite Hwall, H1, H2; reflexivity.
Qed.

(** Once recorded, the first wall normal stays for the rest of the pass. *)
Lemma wallN1_stable app (v : bool) s (n1 : Vec3.t) :
  l_wallN1 s = Some n1 -> l_wallN1 (snd (sweepRound app v s)) = Some n1.
Proof.
  intros H1; unfold sweepRound.
  destruct (Rlt_dec _ EPS); [exact H1 |].
  destruct (sphereCast _ _ _ _); [| exact H1].
  unfold resolveHit; destruct v.
  - destruct (Rgt_dec _ 0); [exact H1 |].
    destruct (Rlt_dec _ 0); [destruct (walkable _ _) |]; exact H1.
  - destruct (walkable _ _); [exact H1 |].
    unfold recordWall; rewrite H1.
    destruct (Rlt_dec _ (99 / 100)); [reflexivity |].
    destruct (l_wallN2 s); reflexivity.
Qed.

(** A pass whose first sweep meets a wall and whose second sweep is
    free: the position returned. *)
Lemma sweep_wall_then_free app kcc (pos disp : Vec3.t) (hit : ConvexCastResult) :
  (2 <= maxIterations (attrs kcc))%nat ->
  ~ Vec3.lengthSq disp < EPS ->
  sphereCast app (radius (attrs kcc)) pos (Vec3.add pos disp) = Some hit ->
  walkable (attrs kcc) (normal hit) = false ->
  ~ Vec3.lengthSq (wallRemainder (attrs kcc) disp (flatten (normal hit)) hit)
      < EPS ->
  sphereCast app (radius (attrs kcc))
    (stepToImpact (attrs kcc) pos disp hit)
    (Vec3.add (stepToImpact (attrs kcc) pos disp hit)
       (wallRemainder (attrs kcc) disp (flatten (normal hit)) hit)) = None ->
  l_pos (sweep app kcc pos disp false) =
    Vec3.add (stepToImpact (attrs kcc) pos disp hit)
      (wallRemainder (attrs kcc) disp (flatten (normal hit)) hit) /\
  length (l_casts (sweep app kcc pos disp false)) = 2%nat.
Proof.
  intros Hmax Hrem Hcast Hwall Hrem1 Hfree.
  unfold sweep.
  destruct (maxIterations (attrs kcc)) as [| [| m]]; [lia | lia |].
  cbn [sweepLoop].
  rewrite (sweepRound_hit app false _ hit) by assumption.
  rewrite resolveHit_first_wall by (reflexivity || assumption).
  cbn [l_kcc l_pos l_remaining l_casts].
  rewrite sweepRound_nohit by assumption.
  split; reflexivity.
Qed.

(** C3 (amended) - Single-wall slide.  In a horizontal pass whose
    first sweep meets a wall with flattened normal n (not degenerate)
    and whose next sweep is free, the position returned is the
    step-to-impact position plus the post-contact remainder.  That
    remainder is the projection of the post-contact fraction of the
    displacement on the wall plane plus the skin push-out: the
    projection has zero component along n, the remainder has component
    skin * (n . n) along n (the skin itself once n was renormalised),
    and along every tangent t (t . n = 0) it has (1 - hitFraction)
    times the tangential part of the displacement, which is nonzero
    when the displacement has a tangential part and hitFraction is not
    1.  The advance up to the contact is part of the resolved
    displacement and is not removed. *)
Theorem single_wall_slide app kcc (pos disp : Vec3.t) (hit : ConvexCastResult)
    (t : Vec3.t) :
  (2 <= maxIterations (attrs kcc))%nat ->
  ~ Vec3.lengthSq disp < EPS ->
  sphereCast app (radius (attrs kcc)) pos (Vec3.add pos disp) = Some hit ->
  walkable (attrs kcc) (normal hit) = false ->
  let n := flatten (normal hit) in
  let p1 := stepToImpact (attrs kcc) pos disp hit in
  let r1 := wallRemainder (attrs kcc) disp n hit in
  ~ Vec3.lengthSq n < EPS ->
  ~ Vec3.lengthSq r1 < EPS ->
  sphereCast app (radius (attrs kcc)) p1 (Vec3.add p1 r1) = None ->
  l_pos (sweep app kcc pos disp false) = Vec3.add p1 r1 /\
  Vec3.dot (projectOnPlane (Vec3.mulScalar disp (1 - hitFraction hit)) n) n = 0 /\
  Vec3.dot r1 n = skin (attrs kcc) * Vec3.lengthSq n /\
  (Vec3.lengthSq (Vec3.mk (Vec3.x (normal hit)) 0 (Vec3.z (normal hit))) > EPS ->
   Vec3.dot r1 n = skin (attrs kcc)) /\
  (Vec3.dot t n = 0 ->
   Vec3.dot r1 t = (1 - hitFraction hit) * Vec3.dot disp t) /\
  (Vec3.dot t n = 0 -> Vec3.dot disp t <> 0 -> hitFraction hit <> 1 ->
   Vec3.dot r1 t <> 0).
Proof.
  intros Hmax Hrem Hcast Hwall n p1 r1 Hn Hr1 Hfree.
  assert (Hproj : Vec3.dot (projectOnPlane
                    (Vec3.mulScalar disp (1 - hitFraction hit)) n) n = 0)
    by (apply projectOnPlane_normal; exact Hn).
  assert (Hdotn : Vec3.dot r1 n = skin (attrs kcc) * Vec3.lengthSq n).
  { unfold r1, wallRemainder.
    set (q := projectOnPlane _ _) in *.
    transitivity (Vec3.dot q n + skin (attrs kcc) * Vec3.lengthSq n).
    - unfold Vec3.dot, Vec3.add, Vec3.mulScalar, Vec3.lengthSq; simpl; ring.
    - rewrite Hproj; ring. }
  assert (Htan : Vec3.dot t n = 0 ->
                 Vec3.dot r1 t = (1 - hitFraction hit) * Vec3.dot disp t).
  { intros Ht; unfold r1, wallRemainder.
    pose proof (projectOnPlane_tangent
                  (Vec3.mulScalar disp (1 - hitFraction hit)) n t Ht) as Hp.
    set (q := projectOnPlane _ _) in *.
    transitivity (Vec3.dot q t + skin (attrs kcc) * Vec3.dot t n).
    - unfold Vec3.dot, Vec3.add, Vec3.mulScalar; simpl; ring.
    - rewrite Hp, Ht.
      unfold Vec3.dot, Vec3.mulScalar; simpl; ring. }
  split; [apply (sweep_wall_then_free app kcc pos disp hit); assumption |].
  split; [exact Hproj |].
  split; [exact Hdotn |].
  split; [intros Hbig; rewrite Hdotn; unfold n; rewrite flatten_unit by exact Hbig; ring |].
  split; [exact Htan |].
  intros Ht Hd Hf; rewrite (Htan Ht).
  apply Rmult_integral_contrapositive_currified; [lra | exact Hd].
Qed.

(** A later wall contact whose flattened normal is near-parallel to
    the recorded one keeps sliding along the recorded normal. *)
Lemma wall_round_locked app s (hit : ConvexCastResult) (n1 : Vec3.t) :
  l_wallN1 s = Some n1 ->
  l_wallN2 s = None ->
  ~ Vec3.lengthSq (l_remaining s) < EPS ->
  roundHit app s = Some hit ->
  walkable (attrs (l_kcc s)) (normal hit) = false ->
  ~ Vec3.dot (flatten (normal hit)) n1 < 99 / 100 ->
  sweepRound app false s =
  (Continue,
   mkLoop (l_kcc s)
          (stepToImpact (attrs (l_kcc s)) (l_pos s) (l_remaining s) hit)
          (wallRemainder (attrs (l_kcc s)) (l_remaining s) n1 hit)
          (Some n1) None (l_casts s ++ [roundCast s])).
Proof.
  intros H1 H2 Hrem Hhit Hwall Hpar.
  rewrite (sweepRound_hit app false s hit Hrem Hhit).
  unfold resolveHit, recordWall.
  rewrite Hwall, H1, H2.
  destruct (Rlt_dec _ (99 / 100)) as [Hlt | _]; [contradiction |].
  reflexivity.
Qed.

(** ** Corner lock *)

(** C4 (amended) - Corner lock.  In a horizontal pass in which a first
    wall normal n1 is recorded, a wall hit whose flattened normal has
    dot product below 0.99 with n1 sets the remaining displacement to
    exactly zero, and the pass ends there: whatever the remainder was
    and however many rounds are left, the position returned is the
    step-to-impact position of that round and no further segment is
    swept.  The comparison is with the first recorded normal only. *)
Theorem corner_lock app (n : nat) s (hit : ConvexCastResult) (n1 : Vec3.t) :
  l_wallN1 s = Some n1 ->
  ~ Vec3.lengthSq (l_remaining s) < EPS ->
  roundHit app s = Some hit ->
  walkable (attrs (l_kcc s)) (normal hit) = false ->
  Vec3.dot (flatten (normal hit)) n1 < 99 / 100 ->
  l_remaining (sweepLoop app false (S n) s) = Vec3.ZERO /\
  l_pos (sweepLoop app false (S n) s) =
    stepToImpact (attrs (l_kcc s)) (l_pos s) (l_remaining s) hit /\
  l_casts (sweepLoop app false (S n) s) = l_casts s ++ [roundCast s] /\
  l_wallN2 (sweepLoop app false (S n) s) = Some (flatten (normal hit)).
Proof.
  intros H1 Hrem Hhit Hwall Hdot.
  cbn [sweepLoop].
  rewrite (sweepRound_hit app false s hit Hrem Hhit).
  unfold resolveHit, recordWall.
  rewrite Hwall, H1.
  destruct (Rlt_dec _ (99 / 100)) as [_ | Hno]; [| contradiction].
  destruct n as [| n]; cbn [sweepLoop]; [repeat split |].
  rewrite sweepRound_converged
    by (cbn [l_remaining]; rewrite lengthSq_ZERO; apply EPS_pos).
  repeat split.
Qed.

End WallProperties.

(* ================================================================== *)
(** * Concrete runs *)

(** ** Evaluating the helpers on given numbers *)

Lemma length_exact (v : Vec3.t) (L : R) :
  0 <= L -> Vec3.lengthSq v = L * L -> Vec3.length v = L.
Proof.
  intros HL Hsq; unfold Vec3.length; rewrite Hsq.
  apply sqrt_square; exact HL.
Qed.

Lemma normalize_exact (v : Vec3.t) (L : R) :
  0 < L -> Vec3.lengthSq v = L * L ->
  Vec3.normalize v = Vec3.mulScalar v (1 / L).
Proof.
  intros HL Hsq; unfold Vec3.normalize.
  destruct (Rgt_dec (Vec3.lengthSq v) 0) as [_ | Hno].
  - rewrite Hsq, sqrt_square by lra; reflexivity.
  - exfalso; apply Hno; rewrite Hsq; nra.
Qed.

Lemma stepDist_exact (a : Attributes) (rem : Vec3.t) (hit : ConvexCastResult)
    (L : R) :
  0 < L -> Vec3.lengthSq rem = L * L ->
  0 <= hitFraction hit <= 1 ->
  skin a <= hitFraction hit * L ->
  stepDist a rem hit = hitFraction hit * L - skin a.
Proof.
  intros HL Hsq [Hf0 Hf1] Hskin; unfold stepDist.
  rewrite (length_exact rem L) by (lra || assumption).
  rewrite clamp_id by nra.
  unfold Rmax; destruct (Rle_dec _ 0); lra.
Qed.

(** The step to impact along a displacement of known length. *)
Lemma stepToImpact_exact (a : Attributes) (pos rem : Vec3.t)
    (hit : ConvexCastResult) (L : R) :
  0 < L -> Vec3.lengthSq rem = L * L ->
  0 <= hitFraction hit <= 1 ->
  hitFraction hit * L - skin a > EPS ->
  stepToImpact a pos rem hit =
  Vec3.add pos (Vec3.mulScalar rem ((hitFraction hit * L - skin a) / L)).
Proof.
  intros HL Hsq Hf Hbig; unfold stepToImpact.
  pose proof EPS_pos as Heps.
  rewrite (stepDist_exact a rem hit L) by (assumption || lra).
  destruct (Rgt_dec _ EPS) as [_ | Hno]; [| contradiction].
  rewrite (normalize_exact rem L) by assumption.
  f_equal; apply vec3_eq; unfold Vec3.mulScalar; cbn; field; lra.
Qed.

(** A contact normal with no vertical part is a wall for every slope
    limit up to 90 degrees. *)
Lemma walkable_wall (a : Attributes) (n : Vec3.t) :
  Vec3.y n = 0 -> slopeLimitDeg a <= 90 -> walkable a n = false.
Proof.
  intros Hy Hlim; unfold walkable.
  destruct (Rlt_dec (slopeDeg n) (slopeLimitDeg a)) as [Hlt | _]; [| reflexivity].
  exfalso; revert Hlt; unfold slopeDeg, cosTheta.
  rewrite dot_UP, Hy, clamp_id, acos_0 by lra.
  pose proof PI_RGT_0 as Hpi.
  replace (PI / 2 * 180 / PI) with 90 by (field; lra).
  lra.
Qed.

(** The floor is walkable for every positive slope limit. *)
Lemma walkable_UP (a : Attributes) : 0 < slopeLimitDeg a -> walkable a Vec3.UP = true.
Proof.
  intros Hlim; unfold walkable.
  destruct (Rlt_dec (slopeDeg Vec3.UP) (slopeLimitDeg a)) as [_ | Hno];
    [reflexivity |].
  exfalso; apply Hno; unfold slopeDeg, cosTheta.
  rewrite dot_UP; cbn [Vec3.y Vec3.UP].
  rewrite clamp_id, acos_1 by lra.
  unfold Rdiv; rewrite !Rmult_0_l; exact Hlim.
Qed.

(** A horizontal unit normal is its own flattening. *)
Lemma flatten_horizontal_unit (n : Vec3.t) :
  Vec3.y n = 0 -> Vec3.lengthSq n = 1 -> flatten n = n.
Proof.
  intros Hy Hone.
  assert (Hw : Vec3.mk (Vec3.x n) 0 (Vec3.z n) = n)
    by (apply vec3_eq; cbn; auto).
  unfold flatten; rewrite Hw.
  pose proof EPS_pos as Heps; unfold EPS in *.
  destruct (Rgt_dec (Vec3.lengthSq n) (1 / 100000000)) as [_ | Hno]; [| lra].
  rewrite (normalize_exact n 1) by lra.
  apply vec3_eq; unfold Vec3.mulScalar; cbn; field.
Qed.

(** Projection on the plane of a unit normal. *)
Lemma projectOnPlane_unit (v n : Vec3.t) :
  Vec3.lengthSq n = 1 ->
  projectOnPlane v n =
  Vec3.sub v (Vec3.mulScalar n (Vec3.dot v n)).
Proof.
  intros Hone; unfold projectOnPlane; rewrite Hone.
  unfold EPS; destruct (Rlt_dec 1 (1 / 100000000)) as [Hlt | _]; [lra |].
  apply vec3_eq; unfold Vec3.sub, Vec3.mulScalar; cbn; field.
Qed.

(** ** Open space, concretely *)

(** C9, witness: the default controller sweeping one unit along x
    through open space. *)
Lemma open_space_identity_witness :
  l_pos (sweep emptyWorld kcc0 Vec3.ZERO (Vec3.mk 1 0 0) false)
    = Vec3.add Vec3.ZERO (Vec3.mk 1 0 0) /\
  l_casts (sweep emptyWorld kcc0 Vec3.ZERO (Vec3.mk 1 0 0) false)
    = [(Vec3.ZERO, Vec3.add Vec3.ZERO (Vec3.mk 1 0 0))] /\
  l_kcc (sweep emptyWorld kcc0 Vec3.ZERO (Vec3.mk 1 0 0) false) = kcc0.
Proof.
  apply (open_space_identity emptyWorld false 4
           (mkLoop kcc0 Vec3.ZERO (Vec3.mk 1 0 0) None None [])).
  - unfold Vec3.lengthSq, EPS; cbn; lra.
  - reflexivity.
Defined.

(** ** Bounded iteration, concretely *)

(** A round of the horizontal pass on the floor world with remainder
    (1, 0, 0): the floor contact is walkable and the remainder is
    kept. *)
Lemma floor_round (s : @SweepLoop Quaternion) :
  l_remaining s = Vec3.mk 1 0 0 ->
  attrs (l_kcc s) = defaultAttributes ->
  exists s',
    sweepRound floorWorld false s = (Continue, s') /\
    l_remaining s' = Vec3.mk 1 0 0 /\
    attrs (l_kcc s') = defaultAttributes.
Proof.
  intros Hrem Ha.
  assert (Hbig : ~ Vec3.lengthSq (l_remaining s) < EPS)
    by (rewrite Hrem; unfold Vec3.lengthSq, EPS; cbn; lra).
  rewrite (sweepRound_hit floorWorld false s floorHit Hbig eq_refl).
  unfold resolveHit.
  rewrite Ha, walkable_UP by (cbn; lra).
  eexists; split; [reflexivity |]; cbn [l_remaining l_kcc]; split.
  - unfold walkableRemainder; rewrite Hrem.
    rewrite projectOnPlane_unit
      by (unfold Vec3.lengthSq, Vec3.UP; cbn; ring).
    apply vec3_eq; unfold Vec3.sub, Vec3.mulScalar, Vec3.dot; cbn; ring.
  - exact Ha.
Qed.

Lemma floor_rounds (n : nat) :
  forall s : @SweepLoop Quaternion,
    l_remaining s = Vec3.mk 1 0 0 ->
    attrs (l_kcc s) = defaultAttributes ->
    hitsEveryQuery floorWorld false n s /\ noCeilingStrike floorWorld false n s.
Proof.
  induction n as [| n IH]; intros s Hrem Ha; [split; exact I |].
  destruct (floor_round s Hrem Ha) as (s' & Hround & Hrem' & Ha').
  destruct (IH s' Hrem' Ha') as [IH1 IH2].
  cbn [hitsEveryQuery noCeilingStrike]; rewrite Hround.
  split.
  - split; [rewrite Hrem; unfold Vec3.lengthSq, EPS; cbn; lra |].
    split; [discriminate | exact IH1].
  - split; [intros [Hv _]; discriminate | exact IH2].
Qed.

(** C6, witness: on the floor world the horizontal pass of the default
    controller hits a walkable floor in every round and keeps its
    remainder, and sweeps exactly five segments. *)
Lemma sweep_query_budget_witness :
  (length (l_casts (sweep floorWorld kcc0 Vec3.ZERO (Vec3.mk 1 0 0) false))
     <= 5)%nat /\
  length (l_casts (sweep floorWorld kcc0 Vec3.ZERO (Vec3.mk 1 0 0) false))
    = 5%nat.
Proof.
  destruct (sweep_query_budget floorWorld kcc0 Vec3.ZERO (Vec3.mk 1 0 0) false)
    as [Hle Heq].
  destruct (floor_rounds 5 (mkLoop kcc0 Vec3.ZERO (Vec3.mk 1 0 0) None None [])
              eq_refl eq_refl) as [Hhit Hceil].
  split; [exact Hle | exact (Heq Hhit Hceil)].
Defined.

(** A vertical pass moving up under a ceiling.  Its only query reports
    a hit and the remainder (0, 1, 0) never drops below EPS, yet the
    pass sweeps one segment, not five. *)
Lemma ceiling_pass_run :
  hitsEveryQuery ceilingWorld true (maxIterations (attrs kcc0))
                 (mkLoop kcc0 Vec3.ZERO (Vec3.mk 0 1 0) None None []) /\
  (forall r a b, sphereCast ceilingWorld r a b <> None) /\
  maxIterations (attrs kcc0) = 5%nat /\
  length (l_casts (sweep ceilingWorld kcc0 Vec3.ZERO (Vec3.mk 0 1 0) true))
    = 1%nat /\
  l_remaining (sweep ceilingWorld kcc0 Vec3.ZERO (Vec3.mk 0 1 0) true)
    = Vec3.mk 0 1 0.
Proof.
  set (s0 := mkLoop kcc0 Vec3.ZERO (Vec3.mk 0 1 0) None None []).
  assert (Hbig : ~ Vec3.lengthSq (l_remaining s0) < EPS)
    by (unfold Vec3.lengthSq, EPS; cbn; lra).
  assert (Hround : exists s',
             sweepRound ceilingWorld true s0 = (Break, s') /\
             l_casts s' = [roundCast s0] /\ l_remaining s' = Vec3.mk 0 1 0).
  { rewrite (sweepRound_hit ceilingWorld true s0 ceilingHit Hbig eq_refl).
    unfold resolveHit.
    destruct (Rgt_dec (Vec3.y (l_remaining s0)) 0) as [_ | Hno];
      [| exfalso; apply Hno; cbn; lra].
    eexists; split; [reflexivity |]; split; reflexivity. }
  destruct Hround as (s' & Hround & Hcasts & Hrem).
  unfold sweep; fold s0; cbn [kcc0 initialize attrs defaultAttributes maxIterations].
  cbn [hitsEveryQuery sweepLoop]; rewrite Hround.
  split; [split; [exact Hbig | split; [discriminate | exact I]] |].
  split; [intros r a b; discriminate |].
  split; [reflexivity |].
  split; [rewrite Hcasts; reflexivity | exact Hrem].
Qed.

(** C6, counterexample: for the vertical pass moving up under the
    ceiling, the world reports a hit on every query and the remainder
    stays at or above EPS, but the number of queries is not
    [maxIterations]. *)
Lemma sweep_query_budget_counterexample :
  ~ ((forall r a b, sphereCast ceilingWorld r a b <> None) ->
     hitsEveryQuery ceilingWorld true (maxIterations (attrs kcc0))
                    (mkLoop kcc0 Vec3.ZERO (Vec3.mk 0 1 0) None None []) ->
     length (l_casts (sweep ceilingWorld kcc0 Vec3.ZERO (Vec3.mk 0 1 0) true))
       = maxIterations (attrs kcc0)).
Proof.
  destruct ceiling_pass_run as (Hhit & Hall & Hmax & Hone & _).
  intros Hclaim.
  specialize (Hclaim Hall Hhit).
  rewrite Hone, Hmax in Hclaim; discriminate.
Qed.

(** ** Pending input, concretely *)

(** The axes survive a tick. *)
Lemma axes_survive_tick :
  _horizontal (tick emptyWorld (1 / 60) (setInput 1 0 false 0 kcc0)) = 1.
Proof.
  destruct (tick_axes emptyWorld (1 / 60) (setInput 1 0 false 0 kcc0))
    as [Hh _].
  rewrite Hh; reflexivity.
Qed.

(** C2, counterexample: after [setInput(1, 0, false, 0)] and one
    [update], the horizontal axis is still 1, not back at zero. *)
Lemma pending_input_counterexample :
  ~ (_horizontal (tick emptyWorld (1 / 60) (setInput 1 0 false 0 kcc0)) = 0 /\
     _vertical (tick emptyWorld (1 / 60) (setInput 1 0 false 0 kcc0)) = 0 /\
     _jumpPressed (tick emptyWorld (1 / 60) (setInput 1 0 false 0 kcc0)) = false /\
     _yawDelta (tick emptyWorld (1 / 60) (setInput 1 0 false 0 kcc0)) = 0).
Proof.
  intros (Hh & _); rewrite axes_survive_tick in Hh; lra.
Qed.

(** C2, witness: a tick after [setInput(1, -1, true, 5)]. *)
Lemma pending_input_after_update_witness :
  _jumpPressed (tick emptyWorld (1 / 60) (setInput 1 (-1) true 5 kcc0)) = false /\
  _yawDelta (tick emptyWorld (1 / 60) (setInput 1 (-1) true 5 kcc0)) = 0 /\
  _horizontal (tick emptyWorld (1 / 60) (setInput 1 (-1) true 5 kcc0)) = 1 /\
  _vertical (tick emptyWorld (1 / 60) (setInput 1 (-1) true 5 kcc0)) = -1.
Proof.
  destruct (pending_input_after_update emptyWorld (1 / 60)
              (setInput 1 (-1) true 5 kcc0))
    as (Hj & Hy & _ & _ & _ & Hh & Hv).
  split; [exact Hj |].
  split; [apply Hy; cbn; rewrite Rabs_pos_eq; unfold EPS; lra |].
  split; [exact Hh | exact Hv].
Defined.

(** ** Slope boundary, concretely *)

(** C8, witness: with the default limit of 50 degrees, a surface tilted
    by exactly 50 degrees is not walkable, one tilted by 49 is, one
    tilted by 51 is not. *)
Lemma slope_classification_strict_witness :
  walkable defaultAttributes (normalAt 50) = false /\
  walkable defaultAttributes (normalAt 49) = true /\
  walkable defaultAttributes (normalAt 51) = false.
Proof.
  destruct (slope_classification_strict defaultAttributes (normalAt 50))
    as (_ & _ & Heq & _ & _ & Hat).
  destruct (slope_classification_strict defaultAttributes (normalAt 49))
    as (_ & _ & _ & Hlt & _ & _).
  destruct (slope_classification_strict defaultAttributes (normalAt 51))
    as (_ & _ & _ & _ & Hgt & _).
  destruct (Hat 50) as [H50 _]; [lra |].
  destruct (Hat 49) as [H49 _]; [lra |].
  destruct (Hat 51) as [H51 _]; [lra |].
  split; [apply Heq; rewrite H50; reflexivity |].
  split; [apply Hlt; rewrite H49; cbn; lra | apply Hgt; rewrite H51; cbn; lra].
Defined.

(** ** Platform follow, concretely *)

(** C5, witness: the rider on platform 3 after the platform moved to
    (1, 0, 5) and turned. *)
Lemma platform_follow_yaw_only_witness :
  entityPosition (followGround platformWorld (applyYaw rider)) =
    Vec3.add (Vec3.mk 1 0 5)
      (transformVector
         (yawOnly (qmul (quatSetFromEulerAngles 30 90 0) (qinvert quatIdentity)))
         (Vec3.sub (Vec3.mk 2 1 0) (Vec3.mk 1 0 0))) /\
  entityRotation (followGround platformWorld (applyYaw rider)) =
    qmul (yawOnly (qmul (quatSetFromEulerAngles 30 90 0) (qinvert quatIdentity)))
         (entityRotation (applyYaw rider)).
Proof.
  destruct (platform_follow_yaw_only platformWorld rider 3%nat eq_refl eq_refl)
    as (Hp & Hr & _).
  split; [exact Hp | exact Hr].
Defined.

(** ** Single-wall slide, concretely *)

Ltac rdec :=
  repeat match goal with
         | |- context [Rlt_dec ?a ?b] =>
             destruct (Rlt_dec a b); try (exfalso; lra)
         end.

(** The default controller walks from the origin by (-3, 0, 4) into the
    wall at x = -3/2.  It advances 2.49 along the displacement, slides
    by (0.01, 0, 2), and ends at (-1.484, 0, 3.992) after two sweeps. *)
Lemma plane_wall_run :
  flatten (normal wallHit) = Vec3.mk 1 0 0 /\
  stepToImpact defaultAttributes Vec3.ZERO (Vec3.mk (-3) 0 4) wallHit
    = Vec3.mk (- (1494 / 1000)) 0 (1992 / 1000) /\
  wallRemainder defaultAttributes (Vec3.mk (-3) 0 4) (Vec3.mk 1 0 0) wallHit
    = Vec3.mk (1 / 100) 0 2 /\
  sphereCast planeWall (1 / 2) Vec3.ZERO
             (Vec3.add Vec3.ZERO (Vec3.mk (-3) 0 4)) = Some wallHit /\
  sphereCast planeWall (1 / 2) (Vec3.mk (- (1494 / 1000)) 0 (1992 / 1000))
             (Vec3.add (Vec3.mk (- (1494 / 1000)) 0 (1992 / 1000))
                       (Vec3.mk (1 / 100) 0 2)) = None /\
  l_pos (sweep planeWall kcc0 Vec3.ZERO (Vec3.mk (-3) 0 4) false)
    = Vec3.mk (- (1484 / 1000)) 0 (3992 / 1000) /\
  length (l_casts (sweep planeWall kcc0 Vec3.ZERO (Vec3.mk (-3) 0 4) false))
    = 2%nat.
Proof.
  assert (Hflat : flatten (normal wallHit) = Vec3.mk 1 0 0).
  { apply flatten_horizontal_unit; [reflexivity |].
    unfold Vec3.lengthSq; cbn; ring. }
  assert (Hp1 : stepToImpact defaultAttributes Vec3.ZERO (Vec3.mk (-3) 0 4) wallHit
                = Vec3.mk (- (1494 / 1000)) 0 (1992 / 1000)).
  { rewrite (stepToImpact_exact _ _ _ _ 5).
    - apply vec3_eq; unfold Vec3.add, Vec3.mulScalar; cbn; field.
    - lra.
    - unfold Vec3.lengthSq; cbn; ring.
    - cbn; lra.
    - cbn; unfold EPS; lra. }
  assert (Hr1 : wallRemainder defaultAttributes (Vec3.mk (-3) 0 4)
                  (Vec3.mk 1 0 0) wallHit = Vec3.mk (1 / 100) 0 2).
  { unfold wallRemainder.
    rewrite projectOnPlane_unit by (unfold Vec3.lengthSq; cbn; ring).
    apply vec3_eq; unfold Vec3.add, Vec3.sub, Vec3.mulScalar, Vec3.dot; cbn;
      field. }
  assert (Hc1 : sphereCast planeWall (1 / 2) Vec3.ZERO
                  (Vec3.add Vec3.ZERO (Vec3.mk (-3) 0 4)) = Some wallHit).
  { cbn; rdec; reflexivity. }
  assert (Hc2 : sphereCast planeWall (1 / 2)
                  (Vec3.mk (- (1494 / 1000)) 0 (1992 / 1000))
                  (Vec3.add (Vec3.mk (- (1494 / 1000)) 0 (1992 / 1000))
                            (Vec3.mk (1 / 100) 0 2)) = None).
  { cbn; rdec; reflexivity. }
  split; [exact Hflat |].
  split; [exact Hp1 |].
  split; [exact Hr1 |].
  split; [exact Hc1 |].
  split; [exact Hc2 |].
  destruct (sweep_wall_then_free planeWall kcc0 Vec3.ZERO (Vec3.mk (-3) 0 4)
              wallHit) as [Hpos Hlen].
  - cbn; lia.
  - unfold Vec3.lengthSq, EPS; cbn; lra.
  - exact Hc1.
  - apply walkable_wall; cbn; lra.
  - cbn [kcc0 initialize attrs]; rewrite Hflat, Hr1.
    unfold Vec3.lengthSq, EPS; cbn; lra.
  - cbn [kcc0 initialize attrs]; rewrite Hflat, Hp1, Hr1; exact Hc2.
  - split; [| exact Hlen].
    rewrite Hpos; cbn [kcc0 initialize attrs]; rewrite Hflat, Hp1, Hr1.
    apply vec3_eq; cbn; lra.
Qed.

(** C3, counterexample: in that pass there is exactly one wall
    contact, with flattened normal (1, 0, 0), and the resolved
    displacement has component -1.484 along it, not zero. *)
Lemma single_wall_slide_counterexample :
  ~ (Vec3.dot
       (Vec3.sub (l_pos (sweep planeWall kcc0 Vec3.ZERO (Vec3.mk (-3) 0 4) false))
                 Vec3.ZERO)
       (flatten (normal wallHit)) = 0).
Proof.
  destruct plane_wall_run as (Hflat & _ & _ & _ & _ & Hpos & _).
  rewrite Hpos, Hflat; unfold Vec3.dot, Vec3.sub; cbn; lra.
Qed.

(** C3, witness: the same pass, with the tangent (0, 0, 1). *)
Lemma single_wall_slide_witness :
  l_pos (sweep planeWall kcc0 Vec3.ZERO (Vec3.mk (-3) 0 4) false) =
    Vec3.add
      (stepToImpact defaultAttributes Vec3.ZERO (Vec3.mk (-3) 0 4) wallHit)
      (wallRemainder defaultAttributes (Vec3.mk (-3) 0 4)
                     (flatten (normal wallHit)) wallHit) /\
  Vec3.dot (wallRemainder defaultAttributes (Vec3.mk (-3) 0 4)
                          (flatten (normal wallHit)) wallHit)
           (flatten (normal wallHit)) = 1 / 100 /\
  Vec3.dot (wallRemainder defaultAttributes (Vec3.mk (-3) 0 4)
                          (flatten (normal wallHit)) wallHit)
           (Vec3.mk 0 0 1) <> 0.
Proof.
  destruct plane_wall_run as (Hflat & Hp1 & Hr1 & Hc1 & Hc2 & _).
  destruct (single_wall_slide planeWall kcc0 Vec3.ZERO (Vec3.mk (-3) 0 4)
              wallHit (Vec3.mk 0 0 1))
    as (Hpos & _ & _ & Hskin & _ & Htan).
  - cbn; lia.
  - unfold Vec3.lengthSq, EPS; cbn; lra.
  - exact Hc1.
  - apply walkable_wall; cbn; lra.
  - rewrite Hflat; unfold Vec3.lengthSq, EPS; cbn; lra.
  - cbn [kcc0 initialize attrs]; rewrite Hflat, Hr1.
    unfold Vec3.lengthSq, EPS; cbn; lra.
  - cbn [kcc0 initialize attrs]; rewrite Hflat, Hp1, Hr1; exact Hc2.
  - split; [exact Hpos |].
    split.
    + apply Hskin; unfold Vec3.lengthSq, EPS; cbn; lra.
    + apply Htan.
      * rewrite Hflat; unfold Vec3.dot; cbn; ring.
      * unfold Vec3.dot; cbn; lra.
      * cbn; lra.
Defined.

(** ** Corner lock, concretely *)

(** C4, witness: a horizontal pass that has recorded the wall normal
    (1, 0, 0) and now meets a wall facing -z. *)
Lemma corner_lock_witness :
  l_remaining
    (sweepLoop (constWorld (Some (mkHit 4%nat (1 / 2) Vec3.ZERO (Vec3.mk 0 0 (-1)))))
       false 4
       (mkLoop kcc0 Vec3.ZERO (Vec3.mk 0 0 1) (Some (Vec3.mk 1 0 0)) None []))
    = Vec3.ZERO /\
  l_casts
    (sweepLoop (constWorld (Some (mkHit 4%nat (1 / 2) Vec3.ZERO (Vec3.mk 0 0 (-1)))))
       false 4
       (mkLoop kcc0 Vec3.ZERO (Vec3.mk 0 0 1) (Some (Vec3.mk 1 0 0)) None []))
    = [(Vec3.ZERO, Vec3.add Vec3.ZERO (Vec3.mk 0 0 1))].
Proof.
  destruct (corner_lock
              (constWorld (Some (mkHit 4%nat (1 / 2) Vec3.ZERO (Vec3.mk 0 0 (-1)))))
              3
              (mkLoop kcc0 Vec3.ZERO (Vec3.mk 0 0 1) (Some (Vec3.mk 1 0 0)) None [])
              (mkHit 4%nat (1 / 2) Vec3.ZERO (Vec3.mk 0 0 (-1)))
              (Vec3.mk 1 0 0))
    as (Hrem & _ & Hcasts & _).
  - reflexivity.
  - unfold Vec3.lengthSq, EPS; cbn; lra.
  - reflexivity.
  - apply walkable_wall; cbn; lra.
  - rewrite flatten_horizontal_unit
      by (try reflexivity; unfold Vec3.lengthSq; cbn; ring).
    unfold Vec3.dot; cbn; lra.
  - split; [exact Hrem | exact Hcasts].
Defined.

(** The three wall normals of the corridor: all are walls, each of the
    later two is near-parallel to the first, and the later two differ
    from each other by more than the 0.99 cutoff. *)
Lemma corridor_normals :
  flatten (normal wallA) = normal wallA /\
  flatten (normal wallB) = normal wallB /\
  flatten (normal wallC) = normal wallC /\
  walkable noSkinAttributes (normal wallA) = false /\
  walkable noSkinAttributes (normal wallB) = false /\
  walkable noSkinAttributes (normal wallC) = false /\
  ~ Vec3.dot (normal wallB) (normal wallA) < 99 / 100 /\
  ~ Vec3.dot (normal wallC) (normal wallA) < 99 / 100 /\
  Vec3.dot (normal wallB) (normal wallC) < 99 / 100.
Proof.
  repeat split;
    try (apply flatten_horizontal_unit; [reflexivity |];
         unfold Vec3.lengthSq; cbn; field);
    try (apply walkable_wall; cbn; lra);
    unfold Vec3.dot; cbn; lra.
Qed.

(** Sliding along z against a wall facing +x, with no skin and a hit
    half way: the advance and the remainder are both half the
    remainder. *)
Lemma corridor_slide (pos : Vec3.t) (c : R) (hit : ConvexCastResult) :
  c / 2 > EPS -> hitFraction hit = 1 / 2 ->
  stepToImpact noSkinAttributes pos (Vec3.mk 0 0 c) hit
    = Vec3.mk (Vec3.x pos) (Vec3.y pos) (Vec3.z pos + c / 2) /\
  wallRemainder noSkinAttributes (Vec3.mk 0 0 c) (Vec3.mk 1 0 0) hit
    = Vec3.mk 0 0 (c / 2).
Proof.
  intros Hc Hf; pose proof EPS_pos as Heps; split.
  - rewrite (stepToImpact_exact _ _ _ _ c).
    + rewrite Hf; apply vec3_eq; unfold Vec3.add, Vec3.mulScalar; cbn; field; lra.
    + lra.
    + unfold Vec3.lengthSq; cbn; ring.
    + rewrite Hf; lra.
    + rewrite Hf; cbn; lra.
  - unfold wallRemainder.
    rewrite projectOnPlane_unit by (unfold Vec3.lengthSq; cbn; ring).
    rewrite Hf.
    apply vec3_eq; unfold Vec3.add, Vec3.sub, Vec3.mulScalar, Vec3.dot; cbn;
      field.
Qed.

(** The corridor pass, round by round: three wall contacts, then a
    free sweep. *)
Lemma corridor_rounds :
  sweepRound corridor false corridorStart = (Continue, afterWallA) /\
  roundHit corridor corridorStart = Some wallA /\
  sweepRound corridor false afterWallA = (Continue, afterWallB) /\
  roundHit corridor afterWallA = Some wallB /\
  sweepRound corridor false afterWallB = (Continue, afterWallC) /\
  roundHit corridor afterWallB = Some wallC /\
  sweepRound corridor false afterWallC = (Break, corridorEnd) /\
  roundHit corridor afterWallC = None.
Proof.
  destruct corridor_normals
    as (HfA & HfB & HfC & HwA & HwB & HwC & HpB & HpC & _).
  assert (HhA : roundHit corridor corridorStart = Some wallA)
    by (unfold roundHit; cbn; rdec; reflexivity).
  assert (HhB : roundHit corridor afterWallA = Some wallB)
    by (unfold roundHit; cbn; rdec; reflexivity).
  assert (HhC : roundHit corridor afterWallB = Some wallC)
    by (unfold roundHit; cbn; rdec; reflexivity).
  assert (HhD : roundHit corridor afterWallC = None)
    by (unfold roundHit; cbn; rdec; reflexivity).
  split; [| split; [exact HhA |]].
  { rewrite (sweepRound_hit corridor false corridorStart wallA)
      by (exact HhA || (unfold Vec3.lengthSq, EPS; cbn; lra)).
    rewrite resolveHit_first_wall by (reflexivity || exact HwA).
    cbn [corridorStart l_kcc l_pos l_remaining kccNoSkin initialize attrs].
    rewrite HfA.
    assert (Hp : stepToImpact noSkinAttributes Vec3.ZERO (Vec3.mk (-3) 0 4) wallA
                 = Vec3.mk (- (3 / 2)) 0 2).
    { rewrite (stepToImpact_exact _ _ _ _ 5).
      - apply vec3_eq; unfold Vec3.add, Vec3.mulScalar; cbn; field.
      - lra.
      - unfold Vec3.lengthSq; cbn; ring.
      - cbn; lra.
      - cbn; unfold EPS; lra. }
    assert (Hr : wallRemainder noSkinAttributes (Vec3.mk (-3) 0 4)
                   (normal wallA) wallA = Vec3.mk 0 0 2).
    { unfold wallRemainder.
      rewrite projectOnPlane_unit by (unfold Vec3.lengthSq; cbn; ring).
      apply vec3_eq; unfold Vec3.add, Vec3.sub, Vec3.mulScalar, Vec3.dot; cbn;
        field. }
    rewrite Hp, Hr; reflexivity. }
  split; [| split; [exact HhB |]].
  { rewrite (wall_round_locked corridor afterWallA wallB (Vec3.mk 1 0 0))
      by (reflexivity || exact HhB || exact HwB
          || (unfold Vec3.lengthSq, EPS; cbn; lra)
          || (rewrite HfB; exact HpB)).
    cbn [afterWallA l_kcc l_pos l_remaining kccNoSkin initialize attrs].
    destruct (corridor_slide (Vec3.mk (- (3 / 2)) 0 2) 2 wallB) as [Hp Hr];
      [unfold EPS; lra | reflexivity |].
    rewrite Hp, Hr; unfold afterWallB.
    f_equal; f_equal; apply vec3_eq; cbn; lra. }
  split; [| split; [exact HhC |]].
  { rewrite (wall_round_locked corridor afterWallB wallC (Vec3.mk 1 0 0))
      by (reflexivity || exact HhC || exact HwC
          || (unfold Vec3.lengthSq, EPS; cbn; lra)
          || (rewrite HfC; exact HpC)).
    cbn [afterWallB l_kcc l_pos l_remaining kccNoSkin initialize attrs].
    destruct (corridor_slide (Vec3.mk (- (3 / 2)) 0 3) 1 wallC) as [Hp Hr];
      [unfold EPS; lra | reflexivity |].
    rewrite Hp, Hr; unfold afterWallC.
    f_equal; f_equal; apply vec3_eq; cbn; lra. }
  split; [| exact HhD].
  rewrite (sweepRound_nohit corridor false afterWallC)
    by (exact HhD || (unfold Vec3.lengthSq, EPS; cbn; lra)).
  reflexivity.
Qed.

(** The whole corridor pass ends at (-3/2, 0, 4) with remainder
    (0, 0, 1/2), no second wall normal recorded, after four sweeps. *)
Lemma corridor_run :
  sweep corridor kccNoSkin Vec3.ZERO (Vec3.mk (-3) 0 4) false = corridorEnd.
Proof.
  destruct corridor_rounds as (R1 & _ & R2 & _ & R3 & _ & R4 & _).
  unfold sweep.
  change (mkLoop kccNoSkin Vec3.ZERO (Vec3.mk (-3) 0 4) None None [])
    with corridorStart.
  change (maxIterations (attrs kccNoSkin)) with 5%nat.
  rewrite sweepLoop_S_eq, R1, sweepLoop_S_eq, R2, sweepLoop_S_eq, R3, sweepLoop_S_eq, R4.
  reflexivity.
Qed.

(** C4, counterexample: in the corridor pass the second and third
    contacts are wall hits whose flattened normals have dot product
    12319/12769, below 0.99, yet the remaining displacement is not set
    to zero and the pass goes on to move by (0, 0, 1/2): only the
    first recorded normal is compared, and both are near-parallel to
    it. *)
Lemma corner_lock_counterexample :
  ~ (roundHit corridor afterWallA = Some wallB ->
     roundHit corridor afterWallB = Some wallC ->
     walkable noSkinAttributes (normal wallB) = false ->
     walkable noSkinAttributes (normal wallC) = false ->
     Vec3.dot (flatten (normal wallB)) (flatten (normal wallC)) < 99 / 100 ->
     l_remaining (sweep corridor kccNoSkin Vec3.ZERO (Vec3.mk (-3) 0 4) false)
       = Vec3.ZERO).
Proof.
  destruct corridor_normals as (_ & HfB & HfC & _ & HwB & HwC & _ & _ & Hdot).
  destruct corridor_rounds as (_ & _ & _ & HhB & _ & HhC & _ & _).
  intros Hclaim.
  rewrite HfB, HfC in Hclaim.
  specialize (Hclaim HhB HhC HwB HwC Hdot).
  rewrite corridor_run in Hclaim.
  apply (f_equal Vec3.z) in Hclaim; cbn in Hclaim; lra.
Qed.

(** ** The steep-slope normal, concretely *)

(** A contact normal whose vertical part is at most 1/2 is tilted by at
    least 60 degrees, and is steep for every slope limit up to 60. *)
Lemma walkable_beyond_60 (a : Attributes) (n : Vec3.t) :
  -1 <= Vec3.y n <= 1 / 2 -> slopeLimitDeg a <= 60 -> walkable a n = false.
Proof.
  intros [Hlo Hhi] Hlim; unfold walkable.
  destruct (Rlt_dec (slopeDeg n) (slopeLimitDeg a)) as [Hlt | _]; [| reflexivity].
  exfalso; unfold slopeDeg, cosTheta in Hlt.
  rewrite dot_UP, clamp_id in Hlt by lra.
  pose proof PI_RGT_0 as Hpi.
  assert (Hacos : PI / 3 <= acos (Vec3.y n)).
  { destruct (Rle_dec (PI / 3) (acos (Vec3.y n))) as [Hle | Hgt]; [exact Hle |].
    exfalso.
    pose proof (acos_bound (Vec3.y n)) as [Hb0 Hb1].
    assert (Hcos : cos (PI / 3) < cos (acos (Vec3.y n)))
      by (apply cos_decreasing_1; lra).
    rewrite cos_PI3, cos_acos in Hcos by lra.
    lra. }
  set (c := 180 / PI).
  assert (Hc : PI * c = 180) by (unfold c; field; lra).
  assert (Hcpos : 0 < c) by (unfold c; apply Rdiv_lt_0_compat; lra).
  replace (acos (Vec3.y n) * 180 / PI) with (acos (Vec3.y n) * c) in Hlt
    by (unfold c; field; lra).
  nra.
Qed.

Lemma ramp_is_steep : walkable defaultAttributes rampNormal = false.
Proof. apply walkable_beyond_60; cbn; lra. Qed.

(** The uphill direction of the ramp. *)
Lemma ramp_upDir :
  Vec3.normalize (projectOnPlane Vec3.UP rampNormal)
    = Vec3.mk (- (5 / 13)) (12 / 13) 0.
Proof.
  rewrite projectOnPlane_unit by (unfold Vec3.lengthSq; cbn; field).
  rewrite (normalize_exact _ (12 / 13)).
  - apply vec3_eq; unfold Vec3.sub, Vec3.mulScalar, Vec3.dot; cbn; field.
  - lra.
  - unfold Vec3.lengthSq, Vec3.sub, Vec3.mulScalar, Vec3.dot; cbn; field.
Qed.

Lemma applyYaw_idle {Quat : Type} {E : Engine Quat} (k : @KCC Quat) :
  _yawDelta k = 0 -> applyYaw k = k.
Proof.
  intros Hy; apply applyYaw_inputs.
  rewrite Hy, Rabs_R0; pose proof EPS_pos; lra.
Qed.

(** The fresh controller is unchanged by the first three steps of
    [update], apart from the jump flag. *)
Lemma kcc0_early (app : @World Quaternion) :
  jump (followGround app (applyYaw kcc0)) = set_jumpPressed false kcc0.
Proof. rewrite (applyYaw_idle kcc0) by reflexivity. reflexivity. Qed.

(** Tick N: the falling controller meets the steep ramp in its
    vertical pass, which stores the ramp's normal. *)
Lemma ramp_vertical_pass :
  _steepNormal (l_kcc (verticalPass rampWorld (1 / 10) kcc0)) = Some rampNormal.
Proof.
  unfold verticalPass, beforePasses; cbv zeta; rewrite kcc0_early.
  cbn [applyGravity set_velY set_jumpPressed kcc0 initialize _velY attrs
       gravity defaultAttributes entityPosition].
  destruct (Rgt_dec _ EPS) as [_ | Hno].
  - unfold sweep.
    cbn [attrs set_groundCandidate set_grounded maxIterations].
    apply (sweepLoop_steep_first rampWorld 4 _ rampHit).
    + unfold Vec3.lengthSq, EPS; cbn; lra.
    + reflexivity.
    + cbn; lra.
    + exact ramp_is_steep.
    + intros r a b h Hh; cbn in Hh; injection Hh as <-; reflexivity.
  - exfalso; apply Hno.
    rewrite Rabs_left by lra; unfold EPS; lra.
Qed.

(** After tick N the controller is airborne, unrotated, and has no
    steep normal left. *)
Lemma ramp_tick_state :
  _steepNormal (tick rampWorld (1 / 10) kcc0) = None /\
  _grounded (tick rampWorld (1 / 10) kcc0) = false /\
  _wasGrounded (tick rampWorld (1 / 10) kcc0) = false /\
  entityRotation (tick rampWorld (1 / 10) kcc0) = quatIdentity /\
  attrs (tick rampWorld (1 / 10) kcc0) = defaultAttributes.
Proof.
  assert (Hair : _grounded (t_kcc (groundSnapProbe rampWorld
                                     (movePasses rampWorld (1 / 10) kcc0)))
                 = false).
  { apply tick_not_grounded.
    intros r a b h Hh; cbn in Hh; injection Hh as <-; exact ramp_is_steep. }
  destruct (commit_footing rampWorld
              (groundSnapProbe rampWorld (movePasses rampWorld (1 / 10) kcc0)))
    as (Hg & Hw & _).
  split; [apply tick_steepNormal |].
  split; [unfold tick, update; rewrite Hg; exact Hair |].
  split; [unfold tick, update; rewrite Hw; exact Hair |].
  split; [| apply tick_attrs].
  rewrite (tick_frame entityRotation)
    by (apply frame_entityRotation || apply cframe_entityRotation).
  rewrite kcc0_early; reflexivity.
Qed.

(** The forward and right axes of the unrotated reference entity. *)
Lemma identity_axes :
  forward quatIdentity = Vec3.mk 0 0 (-1) /\ right quatIdentity = Vec3.mk 1 0 0.
Proof.
  split; apply vec3_eq;
    unfold forward, right, referenceEngine, quatTransformVector, quatIdentity;
    cbn [Vec3.x Vec3.y Vec3.z qx qy qz qw]; ring.
Qed.

(** An airborne, unrotated controller with the default attributes and
    the horizontal axis at -1 asks for 0.6 towards -x in a tenth of a
    second. *)
Lemma push_left_displacement (k : @KCC Quaternion) :
  _horizontal k = -1 -> _vertical k = 0 ->
  entityRotation k = quatIdentity ->
  _grounded k = false -> attrs k = defaultAttributes ->
  inputDisplacement (1 / 10) k = Vec3.mk (- (6 / 10)) 0 0.
Proof.
  intros Hh Hv Hrot Hgr Hat.
  destruct identity_axes as [Hf Hr].
  unfold inputDisplacement, horizDir, moveSpeed.
  rewrite Hh, Hv, Hrot, Hgr, Hat, Hf, Hr.
  destruct (Req_dec_T (-1) 0) as [Habs | _]; [lra |].
  rewrite (normalize_exact _ 1).
  - apply vec3_eq; unfold Vec3.add, Vec3.mulScalar;
      cbn [Vec3.x Vec3.y Vec3.z speed airControl defaultAttributes]; field.
  - lra.
  - unfold Vec3.lengthSq, Vec3.add, Vec3.mulScalar;
      cbn [Vec3.x Vec3.y Vec3.z]; ring.
Qed.

(** Tick N+1 with the input pushing towards -x, up the ramp: the
    displacement handed to the horizontal pass. *)
Lemma ramp_next_tick_displacement :
  desiredHoriz rampWorld (1 / 10)
    (setInput (-1) 0 false 0 (tick rampWorld (1 / 10) kcc0))
  = Vec3.mk (- (6 / 10)) 0 0.
Proof.
  destruct ramp_tick_state as (Hst & Hgr & Hwg & Hrot & Hat).
  generalize dependent (tick rampWorld (1 / 10) kcc0); intros kN Hst Hgr Hwg Hrot Hat.
  rewrite desiredHoriz_unclamped by exact Hst.
  rewrite applyYaw_idle by reflexivity.
  assert (Hfollow : followGround rampWorld (setInput (-1) 0 false 0 kN)
                    = setInput (-1) 0 false 0 kN).
  { unfold followGround.
    change (_wasGrounded (setInput (-1) 0 false 0 kN)) with (_wasGrounded kN).
    rewrite Hwg; reflexivity. }
  rewrite Hfollow.
  assert (Hjump : jump (setInput (-1) 0 false 0 kN)
                  = set_jumpPressed false (setInput (-1) 0 false 0 kN)).
  { unfold jump.
    change (_grounded (setInput (-1) 0 false 0 kN)) with (_grounded kN).
    rewrite Hgr; reflexivity. }
  rewrite Hjump.
  apply push_left_displacement; assumption || reflexivity.
Qed.

(** C1 - the steep normal is cleared before it is read.  With the
    default attributes, a controller falling onto a steep ramp stores
    the ramp's normal during the vertical pass of tick N, but the tick
    ends with the field cleared.  In tick N+1, with the input pushing
    up the ramp, the displacement handed to the horizontal pass is the
    raw input displacement (-0.6, 0, 0): its uphill component 3/13 is
    still there, although clamping against the ramp's normal would
    have changed it. *)
Theorem steep_normal_cleared_before_clamp :
  _steepNormal (l_kcc (verticalPass rampWorld (1 / 10) kcc0)) = Some rampNormal /\
  _steepNormal (tick rampWorld (1 / 10) kcc0) = None /\
  desiredHoriz rampWorld (1 / 10)
    (setInput (-1) 0 false 0 (tick rampWorld (1 / 10) kcc0))
    = Vec3.mk (- (6 / 10)) 0 0 /\
  Vec3.dot (Vec3.mk (- (6 / 10)) 0 0)
           (Vec3.normalize (projectOnPlane Vec3.UP rampNormal)) = 3 / 13 /\
  clampUphill (Some rampNormal) (Vec3.mk (- (6 / 10)) 0 0)
    <> Vec3.mk (- (6 / 10)) 0 0.
Proof.
  split; [exact ramp_vertical_pass |].
  split; [apply ramp_tick_state |].
  split; [exact ramp_next_tick_displacement |].
  assert (Hup : Vec3.dot (Vec3.mk (- (6 / 10)) 0 0)
                  (Vec3.normalize (projectOnPlane Vec3.UP rampNormal)) = 3 / 13).
  { rewrite ramp_upDir; unfold Vec3.dot; cbn; field. }
  split; [exact Hup |].
  unfold clampUphill; rewrite Hup.
  destruct (Rgt_dec (3 / 13) 0) as [_ | Hno]; [| lra].
  rewrite ramp_upDir; intros Heq.
  apply (f_equal Vec3.y) in Heq; cbn in Heq; lra.
Qed.

(** ** Ground snap, concretely *)

(** A vertical pass through open space. *)
Lemma verticalPass_free {Quat : Type} {E : Engine Quat} (app : @World Quat)
    (dt : R) (k : @KCC Quat) :
  Rabs (_velY (beforePasses app dt k) * dt) > EPS ->
  (1 <= maxIterations (attrs k))%nat ->
  ~ Vec3.lengthSq (Vec3.mk 0 (_velY (beforePasses app dt k) * dt) 0) < EPS ->
  sphereCast app (radius (attrs k)) (entityPosition (beforePasses app dt k))
    (Vec3.add (entityPosition (beforePasses app dt k))
              (Vec3.mk 0 (_velY (beforePasses app dt k) * dt) 0)) = None ->
  l_kcc (verticalPass app dt k) =
    set_groundCandidate None (set_grounded false (beforePasses app dt k)) /\
  l_pos (verticalPass app dt k) =
    Vec3.add (entityPosition (beforePasses app dt k))
             (Vec3.mk 0 (_velY (beforePasses app dt k) * dt) 0).
Proof.
  intros Hdv Hmax Hrem Hfree.
  unfold verticalPass; cbv zeta.
  destruct (Rgt_dec (Rabs _) EPS) as [_ | Hno]; [| contradiction].
  unfold sweep.
  assert (Ha : attrs (set_groundCandidate None
                        (set_grounded false (beforePasses app dt k))) = attrs k)
    by (unfold beforePasses; apply early_attrs).
  rewrite Ha.
  destruct (maxIterations (attrs k)) as [| m]; [lia |].
  rewrite sweepLoop_S_eq, sweepRound_nohit.
  - split; reflexivity.
  - exact Hrem.
  - cbn [l_kcc l_pos l_remaining]; rewrite Ha; exact Hfree.
Qed.

(** With both axes at zero there is no input displacement. *)
Lemma inputDisplacement_idle {Quat : Type} {E : Engine Quat} (dt : R)
    (k : @KCC Quat) :
  _horizontal k = 0 -> _vertical k = 0 ->
  inputDisplacement dt k = Vec3.mk 0 0 0.
Proof.
  intros Hh Hv; unfold inputDisplacement, horizDir; rewrite Hh, Hv.
  destruct (Req_dec_T 0 0) as [_ | Hno]; [| contradiction].
  apply vec3_eq; unfold Vec3.mulScalar;
    cbn [Vec3.x Vec3.y Vec3.z Vec3.ZERO]; ring.
Qed.

(** The fresh controller falls for 1/60 s above the floor at
    y = -1/10: the vertical pass is free and moves it down by
    981/360000, and there is no horizontal pass. *)
Lemma floor_passes :
  _grounded (t_kcc (movePasses floorBelow (1 / 60) kcc0)) = false /\
  _velY (t_kcc (movePasses floorBelow (1 / 60) kcc0)) = - (981 / 6000) /\
  attrs (t_kcc (movePasses floorBelow (1 / 60) kcc0)) = defaultAttributes /\
  t_pos (movePasses floorBelow (1 / 60) kcc0) = Vec3.mk 0 (- (981 / 360000)) 0.
Proof.
  assert (Hb : beforePasses floorBelow (1 / 60) kcc0
               = applyGravity (1 / 60) (set_jumpPressed false kcc0))
    by (unfold beforePasses; rewrite kcc0_early; reflexivity).
  assert (Hvel : _velY (beforePasses floorBelow (1 / 60) kcc0) * (1 / 60)
                 = - (981 / 360000)).
  { rewrite Hb; cbn [applyGravity set_velY set_jumpPressed kcc0 initialize
                     _velY attrs gravity defaultAttributes]; field. }
  assert (Hpos : entityPosition (beforePasses floorBelow (1 / 60) kcc0)
                 = Vec3.ZERO) by (rewrite Hb; reflexivity).
  destruct (verticalPass_free floorBelow (1 / 60) kcc0) as [Hk Hp].
  - rewrite Hvel, Rabs_left by lra; unfold EPS; lra.
  - cbn; lia.
  - rewrite Hvel; unfold Vec3.lengthSq, EPS; cbn [Vec3.x Vec3.y Vec3.z]; lra.
  - rewrite Hvel, Hpos; cbn [floorBelow sphereCast Vec3.add Vec3.ZERO Vec3.y].
    rdec; reflexivity.
  - assert (Hd : desiredHoriz floorBelow (1 / 60) kcc0 = Vec3.mk 0 0 0).
    { unfold desiredHoriz; rewrite kcc0_early; cbv zeta.
      apply inputDisplacement_idle; reflexivity. }
    unfold movePasses, horizontalPass; cbv zeta; rewrite Hd.
    destruct (Rgt_dec (Vec3.lengthSq (Vec3.mk 0 0 0)) EPS) as [Hbig | _].
    { exfalso; revert Hbig; unfold Vec3.lengthSq, EPS;
        cbn [Vec3.x Vec3.y Vec3.z]; lra. }
    cbn [t_kcc t_pos l_kcc l_pos]; rewrite Hk, Hp, Hvel, Hpos, Hb.
    split; [reflexivity |].
    split; [cbn [_velY set_steepNormal set_groundCandidate set_grounded
                 applyGravity set_velY set_jumpPressed kcc0 initialize attrs
                 gravity defaultAttributes]; field |].
    split; [reflexivity |].
    apply vec3_eq; cbn [Vec3.add Vec3.ZERO Vec3.x Vec3.y Vec3.z]; ring.
Qed.

(** The probe of that tick reaches the floor. *)
Lemma floor_probe :
  snapAttempted (t_kcc (movePasses floorBelow (1 / 60) kcc0)) = true /\
  exists snapHit,
    sphereCast floorBelow
      (radius (attrs (t_kcc (movePasses floorBelow (1 / 60) kcc0))))
      (t_pos (movePasses floorBelow (1 / 60) kcc0))
      (snapTarget (t_kcc (movePasses floorBelow (1 / 60) kcc0))
                  (t_pos (movePasses floorBelow (1 / 60) kcc0)))
      = Some snapHit /\
    entity snapHit = 1%nat /\
    walkable (attrs (t_kcc (movePasses floorBelow (1 / 60) kcc0)))
             (normal snapHit) = true.
Proof.
  destruct floor_passes as (Hg & Hv & Ha & Hp).
  split.
  - apply snapAttempted_iff; rewrite Hg, Hv, Ha; cbn [groundSnap defaultAttributes].
    repeat split; lra.
  - rewrite snapTarget_down, Hp, Ha.
    cbn [floorBelow sphereCast Vec3.x Vec3.y Vec3.z groundSnap defaultAttributes].
    destruct (Rlt_dec _ (- (1 / 10))) as [_ | Hno]; [| exfalso; lra].
    eexists; split; [reflexivity |].
    split; [reflexivity |].
    apply walkable_UP; cbn; lra.
Qed.

(** That tick ends grounded on entity 1. *)
Lemma floor_tick_ground :
  _grounded (tick floorBelow (1 / 60) kcc0) = true /\
  _groundEntity (tick floorBelow (1 / 60) kcc0) = Some 1%nat.
Proof.
  destruct floor_probe as (Ha & snapHit & Hcast & Hent & Hwalk).
  unfold tick, update.
  destruct (commit_footing floorBelow
              (groundSnapProbe floorBelow (movePasses floorBelow (1 / 60) kcc0)))
    as (Hg & _ & He & _).
  rewrite Hg, He, (groundSnapProbe_hit _ _ snapHit Ha Hcast Hwalk).
  cbn [t_kcc _grounded _groundCandidate set_groundCandidate set_grounded].
  rewrite Hent; split; reflexivity.
Qed.

(** C7, witness: the tick above the floor at y = -1/10.  The probe is
    attempted, hits the floor, and the tick ends grounded on it. *)
Lemma ground_snap_contract_witness :
  t_snap (update floorBelow (1 / 60) kcc0) <> [] /\
  _grounded (tick floorBelow (1 / 60) kcc0) = true /\
  exists snapHit,
    t_pos (groundSnapProbe floorBelow (movePasses floorBelow (1 / 60) kcc0)) =
    Vec3.mk (Vec3.x (t_pos (movePasses floorBelow (1 / 60) kcc0)))
            (Vec3.y (t_pos (movePasses floorBelow (1 / 60) kcc0))
             - clamp (hitFraction snapHit
                      * groundSnap (attrs (t_kcc (movePasses floorBelow (1 / 60) kcc0))))
                     0
                     (groundSnap (attrs (t_kcc (movePasses floorBelow (1 / 60) kcc0)))))
            (Vec3.z (t_pos (movePasses floorBelow (1 / 60) kcc0))).
Proof.
  destruct (ground_snap_contract floorBelow (1 / 60) kcc0)
    as (Hiff & _ & _ & Hhit).
  destruct floor_probe as (Ha & snapHit & Hcast & _ & Hwalk).
  assert (Hne : t_snap (update floorBelow (1 / 60) kcc0) <> [])
    by (apply Hiff, snapAttempted_iff; exact Ha).
  destruct (Hhit snapHit Hne Hcast Hwalk) as (Hpos & _ & Hgr & _).
  split; [exact Hne |].
  split; [exact Hgr |].
  exists snapHit; exact Hpos.
Defined.

(** C10, witness: the same tick ends grounded on entity 1, remembered
    together with its pose; a tick through open space ends with
    nothing remembered. *)
Lemma ground_memory_is_fresh_witness :
  (_grounded (tick floorBelow (1 / 60) kcc0) = true /\
   hitAmong floorBelow (attrs kcc0) (tickCasts (update floorBelow (1 / 60) kcc0))
            1%nat /\
   _groundPrevPos (tick floorBelow (1 / 60) kcc0) = getPosition floorBelow 1%nat) /\
  (_grounded (tick emptyWorld (1 / 60) kcc0) = false ->
   _groundEntity (tick emptyWorld (1 / 60) kcc0) = None).
Proof.
  destruct (ground_memory_is_fresh floorBelow (1 / 60) kcc0) as (_ & _ & Hsome).
  destruct (ground_memory_is_fresh emptyWorld (1 / 60) kcc0) as (_ & Hnone & _).
  destruct floor_tick_ground as [_ He].
  destruct (Hsome 1%nat He) as (Hg & Hhit & Hp & _).
  split; [split; [exact Hg | split; [exact Hhit | exact Hp]] |].
  intros Hfalse; apply (Hnone Hfalse).
Defined.

(* ================================================================== *)
(** * Further properties of the code *)

(** ** The helpers of kccUtils.mjs *)

(** X1 - [clamp] with ordered bounds: the result lies between the
    bounds, a value below the lower bound gives the lower bound, a
    value above the upper bound gives the upper bound, a value in range
    is returned unchanged, and clamping twice is clamping once. *)
Theorem clamp_contract (v lo hi : R) :
  lo <= hi ->
  lo <= clamp v lo hi <= hi /\
  (v <= lo -> clamp v lo hi = lo) /\
  (hi <= v -> clamp v lo hi = hi) /\
  (lo <= v <= hi -> clamp v lo hi = v) /\
  clamp (clamp v lo hi) lo hi = clamp v lo hi.
Proof.
  intros Hle.
  assert (Hcases : forall w, lo <= clamp w lo hi <= hi /\
                             (w <= lo -> clamp w lo hi = lo) /\
                             (hi <= w -> clamp w lo hi = hi) /\
                             (lo <= w <= hi -> clamp w lo hi = w)).
  { intros w; unfold clamp, Rmax, Rmin.
    destruct (Rle_dec hi w); destruct (Rle_dec lo _); repeat split; intros; lra. }
  destruct (Hcases v) as (Hb & Hlo & Hhi & Hin).
  repeat split; try (apply Hb); try assumption.
  apply Hcases; exact Hb.
Qed.

(** X1, witness: clamping 3/2 and -1 into [0, 1]. *)
Lemma clamp_contract_witness :
  clamp (3 / 2) 0 1 = 1 /\ clamp (-1) 0 1 = 0.
Proof.
  destruct (clamp_contract (3 / 2) 0 1) as (_ & _ & Hhi & _); [lra |].
  destruct (clamp_contract (-1) 0 1) as (_ & Hlo & _); [lra |].
  split; [apply Hhi; lra | apply Hlo; lra].
Defined.

Lemma lengthSq_dot (v : Vec3.t) : Vec3.lengthSq v = Vec3.dot v v.
Proof. reflexivity. Qed.

(** The projection written with the component along the normal. *)
Lemma projectOnPlane_formula (v n : Vec3.t) :
  ~ Vec3.lengthSq n < EPS ->
  projectOnPlane v n =
  Vec3.sub v (Vec3.mulScalar n (Vec3.dot v n / Vec3.lengthSq n)).
Proof.
  intros Hn; unfold projectOnPlane.
  destruct (Rlt_dec (Vec3.lengthSq n) EPS); [contradiction | reflexivity].
Qed.

(** X2 - [projectOnPlane] on a normal of squared length at least EPS:
    the result has no component along the normal, projecting twice is
    projecting once, and the squared length of the input splits into
    that of the projection and that of the removed component, so the
    projection is never longer than the input. *)
Theorem projectOnPlane_contract (v n : Vec3.t) :
  ~ Vec3.lengthSq n < EPS ->
  Vec3.dot (projectOnPlane v n) n = 0 /\
  projectOnPlane (projectOnPlane v n) n = projectOnPlane v n /\
  Vec3.lengthSq v =
    Vec3.lengthSq (projectOnPlane v n)
    + Vec3.dot v n * Vec3.dot v n / Vec3.lengthSq n /\
  Vec3.lengthSq (projectOnPlane v n) <= Vec3.lengthSq v.
Proof.
  intros Hn.
  pose proof EPS_pos as Heps.
  assert (Hm : Vec3.lengthSq n <> 0) by lra.
  assert (Hmpos : 0 < Vec3.lengthSq n) by lra.
  pose proof (projectOnPlane_normal v n Hn) as Horth.
  assert (Hsplit : Vec3.lengthSq v =
            Vec3.lengthSq (projectOnPlane v n)
            + Vec3.dot v n * Vec3.dot v n / Vec3.lengthSq n).
  { rewrite (projectOnPlane_formula v n Hn).
    unfold Vec3.lengthSq, Vec3.dot, Vec3.sub, Vec3.mulScalar in *;
      cbn [Vec3.x Vec3.y Vec3.z]; field; exact Hm. }
  split; [exact Horth |].
  split.
  - rewrite (projectOnPlane_formula (projectOnPlane v n) n Hn), Horth.
    apply vec3_eq; unfold Vec3.sub, Vec3.mulScalar;
      cbn [Vec3.x Vec3.y Vec3.z]; field; exact Hm.
  - split; [exact Hsplit |].
    assert (0 <= Vec3.dot v n * Vec3.dot v n / Vec3.lengthSq n).
    { apply Rmult_le_pos; [nra | left; apply Rinv_0_lt_compat; exact Hmpos]. }
    lra.
Qed.

(** X2, witness: projecting (1, 2, 3) on the plane of the up vector. *)
Lemma projectOnPlane_contract_witness :
  Vec3.dot (projectOnPlane (Vec3.mk 1 2 3) Vec3.UP) Vec3.UP = 0 /\
  Vec3.lengthSq (projectOnPlane (Vec3.mk 1 2 3) Vec3.UP)
    <= Vec3.lengthSq (Vec3.mk 1 2 3).
Proof.
  destruct (projectOnPlane_contract (Vec3.mk 1 2 3) Vec3.UP)
    as (H0 & _ & _ & Hle).
  - unfold Vec3.lengthSq, Vec3.UP, EPS; cbn [Vec3.x Vec3.y Vec3.z]; lra.
  - split; [exact H0 | exact Hle].
Defined.

(** ** The step to impact *)

Lemma length_nonneg (v : Vec3.t) : 0 <= Vec3.length v.
Proof. unfold Vec3.length; apply sqrt_pos. Qed.

Lemma length_pos (v : Vec3.t) : 0 < Vec3.lengthSq v -> 0 < Vec3.length v.
Proof. intros H; unfold Vec3.length; apply sqrt_lt_R0; exact H. Qed.

Lemma length_sq (v : Vec3.t) : Vec3.length v * Vec3.length v = Vec3.lengthSq v.
Proof. unfold Vec3.length; apply sqrt_sqrt, lengthSq_nonneg. Qed.

Lemma normalize_scale (v : Vec3.t) :
  0 < Vec3.lengthSq v ->
  Vec3.normalize v = Vec3.mulScalar v (1 / Vec3.length v).
Proof.
  intros H; unfold Vec3.normalize.
  destruct (Rgt_dec (Vec3.lengthSq v) 0) as [_ | Hno]; [reflexivity | lra].
Qed.

Lemma lengthSq_mulScalar (v : Vec3.t) (c : R) :
  Vec3.lengthSq (Vec3.mulScalar v c) = c * c * Vec3.lengthSq v.
Proof. unfold Vec3.lengthSq, Vec3.mulScalar; cbn [Vec3.x Vec3.y Vec3.z]; ring. Qed.

(** A normalised non-zero vector has unit length. *)
Lemma normalize_unit (v : Vec3.t) :
  0 < Vec3.lengthSq v -> Vec3.lengthSq (Vec3.normalize v) = 1.
Proof.
  intros H.
  pose proof (length_pos v H) as Hq.
  rewrite (normalize_scale v H), lengthSq_mulScalar, <- (length_sq v).
  field; lra.
Qed.

(** The distance stepped never exceeds the distance asked for. *)
Lemma stepDist_bounds (a : Attributes) (rem : Vec3.t) (hit : ConvexCastResult) :
  0 <= skin a -> 0 <= stepDist a rem hit <= Vec3.length rem.
Proof.
  intros Hskin; unfold stepDist.
  pose proof (length_nonneg rem) as Hlen.
  pose proof (clamp_bounds (hitFraction hit * Vec3.length rem) 0
                (Vec3.length rem) Hlen) as [Hc0 Hc1].
  unfold Rmax; destruct (Rle_dec _ 0); lra.
Qed.

(** X3 - the step to just before impact.  With a non-negative skin the
    position moves along the remaining displacement by a fraction of it
    between 0 and 1, whatever hit fraction the world returned (in or
    out of [0, 1]): it never moves backwards and never past the end of
    the swept segment. *)
Theorem stepToImpact_within_segment (a : Attributes) (pos rem : Vec3.t)
    (hit : ConvexCastResult) :
  0 <= skin a ->
  0 < Vec3.lengthSq rem ->
  0 <= stepDist a rem hit <= Vec3.length rem /\
  exists t, 0 <= t <= 1 /\
            stepToImpact a pos rem hit = Vec3.add pos (Vec3.mulScalar rem t).
Proof.
  intros Hskin Hrem.
  pose proof (stepDist_bounds a rem hit Hskin) as [Hd0 Hd1].
  pose proof (length_pos rem Hrem) as Hq.
  split; [split; assumption |].
  unfold stepToImpact.
  destruct (Rgt_dec (stepDist a rem hit) EPS) as [Hbig | Hsmall].
  - exists (stepDist a rem hit / Vec3.length rem); split.
    + split.
      * apply Rmult_le_pos; [exact Hd0 | left; apply Rinv_0_lt_compat; exact Hq].
      * apply Rmult_le_reg_r with (Vec3.length rem); [exact Hq |].
        unfold Rdiv; rewrite Rmult_assoc, Rinv_l by lra; lra.
    + rewrite (normalize_scale rem Hrem).
      f_equal; apply vec3_eq; unfold Vec3.mulScalar; cbn [Vec3.x Vec3.y Vec3.z];
        field; lra.
  - exists 0; split; [lra |].
    apply vec3_eq; unfold Vec3.add, Vec3.mulScalar; cbn [Vec3.x Vec3.y Vec3.z];
      ring.
Qed.

(** X3, witness: the default controller stepping towards the wall hit
    of the plane-wall world. *)
Lemma stepToImpact_within_segment_witness :
  exists t, 0 <= t <= 1 /\
    stepToImpact defaultAttributes Vec3.ZERO (Vec3.mk (-3) 0 4) wallHit
    = Vec3.add Vec3.ZERO (Vec3.mulScalar (Vec3.mk (-3) 0 4) t).
Proof.
  destruct (stepToImpact_within_segment defaultAttributes Vec3.ZERO
              (Vec3.mk (-3) 0 4) wallHit) as [_ Ht].
  - cbn; lra.
  - unfold Vec3.lengthSq; cbn [Vec3.x Vec3.y Vec3.z]; lra.
  - exact Ht.
Defined.

Section LoopFacts.

Context {Quat : Type} {E : Engine Quat}.

Implicit Types (app : @World Quat) (k kcc : @KCC Quat) (s : @SweepLoop Quat).

(** ** What a pass does not do *)

(** X4 - a displacement of squared length below EPS, or a pass with no
    rounds, is dropped: [sweep] returns the start position, makes no
    query and assigns nothing to the controller. *)
Theorem sweep_nothing_to_do app kcc (pos disp : Vec3.t) (v : bool) :
  Vec3.lengthSq disp < EPS \/ maxIterations (attrs kcc) = O ->
  sweep app kcc pos disp v = mkLoop kcc pos disp None None [].
Proof.
  intros [Hsmall | Hzero]; unfold sweep.
  - destruct (maxIterations (attrs kcc)) as [| n]; [reflexivity |].
    rewrite sweepLoop_S_eq, sweepRound_converged by exact Hsmall.
    reflexivity.
  - rewrite Hzero; reflexivity.
Qed.

Lemma resolveHit_horizontal_keeps casts s hit :
  _velY (l_kcc (snd (resolveHit false s casts hit))) = _velY (l_kcc s) /\
  _steepNormal (l_kcc (snd (resolveHit false s casts hit)))
    = _steepNormal (l_kcc s).
Proof.
  unfold resolveHit.
  destruct (walkable _ _); [split; reflexivity |].
  destruct (recordWall _ _ _) as [[n1 |] [n2 |]]; split; reflexivity.
Qed.

Lemma resolveHit_vertical_walls casts s hit :
  l_wallN1 (snd (resolveHit true s casts hit)) = l_wallN1 s /\
  l_wallN2 (snd (resolveHit true s casts hit)) = l_wallN2 s.
Proof.
  unfold resolveHit.
  destruct (Rgt_dec _ 0); [split; reflexivity |].
  destruct (Rlt_dec _ 0); [destruct (walkable _ _) |]; split; reflexivity.
Qed.

(** A property of the loop variables that every round keeps is kept by
    the loop. *)
Lemma sweepLoop_invariant (P : @SweepLoop Quat -> Prop) app (v : bool) :
  (forall s, P s -> P (snd (sweepRound app v s))) ->
  forall n s, P s -> P (sweepLoop app v n s).
Proof.
  intros Hstep; induction n as [| n IH]; intros s Hs; [exact Hs |].
  rewrite sweepLoop_S_eq.
  specialize (Hstep s Hs).
  destruct (sweepRound app v s) as [[|] s']; cbn [snd] in Hstep.
  - exact Hstep.
  - apply IH; exact Hstep.
Qed.

Lemma sweepRound_cases (P : @SweepLoop Quat -> Prop) app (v : bool) s :
  P s ->
  P (mkLoop (l_kcc s) (Vec3.add (l_pos s) (l_remaining s)) (l_remaining s)
            (l_wallN1 s) (l_wallN2 s) (l_casts s ++ [roundCast s])) ->
  (forall hit, roundHit app s = Some hit ->
               P (snd (resolveHit v s (l_casts s ++ [roundCast s]) hit))) ->
  P (snd (sweepRound app v s)).
Proof.
  intros Hconv Hfree Hhit; unfold sweepRound.
  destruct (Rlt_dec _ EPS); [exact Hconv |].
  destruct (sphereCast app _ _ _) as [hit |] eqn:Hc.
  - apply Hhit; exact Hc.
  - exact Hfree.
Qed.

(** X5 - the two passes keep to their own state.  The horizontal pass
    never assigns the vertical velocity or the steep normal; the
    vertical pass never records a wall normal. *)
Theorem passes_keep_apart app kcc (pos disp : Vec3.t) :
  _velY (l_kcc (sweep app kcc pos disp false)) = _velY kcc /\
  _steepNormal (l_kcc (sweep app kcc pos disp false)) = _steepNormal kcc /\
  l_wallN1 (sweep app kcc pos disp true) = None /\
  l_wallN2 (sweep app kcc pos disp true) = None.
Proof.
  unfold sweep.
  pose proof (sweepLoop_invariant
    (fun s => _velY (l_kcc s) = _velY kcc /\
              _steepNormal (l_kcc s) = _steepNormal kcc) app false) as Hh.
  pose proof (sweepLoop_invariant
    (fun s => l_wallN1 s = None /\ l_wallN2 s = None) app true) as Hv.
  assert (H1 : _velY (l_kcc (sweepLoop app false (maxIterations (attrs kcc))
                               (mkLoop kcc pos disp None None []))) = _velY kcc /\
               _steepNormal (l_kcc (sweepLoop app false (maxIterations (attrs kcc))
                               (mkLoop kcc pos disp None None []))) = _steepNormal kcc).
  { apply Hh; [| split; reflexivity].
    intros s [Ha Hb]; apply sweepRound_cases; [split; assumption.. |].
    intros hit _.
    destruct (resolveHit_horizontal_keeps (l_casts s ++ [roundCast s]) s hit)
      as [-> ->]; split; assumption. }
  assert (H2 : l_wallN1 (sweepLoop app true (maxIterations (attrs kcc))
                           (mkLoop kcc pos disp None None [])) = None /\
               l_wallN2 (sweepLoop app true (maxIterations (attrs kcc))
                           (mkLoop kcc pos disp None None [])) = None).
  { apply Hv; [| split; reflexivity].
    intros s [Ha Hb]; apply sweepRound_cases; [split; assumption.. |].
    intros hit _.
    destruct (resolveHit_vertical_walls (l_casts s ++ [roundCast s]) s hit)
      as [-> ->]; split; assumption. }
  destruct H1 as [H1a H1b]; destruct H2 as [H2a H2b].
  repeat split; assumption.
Qed.

End LoopFacts.

(** X4, witness: a displacement of length 1/100000 is dropped by the
    default controller, whatever the world. *)
Lemma sweep_nothing_to_do_witness :
  sweep ceilingWorld kcc0 Vec3.ZERO (Vec3.mk 0 (1 / 100000) 0) true
  = mkLoop kcc0 Vec3.ZERO (Vec3.mk 0 (1 / 100000) 0) None None [].
Proof.
  apply sweep_nothing_to_do; left.
  unfold Vec3.lengthSq, EPS; cbn [Vec3.x Vec3.y Vec3.z]; lra.
Defined.

(** ** The branches of the vertical pass *)

(** The fall that is left after a contact with a level surface has no
    part along the surface. *)
Lemma landingRemainder_level (dv : R) (hit : ConvexCastResult) :
  Vec3.x (normal hit) = 0 -> Vec3.z (normal hit) = 0 ->
  ~ Vec3.lengthSq (normal hit) < EPS ->
  landingRemainder (Vec3.mk 0 dv 0) hit = Vec3.ZERO.
Proof.
  intros Hx Hz Hn.
  assert (Hy : Vec3.y (normal hit) <> 0).
  { intros Hy; apply Hn; unfold Vec3.lengthSq; rewrite Hx, Hy, Hz.
    pose proof EPS_pos; lra. }
  assert (Hr : projectOnPlane (Vec3.mulScalar (Vec3.mk 0 dv 0)
                                 (1 - hitFraction hit)) (normal hit)
               = Vec3.ZERO).
  { rewrite projectOnPlane_formula by exact Hn.
    apply vec3_eq;
      unfold Vec3.sub, Vec3.mulScalar, Vec3.dot, Vec3.lengthSq, Vec3.ZERO;
      cbn [Vec3.x Vec3.y Vec3.z]; rewrite Hx, Hz;
      repeat split; field; exact Hy. }
  unfold landingRemainder; cbv zeta; rewrite Hr.
  destruct (Rlt_dec _ EPS); reflexivity.
Qed.

Lemma stepToImpact_vertical (a : Attributes) (pos : Vec3.t) (dv : R)
    (hit : ConvexCastResult) :
  Vec3.x (stepToImpact a pos (Vec3.mk 0 dv 0) hit) = Vec3.x pos /\
  Vec3.z (stepToImpact a pos (Vec3.mk 0 dv 0) hit) = Vec3.z pos.
Proof.
  unfold stepToImpact; cbv zeta.
  destruct (Rgt_dec _ EPS); [| split; reflexivity].
  unfold Vec3.normalize.
  destruct (Rgt_dec _ 0);
    unfold Vec3.add, Vec3.mulScalar; cbn [Vec3.x Vec3.y Vec3.z]; split; ring.
Qed.

Section VerticalBranches.

Context {Quat : Type} {E : Engine Quat}.

Implicit Types (app : @World Quat) (k kcc : @KCC Quat) (s : @SweepLoop Quat)
  (t : @Tick Quat).

(** The pass from its first round on, when that round makes a query. *)
Lemma sweep_first_round app kcc (pos disp : Vec3.t) (v : bool) (n : nat) :
  maxIterations (attrs kcc) = S n ->
  sweep app kcc pos disp v =
  match sweepRound app v (mkLoop kcc pos disp None None []) with
  | (Break, s') => s'
  | (Continue, s') => sweepLoop app v n s'
  end.
Proof. intros Hn; unfold sweep; rewrite Hn; apply sweepLoop_S_eq. Qed.

Lemma sweepLoop_done app (v : bool) (n : nat) s :
  Vec3.lengthSq (l_remaining s) < EPS -> sweepLoop app v n s = s.
Proof.
  intros Hz; destruct n as [| n]; [reflexivity |].
  rewrite sweepLoop_S_eq, sweepRound_converged by exact Hz; reflexivity.
Qed.

(** X6 - landing on level ground.  A vertical pass that moves down by
    at least the convergence threshold and whose first sweep hits a
    walkable surface with a vertical normal ends there: the controller
    is grounded on the hit entity with zero vertical velocity, one
    query was made, nothing is left to slide, and the position has
    moved along y only. *)
Theorem landing_on_level_ground app kcc (pos : Vec3.t) (dv : R)
    (hit : ConvexCastResult) :
  (1 <= maxIterations (attrs kcc))%nat ->
  dv < 0 -> EPS <= dv * dv ->
  sphereCast app (radius (attrs kcc)) pos (Vec3.add pos (Vec3.mk 0 dv 0))
    = Some hit ->
  walkable (attrs kcc) (normal hit) = true ->
  Vec3.x (normal hit) = 0 -> Vec3.z (normal hit) = 0 ->
  ~ Vec3.lengthSq (normal hit) < EPS ->
  sweep app kcc pos (Vec3.mk 0 dv 0) true =
    mkLoop (set_velY 0
              (set_groundCandidate (Some (entity hit))
                 (set_grounded true kcc)))
           (stepToImpact (attrs kcc) pos (Vec3.mk 0 dv 0) hit)
           Vec3.ZERO None None
           [(pos, Vec3.add pos (Vec3.mk 0 dv 0))] /\
  Vec3.x (l_pos (sweep app kcc pos (Vec3.mk 0 dv 0) true)) = Vec3.x pos /\
  Vec3.z (l_pos (sweep app kcc pos (Vec3.mk 0 dv 0) true)) = Vec3.z pos.
Proof.
  intros Hmax Hdv Hbig Hcast Hwalk Hx Hz Hn.
  assert (Hrun :
    sweep app kcc pos (Vec3.mk 0 dv 0) true =
    mkLoop (set_velY 0
              (set_groundCandidate (Some (entity hit))
                 (set_grounded true kcc)))
           (stepToImpact (attrs kcc) pos (Vec3.mk 0 dv 0) hit)
           Vec3.ZERO None None
           [(pos, Vec3.add pos (Vec3.mk 0 dv 0))]).
  { destruct (maxIterations (attrs kcc)) as [| n] eqn:Hn'; [lia |].
    rewrite (sweep_first_round app kcc pos _ true n Hn').
    rewrite (sweepRound_hit app true _ hit).
    - unfold resolveHit; cbn [l_kcc l_pos l_remaining l_wallN1 l_wallN2
                               l_casts Vec3.y List.app].
      destruct (Rgt_dec dv 0) as [Hup | _]; [lra |].
      destruct (Rlt_dec dv 0) as [_ | Hno]; [| contradiction].
      rewrite Hwalk, (landingRemainder_level dv hit Hx Hz Hn).
      apply sweepLoop_done; cbn [l_remaining].
      rewrite lengthSq_ZERO; apply EPS_pos.
    - cbn [l_remaining]; unfold Vec3.lengthSq; cbn [Vec3.x Vec3.y Vec3.z].
      lra.
    - exact Hcast. }
  split; [exact Hrun |].
  rewrite Hrun; cbn [l_pos]; apply stepToImpact_vertical.
Qed.

End VerticalBranches.

(** X6, witness: the default controller dropping by one unit onto the
    floor world. *)
Lemma landing_on_level_ground_witness :
  sweep floorWorld kcc0 Vec3.ZERO (Vec3.mk 0 (-1) 0) true =
    mkLoop (set_velY 0
              (set_groundCandidate (Some (entity floorHit))
                 (set_grounded true kcc0)))
           (stepToImpact (attrs kcc0) Vec3.ZERO (Vec3.mk 0 (-1) 0) floorHit)
           Vec3.ZERO None None
           [(Vec3.ZERO, Vec3.add Vec3.ZERO (Vec3.mk 0 (-1) 0))].
Proof.
  apply (landing_on_level_ground floorWorld kcc0 Vec3.ZERO (-1) floorHit).
  - cbn; lia.
  - lra.
  - unfold EPS; lra.
  - reflexivity.
  - apply walkable_UP; cbn; lra.
  - reflexivity.
  - reflexivity.
  - unfold Vec3.lengthSq, EPS; cbn; lra.
Defined.

(** The squared length of the downhill direction of a unit normal. *)
Lemma downhill_lengthSq (n : Vec3.t) :
  Vec3.lengthSq n = 1 ->
  Vec3.lengthSq (projectOnPlane Vec3.DOWN n) = 1 - Vec3.y n * Vec3.y n.
Proof.
  intros Hone; rewrite (projectOnPlane_unit _ n Hone).
  unfold Vec3.lengthSq in *; unfold Vec3.sub, Vec3.mulScalar, Vec3.dot, Vec3.DOWN.
  cbn [Vec3.x Vec3.y Vec3.z] in *.
  nra.
Qed.

Lemma unit_y_bound (n : Vec3.t) :
  Vec3.lengthSq n = 1 -> -1 <= Vec3.y n <= 1.
Proof.
  unfold Vec3.lengthSq; intros H.
  pose proof (Rle_0_sqr (Vec3.x n)); pose proof (Rle_0_sqr (Vec3.z n)).
  unfold Rsqr in *; split; nra.
Qed.

(** X7 - the slide down a steep slope.  For a unit contact normal and
    a remainder that points down, the remainder after the steep branch
    is the rest of the fall projected on the slope plane plus the skin
    push-out along the normal: the sine scaling and the normalised
    downhill direction cancel.  Its component along the normal is
    therefore exactly the skin. *)
Theorem steep_slide_is_projected_fall (a : Attributes) (rem : Vec3.t)
    (hit : ConvexCastResult) :
  Vec3.lengthSq (normal hit) = 1 ->
  Vec3.y rem < 0 ->
  steepRemainder a rem hit =
    Vec3.add
      (projectOnPlane
         (Vec3.mulScalar (Vec3.mk 0 (Vec3.y rem) 0) (1 - hitFraction hit))
         (normal hit))
      (Vec3.mulScalar (normal hit) (skin a)) /\
  Vec3.dot (steepRemainder a rem hit) (normal hit) = skin a.
Proof.
  intros Hone Hdown.
  pose proof (unit_y_bound _ Hone) as Hy.
  pose proof (downhill_lengthSq _ Hone) as Hlen.
  assert (Hc : cosTheta (normal hit) = Vec3.y (normal hit))
    by (unfold cosTheta; rewrite dot_UP; apply clamp_id; exact Hy).
  assert (Hs : 0 <= 1 - Vec3.y (normal hit) * Vec3.y (normal hit)) by nra.
  assert (Heq :
    steepRemainder a rem hit =
    Vec3.add
      (projectOnPlane
         (Vec3.mulScalar (Vec3.mk 0 (Vec3.y rem) 0) (1 - hitFraction hit))
         (normal hit))
      (Vec3.mulScalar (normal hit) (skin a))).
  { unfold steepRemainder; cbv zeta; f_equal.
    rewrite Hc, Rmax_left by lra.
    rewrite Rabs_left by exact Hdown.
    rewrite (projectOnPlane_unit (Vec3.mulScalar _ _) _ Hone).
    destruct (Rgt_dec (Vec3.lengthSq (projectOnPlane Vec3.DOWN (normal hit))) 0)
      as [Hpos | Hzero].
    - rewrite (normalize_scale _ Hpos).
      unfold Vec3.length; rewrite Hlen.
      rewrite Hlen in Hpos.
      pose proof (sqrt_lt_R0 _ Hpos) as Hq.
      rewrite (projectOnPlane_unit _ _ Hone).
      apply vec3_eq;
        unfold Vec3.sub, Vec3.mulScalar, Vec3.dot, Vec3.DOWN;
        cbn [Vec3.x Vec3.y Vec3.z]; repeat split; field; lra.
    - rewrite Hlen in Hzero.
      assert (Hz : 1 - Vec3.y (normal hit) * Vec3.y (normal hit) = 0) by lra.
      rewrite Hz, sqrt_0.
      assert (Hxz : Vec3.x (normal hit) = 0 /\ Vec3.z (normal hit) = 0).
      { unfold Vec3.lengthSq in Hone.
        pose proof (Rle_0_sqr (Vec3.x (normal hit))) as Hx2.
        pose proof (Rle_0_sqr (Vec3.z (normal hit))) as Hz2.
        unfold Rsqr in *.
        assert (Hx0 : Vec3.x (normal hit) * Vec3.x (normal hit) = 0) by lra.
        assert (Hz0 : Vec3.z (normal hit) * Vec3.z (normal hit) = 0) by lra.
        split; apply Rsqr_0_uniq; assumption. }
      destruct Hxz as [Hx0 Hz0].
      apply vec3_eq;
        unfold Vec3.sub, Vec3.mulScalar, Vec3.dot;
        cbn [Vec3.x Vec3.y Vec3.z]; rewrite Hx0, Hz0; repeat split; try ring.
      (* the y component *)
      replace (0 * (1 - hitFraction hit) * 0
               + Vec3.y rem * (1 - hitFraction hit) * Vec3.y (normal hit)
               + 0 * (1 - hitFraction hit) * 0)
        with (Vec3.y rem * (1 - hitFraction hit) * Vec3.y (normal hit)) by ring.
      transitivity (Vec3.y rem * (1 - hitFraction hit)
                    * (1 - Vec3.y (normal hit) * Vec3.y (normal hit)));
        [rewrite Hz; ring | ring]. }
  split; [exact Heq |].
  rewrite Heq, (projectOnPlane_unit _ _ Hone).
  unfold Vec3.lengthSq in Hone.
  unfold Vec3.add, Vec3.sub, Vec3.mulScalar, Vec3.dot;
    cbn [Vec3.x Vec3.y Vec3.z].
  set (nx := Vec3.x (normal hit)) in *; set (ny := Vec3.y (normal hit)) in *;
    set (nz := Vec3.z (normal hit)) in *.
  transitivity
    (skin a * (nx * nx + ny * ny + nz * nz)
     + Vec3.y rem * (1 - hitFraction hit) * ny
       * (1 - (nx * nx + ny * ny + nz * nz)));
    [ring | rewrite Hone; ring].
Qed.

(** X7, witness: the steep ramp hit, falling by 1/10. *)
Lemma steep_slide_is_projected_fall_witness :
  Vec3.dot (steepRemainder defaultAttributes (Vec3.mk 0 (- (1 / 10)) 0) rampHit)
           rampNormal
  = 1 / 100.
Proof.
  apply (steep_slide_is_projected_fall defaultAttributes
           (Vec3.mk 0 (- (1 / 10)) 0) rampHit).
  - unfold Vec3.lengthSq; cbn; field.
  - cbn; lra.
Defined.

Section TickStages.

Context {Quat : Type} {E : Engine Quat}.

Implicit Types (app : @World Quat) (k kcc : @KCC Quat) (s : @SweepLoop Quat)
  (t : @Tick Quat).

(** ** The stages of [update] after the passes *)

Lemma rememberGround_keeps app k :
  _velY (rememberGround app k) = _velY k /\
  _grounded (rememberGround app k) = _grounded k /\
  entityPosition (rememberGround app k) = entityPosition k.
Proof.
  unfold rememberGround.
  destruct (_grounded k) eqn:Hg; cbn [_groundEntity set_groundEntity].
  - destruct (_groundCandidate k); cbn; rewrite ?Hg; repeat split; reflexivity.
  - cbn; rewrite ?Hg; repeat split; reflexivity.
Qed.

(** What steps 9 to 12 leave in the velocity, the grounded flag and
    the position. *)
Lemma commit_outcome app t :
  _grounded (t_kcc (commit app t)) = _grounded (t_kcc t) /\
  _velY (t_kcc (commit app t)) =
    (if _grounded (t_kcc t) && (if Rlt_dec (_velY (t_kcc t)) 0 then true else false)
     then 0 else _velY (t_kcc t)) /\
  entityPosition (t_kcc (commit app t)) =
    (if _grounded (t_kcc t)
     then Vec3.add (t_pos t) (Vec3.mulScalar Vec3.UP (hover (attrs (t_kcc t))))
     else t_pos t) /\
  t_pos (commit app t) = entityPosition (t_kcc (commit app t)) /\
  t_snap (commit app t) = t_snap t.
Proof.
  unfold commit; cbv zeta; cbn [t_kcc t_pos t_snap].
  generalize (t_kcc t) (t_pos t); intros k pos.
  match goal with
  | |- context [rememberGround app ?x] =>
      destruct (rememberGround_keeps app x) as (-> & -> & ->)
  end.
  destruct k as [a vy h v j y g wg ge gp gr gc sn ep er].
  cbn [_grounded _velY setPosition entityPosition attrs].
  destruct g; cbn [andb].
  - destruct (Rlt_dec vy 0); cbn; repeat split; reflexivity.
  - cbn; repeat split; reflexivity.
Qed.

(** X8 - a grounded tick rests.  After any [update] the entity sits at
    the position the ground-snap step left, raised by [hover] exactly
    when the tick ended grounded; and a tick that ended grounded never
    leaves a downward vertical velocity. *)
Theorem grounded_tick_rests app (dt : R) k :
  entityPosition (tick app dt k) =
    (if _grounded (tick app dt k)
     then Vec3.add (t_pos (groundSnapProbe app (movePasses app dt k)))
                   (Vec3.mulScalar Vec3.UP (hover (attrs k)))
     else t_pos (groundSnapProbe app (movePasses app dt k))) /\
  (_grounded (tick app dt k) = true -> 0 <= _velY (tick app dt k)) /\
  (_grounded (tick app dt k) = false ->
   _velY (tick app dt k)
   = _velY (t_kcc (groundSnapProbe app (movePasses app dt k)))).
Proof.
  assert (Ha : attrs (t_kcc (groundSnapProbe app (movePasses app dt k)))
               = attrs k).
  { rewrite (groundSnapProbe_frame (@attrs Quat)) by apply frame_attrs.
    apply movePasses_attrs. }
  unfold tick, update.
  generalize dependent (groundSnapProbe app (movePasses app dt k)).
  intros p Ha.
  destruct (commit_outcome app p) as (Hg & Hv & Hp & _ & _).
  rewrite Hg, Hv, Hp, Ha.
  destruct (_grounded (t_kcc p)); cbn [andb].
  - split; [reflexivity |]; split; [| discriminate].
    intros _; destruct (Rlt_dec (_velY (t_kcc p)) 0); lra.
  - split; [reflexivity |]; split; [discriminate | reflexivity].
Qed.

(** ** A ceiling above *)

(** A reading that the horizontal pass leaves alone. *)
Lemma sweep_horizontal_keeps {T : Type} (f : @KCC Quat -> T) app kcc
    (pos disp : Vec3.t) :
  (forall v k, f (set_grounded v k) = f k) ->
  (forall v k, f (set_groundCandidate v k) = f k) ->
  f (l_kcc (sweep app kcc pos disp false)) = f kcc.
Proof.
  intros Hg Hc; unfold sweep.
  apply (sweepLoop_invariant (fun s => f (l_kcc s) = f kcc) app false);
    [| reflexivity].
  intros s Hs; apply sweepRound_cases; [exact Hs.. |].
  intros hit _; unfold resolveHit.
  destruct (walkable _ _); [cbn [snd l_kcc]; rewrite Hc, Hg; exact Hs |].
  destruct (recordWall _ _ _) as [[n1 |] [n2 |]]; exact Hs.
Qed.

Lemma horizontalPass_velY app (dt : R) k s :
  _velY (l_kcc (horizontalPass app dt k s)) = _velY (l_kcc s).
Proof.
  unfold horizontalPass.
  destruct (Rgt_dec _ EPS); [| reflexivity].
  apply sweep_horizontal_keeps; reflexivity.
Qed.

Lemma beforePasses_attrs app (dt : R) k : attrs (beforePasses app dt k) = attrs k.
Proof. unfold beforePasses, applyGravity; cbn [attrs set_velY]; apply early_attrs. Qed.

Lemma movePasses_velY app (dt : R) k :
  _velY (t_kcc (movePasses app dt k)) = _velY (l_kcc (verticalPass app dt k)).
Proof.
  unfold movePasses; cbv zeta; cbn [t_kcc].
  generalize (verticalPass app dt k); intros v.
  rewrite <- (horizontalPass_velY app dt k v).
  generalize (horizontalPass app dt k v); intros h; reflexivity.
Qed.

Lemma movePasses_snap app (dt : R) k : t_snap (movePasses app dt k) = [].
Proof. reflexivity. Qed.

(** The vertical pass on a ceiling strike in its first round. *)
Lemma verticalPass_ceiling app (dt : R) k (hit : ConvexCastResult) :
  _velY (beforePasses app dt k) * dt > 0 ->
  EPS <= (_velY (beforePasses app dt k) * dt)
         * (_velY (beforePasses app dt k) * dt) ->
  (1 <= maxIterations (attrs k))%nat ->
  sphereCast app (radius (attrs k)) (entityPosition (beforePasses app dt k))
    (Vec3.add (entityPosition (beforePasses app dt k))
              (Vec3.mk 0 (_velY (beforePasses app dt k) * dt) 0)) = Some hit ->
  verticalPass app dt k =
  mkLoop (set_velY 0
            (set_groundCandidate None
               (set_grounded false (beforePasses app dt k))))
         (stepToImpact (attrs k) (entityPosition (beforePasses app dt k))
            (Vec3.mk 0 (_velY (beforePasses app dt k) * dt) 0) hit)
         (Vec3.mk 0 (_velY (beforePasses app dt k) * dt) 0) None None
         [(entityPosition (beforePasses app dt k),
           Vec3.add (entityPosition (beforePasses app dt k))
                    (Vec3.mk 0 (_velY (beforePasses app dt k) * dt) 0))].
Proof.
  pose proof (beforePasses_attrs app dt k) as Ha.
  unfold verticalPass; cbv zeta.
  generalize dependent (beforePasses app dt k); intros kb Ha Hup Hbig Hmax Hcast.
  pose proof EPS_pos as Heps.
  destruct (Rgt_dec (Rabs (_velY kb * dt)) EPS) as [_ | Hno].
  2:{ exfalso; apply Hno; rewrite Rabs_right by lra.
      unfold EPS in *; nra. }
  assert (Ha' : attrs (set_groundCandidate None (set_grounded false kb))
                = attrs k) by exact Ha.
  destruct (maxIterations (attrs k)) as [| n] eqn:Hn; [lia |].
  rewrite (sweep_first_round app _ _ _ true n) by (rewrite Ha'; exact Hn).
  rewrite (sweepRound_hit app true _ hit).
  - unfold resolveHit;
      cbn [l_kcc l_pos l_remaining l_wallN1 l_wallN2 l_casts Vec3.y List.app].
    destruct (Rgt_dec (_velY kb * dt) 0) as [_ | Hno]; [| contradiction].
    rewrite Ha'; reflexivity.
  - cbn [l_remaining]; unfold Vec3.lengthSq; cbn [Vec3.x Vec3.y Vec3.z]; lra.
  - cbn [l_kcc l_pos l_remaining]; rewrite Ha'; exact Hcast.
Qed.

(** X9 - hitting a ceiling.  When the vertical step of a tick points
    up (by at least the convergence threshold) and its first sweep
    reports a hit, the vertical pass makes that one query and stops at
    the step to impact; the tick ends with zero vertical velocity and
    makes no ground-snap probe. *)
Theorem ceiling_strike_ends_rise app (dt : R) k (hit : ConvexCastResult) :
  _velY (beforePasses app dt k) * dt > 0 ->
  EPS <= (_velY (beforePasses app dt k) * dt)
         * (_velY (beforePasses app dt k) * dt) ->
  (1 <= maxIterations (attrs k))%nat ->
  sphereCast app (radius (attrs k)) (entityPosition (beforePasses app dt k))
    (Vec3.add (entityPosition (beforePasses app dt k))
              (Vec3.mk 0 (_velY (beforePasses app dt k) * dt) 0)) = Some hit ->
  t_vertical (update app dt k) =
    [(entityPosition (beforePasses app dt k),
      Vec3.add (entityPosition (beforePasses app dt k))
               (Vec3.mk 0 (_velY (beforePasses app dt k) * dt) 0))] /\
  l_pos (verticalPass app dt k) =
    stepToImpact (attrs k) (entityPosition (beforePasses app dt k))
      (Vec3.mk 0 (_velY (beforePasses app dt k) * dt) 0) hit /\
  _velY (tick app dt k) = 0 /\
  t_snap (update app dt k) = [].
Proof.
  intros Hup Hbig Hmax Hcast.
  pose proof (verticalPass_ceiling app dt k hit Hup Hbig Hmax Hcast) as Hv.
  pose proof (movePasses_velY app dt k) as Hvel.
  pose proof (movePasses_snap app dt k) as Hsnap.
  assert (Hvert : t_vertical (movePasses app dt k)
                  = l_casts (verticalPass app dt k)) by reflexivity.
  rewrite Hv in Hvel, Hvert |- *; cbn [l_kcc l_pos l_casts _velY set_velY] in *.
  unfold tick, update.
  generalize dependent (movePasses app dt k); intros m Hvel Hsnap Hvert.
  assert (Hno : snapAttempted (t_kcc m) = false).
  { unfold snapAttempted; rewrite Hvel.
    destruct (Rlt_dec 0 0) as [Hlt | _]; [lra |].
    rewrite andb_false_r; reflexivity. }
  destruct (groundSnapProbe_cases app m) as [[Hyes _] | [_ Hsame]];
    [rewrite Hyes in Hno; discriminate |].
  rewrite Hsame.
  destruct (commit_outcome app m) as (_ & Hcv & _ & _ & Hcs).
  rewrite Hcv, Hcs, Hvel, Hsnap.
  destruct (Rlt_dec 0 0) as [Hlt | _]; [lra |].
  rewrite andb_false_r.
  repeat split; try reflexivity.
  unfold commit; cbn [t_vertical]; exact Hvert.
Qed.

End TickStages.

Section EarlyStages.

Context {Quat : Type} {E : Engine Quat}.

Implicit Types (app : @World Quat) (k kcc : @KCC Quat) (s : @SweepLoop Quat)
  (t : @Tick Quat).

(** ** Steps 1 to 5 *)

(** Yaw and platform follow move and turn the entity only. *)
Lemma applyYaw_motion k :
  _velY (applyYaw k) = _velY k /\
  _grounded (applyYaw k) = _grounded k /\
  _jumpPressed (applyYaw k) = _jumpPressed k /\
  entityPosition (applyYaw k) = entityPosition k.
Proof. unfold applyYaw; destruct (Rgt_dec _ EPS); repeat split. Qed.

Lemma followGround_motion app k :
  _velY (followGround app k) = _velY k /\
  _grounded (followGround app k) = _grounded k /\
  _jumpPressed (followGround app k) = _jumpPressed k.
Proof.
  unfold followGround.
  destruct (_wasGrounded k); [destruct (_groundEntity k) |]; repeat split.
Qed.

Lemma jump_cases k :
  _velY (jump k) =
    (if _grounded k && _jumpPressed k then jumpSpeed (attrs k) else _velY k) /\
  _grounded (jump k) = (_grounded k && negb (_jumpPressed k))%bool /\
  entityPosition (jump k) = entityPosition k /\
  entityRotation (jump k) = entityRotation k.
Proof.
  destruct k as [a vy h v j y g wg ge gp gr gc sn ep er].
  unfold jump; cbn [_grounded _jumpPressed].
  destruct g; destruct j; cbn; repeat split; reflexivity.
Qed.

Lemma early_motion app k :
  _velY (jump (followGround app (applyYaw k))) =
    (if _grounded k && _jumpPressed k then jumpSpeed (attrs k) else _velY k) /\
  _grounded (jump (followGround app (applyYaw k)))
    = (_grounded k && negb (_jumpPressed k))%bool.
Proof.
  destruct (jump_cases (followGround app (applyYaw k))) as (-> & -> & _).
  destruct (followGround_motion app (applyYaw k)) as (-> & -> & ->).
  destruct (followGround_inputs app (applyYaw k)) as (_ & _ & _ & _ & ->).
  destruct (applyYaw_motion k) as (-> & -> & -> & _).
  destruct (applyYaw_inputs k) as (_ & _ & -> & _).
  split; reflexivity.
Qed.

(** X10 - the jump.  A jump happens only for a controller that is
    grounded when the tick starts; it replaces the vertical velocity by
    [jumpSpeed] (it does not add to it), and gravity for the tick is
    applied on top before the passes.  In the tick of the take-off the
    horizontal step already uses the air-control speed.  A jump request
    of an airborne controller changes neither. *)
Theorem jump_takeoff app (dt : R) k :
  _velY (beforePasses app dt k) =
    (if _grounded k && _jumpPressed k then jumpSpeed (attrs k) else _velY k)
    + gravity (attrs k) * dt /\
  moveSpeed (jump (followGround app (applyYaw k))) =
    (if _grounded k && negb (_jumpPressed k)
     then speed (attrs k)
     else speed (attrs k) * airControl (attrs k)).
Proof.
  pose proof (early_motion app k) as [Hv Hg].
  pose proof (early_attrs app k) as Ha.
  unfold beforePasses, applyGravity, moveSpeed.
  cbn [_velY set_velY].
  rewrite Hv, Hg, Ha; split; reflexivity.
Qed.

(** ** The horizontal input step *)

(** X11 - the input step has the length of the speed.  When an axis is
    non-zero and the combined direction is not the zero vector, the
    displacement asked of the horizontal pass has length
    |moveSpeed * dt|, whatever the axes' values: diagonal input is no
    faster than straight input. *)
Theorem input_step_length (dt : R) k :
  (_horizontal k <> 0 \/ _vertical k <> 0) ->
  0 < Vec3.lengthSq (inputDirection k) ->
  Vec3.lengthSq (inputDisplacement dt k)
  = (moveSpeed k * dt) * (moveSpeed k * dt).
Proof.
  intros Haxis Hdir.
  unfold inputDisplacement.
  rewrite lengthSq_mulScalar.
  assert (Hd : horizDir k = Vec3.normalize (inputDirection k)).
  { unfold horizDir, inputDirection; cbv zeta.
    destruct (Req_dec_T (_horizontal k) 0) as [Hh | _]; [| reflexivity].
    destruct (Req_dec_T (_vertical k) 0) as [Hv | _]; [| reflexivity].
    destruct Haxis; contradiction. }
  rewrite Hd, (normalize_unit _ Hdir); ring.
Qed.

(** ** The uphill clamp *)

(** X12 - the uphill clamp of step 6.  For a steep normal whose
    uphill direction is not degenerate, the clamp caps the component of
    the displacement along the (unit) uphill direction at zero, leaves
    every component across it unchanged, and clamping twice is clamping
    once; without a steep normal it does nothing. *)
Theorem clampUphill_contract (n d : Vec3.t) :
  0 < Vec3.lengthSq (projectOnPlane Vec3.UP n) ->
  Vec3.dot (clampUphill (Some n) d)
           (Vec3.normalize (projectOnPlane Vec3.UP n))
    = Rmin (Vec3.dot d (Vec3.normalize (projectOnPlane Vec3.UP n))) 0 /\
  (forall w : Vec3.t,
     Vec3.dot w (Vec3.normalize (projectOnPlane Vec3.UP n)) = 0 ->
     Vec3.dot (clampUphill (Some n) d) w = Vec3.dot d w) /\
  clampUphill (Some n) (clampUphill (Some n) d) = clampUphill (Some n) d /\
  clampUphill None d = d.
Proof.
  intros Hpos.
  pose proof (normalize_unit _ Hpos) as Hunit.
  unfold clampUphill; cbv zeta.
  generalize dependent (Vec3.normalize (projectOnPlane Vec3.UP n)).
  intros u Hunit.
  assert (Hsub : Vec3.dot (Vec3.sub d (Vec3.mulScalar u (Vec3.dot d u))) u = 0).
  { unfold Vec3.lengthSq in Hunit.
    unfold Vec3.sub, Vec3.mulScalar, Vec3.dot; cbn [Vec3.x Vec3.y Vec3.z].
    set (ux := Vec3.x u) in *; set (uy := Vec3.y u) in *;
      set (uz := Vec3.z u) in *.
    transitivity
      ((Vec3.x d * ux + Vec3.y d * uy + Vec3.z d * uz)
       * (1 - (ux * ux + uy * uy + uz * uz)));
      [ring | rewrite Hunit; ring]. }
  split; [| split; [| split; [| reflexivity]]].
  - destruct (Rgt_dec (Vec3.dot d u) 0) as [Hup | Hdown].
    + rewrite Hsub, Rmin_right by lra; reflexivity.
    + rewrite Rmin_left by lra; reflexivity.
  - intros w Hw.
    destruct (Rgt_dec (Vec3.dot d u) 0) as [Hup | Hdown]; [| reflexivity].
    unfold Vec3.sub, Vec3.mulScalar, Vec3.dot in *;
      cbn [Vec3.x Vec3.y Vec3.z] in *.
    transitivity
      (Vec3.x d * Vec3.x w + Vec3.y d * Vec3.y w + Vec3.z d * Vec3.z w
       - (Vec3.x d * Vec3.x u + Vec3.y d * Vec3.y u + Vec3.z d * Vec3.z u)
         * (Vec3.x w * Vec3.x u + Vec3.y w * Vec3.y u + Vec3.z w * Vec3.z u));
      [ring | rewrite Hw; ring].
  - destruct (Rgt_dec (Vec3.dot d u) 0) as [Hup | Hdown].
    + rewrite Hsub.
      destruct (Rgt_dec 0 0) as [Habs | _]; [lra | reflexivity].
    + destruct (Rgt_dec (Vec3.dot d u) 0) as [Hup | _];
        [contradiction | reflexivity].
Qed.

(** ** Short vertical steps *)

(** X13 - a short vertical step is dropped.  [update] hands the
    vertical step to [sweep] when its magnitude exceeds EPS, and
    [sweep] drops a displacement whose squared length is below EPS: a
    vertical step of magnitude below the square root of EPS moves
    nothing and sweeps nothing, while gravity has been added to the
    velocity, and the pass leaves the controller not grounded. *)
Theorem short_vertical_step_dropped app (dt : R) k :
  (_velY (beforePasses app dt k) * dt)
    * (_velY (beforePasses app dt k) * dt) < EPS ->
  l_pos (verticalPass app dt k) = entityPosition (beforePasses app dt k) /\
  l_casts (verticalPass app dt k) = [] /\
  _velY (l_kcc (verticalPass app dt k)) = _velY (beforePasses app dt k) /\
  _grounded (l_kcc (verticalPass app dt k)) = false.
Proof.
  intros Hsmall; unfold verticalPass; cbv zeta.
  generalize dependent (beforePasses app dt k); intros kb Hsmall.
  destruct (Rgt_dec (Rabs (_velY kb * dt)) EPS) as [_ | _];
    [| repeat split; reflexivity].
  unfold sweep; rewrite sweepLoop_done; [repeat split; reflexivity |].
  cbn [l_remaining]; unfold Vec3.lengthSq; cbn [Vec3.x Vec3.y Vec3.z]; lra.
Qed.

(** ** Open space *)

Lemma groundSnapProbe_miss app t :
  (forall r a b, sphereCast app r a b = None) ->
  t_kcc (groundSnapProbe app t) = t_kcc t /\
  t_pos (groundSnapProbe app t) = t_pos t.
Proof.
  intros Hfree; unfold groundSnapProbe.
  destruct (snapAttempted _); [| split; reflexivity].
  rewrite Hfree; split; reflexivity.
Qed.

Lemma horizontalPass_free app (dt : R) k (v : @SweepLoop Quat) :
  (forall r a b, sphereCast app r a b = None) ->
  (1 <= maxIterations (attrs (l_kcc v)))%nat ->
  l_kcc (horizontalPass app dt k v) = l_kcc v /\
  l_pos (horizontalPass app dt k v) =
    (if Rgt_dec (Vec3.lengthSq (desiredHoriz app dt k)) EPS
     then Vec3.add (l_pos v) (desiredHoriz app dt k)
     else l_pos v).
Proof.
  intros Hfree Hmax; unfold horizontalPass.
  generalize (desiredHoriz app dt k); intros dh.
  destruct (Rgt_dec (Vec3.lengthSq dh) EPS) as [Hbig | _];
    [| split; reflexivity].
  destruct (maxIterations (attrs (l_kcc v))) as [| n] eqn:Hn; [lia |].
  rewrite (sweep_first_round app _ _ _ false n Hn).
  rewrite sweepRound_nohit; [split; reflexivity | | apply Hfree].
  cbn [l_remaining]; lra.
Qed.

(** X14 - free flight.  In a world where no sweep reports a hit, a tick
    whose vertical step is at least the convergence threshold moves the
    entity by exactly the vertical step plus the horizontal step (when
    that one passes its threshold), keeps the velocity reached after
    gravity, and ends not grounded with no ground entity remembered. *)
Theorem free_flight app (dt : R) k :
  (forall r a b, sphereCast app r a b = None) ->
  (1 <= maxIterations (attrs k))%nat ->
  EPS <= (_velY (beforePasses app dt k) * dt)
         * (_velY (beforePasses app dt k) * dt) ->
  entityPosition (tick app dt k) =
    (if Rgt_dec (Vec3.lengthSq (desiredHoriz app dt k)) EPS
     then Vec3.add
            (Vec3.add (entityPosition (beforePasses app dt k))
                      (Vec3.mk 0 (_velY (beforePasses app dt k) * dt) 0))
            (desiredHoriz app dt k)
     else Vec3.add (entityPosition (beforePasses app dt k))
                   (Vec3.mk 0 (_velY (beforePasses app dt k) * dt) 0)) /\
  _velY (tick app dt k) = _velY (beforePasses app dt k) /\
  _grounded (tick app dt k) = false /\
  _groundEntity (tick app dt k) = None.
Proof.
  intros Hfree Hmax Hbig.
  pose proof EPS_pos as Heps.
  assert (Habs : Rabs (_velY (beforePasses app dt k) * dt) > EPS).
  { unfold Rabs; destruct (Rcase_abs _); unfold EPS in *; nra. }
  destruct (verticalPass_free app dt k Habs Hmax) as [Hvk Hvp].
  { unfold Vec3.lengthSq; cbn [Vec3.x Vec3.y Vec3.z]; lra. }
  { apply Hfree. }
  assert (Hva : attrs (l_kcc (verticalPass app dt k)) = attrs k).
  { rewrite Hvk; cbn [attrs set_groundCandidate set_grounded].
    apply beforePasses_attrs. }
  destruct (horizontalPass_free app dt k (verticalPass app dt k) Hfree)
    as [Hhk Hhp]; [rewrite Hva; exact Hmax |].
  rewrite Hvk in Hhk; rewrite Hvp in Hhp.
  assert (Hmk : t_kcc (movePasses app dt k) =
                set_steepNormal None
                  (set_groundCandidate None
                     (set_grounded false (beforePasses app dt k))))
    by (unfold movePasses; cbv zeta; cbn [t_kcc]; rewrite Hhk; reflexivity).
  assert (Hmp : t_pos (movePasses app dt k) =
                l_pos (horizontalPass app dt k (verticalPass app dt k)))
    by reflexivity.
  rewrite Hhp in Hmp.
  unfold tick, update.
  destruct (groundSnapProbe_miss app (movePasses app dt k) Hfree) as [Hpk Hpp].
  rewrite Hmk in Hpk; rewrite Hmp in Hpp.
  generalize dependent (groundSnapProbe app (movePasses app dt k)).
  intros p Hpk Hpp.
  destruct (commit_outcome app p) as (Hg & Hv & Hp & _ & _).
  destruct (rememberGround_fields app
              (let k0 := setPosition
                           (if _grounded (t_kcc p)
                            then Vec3.add (t_pos p)
                                   (Vec3.mulScalar Vec3.UP (hover (attrs (t_kcc p))))
                            else t_pos p) (t_kcc p) in
               if _grounded k0 && (if Rlt_dec (_velY k0) 0 then true else false)
               then set_velY 0 k0 else k0))
    as (_ & _ & He & _).
  assert (Hge : _groundEntity (t_kcc (commit app p)) = None).
  { unfold commit; cbv zeta; cbn [t_kcc].
    cbv zeta in He; rewrite He.
    rewrite Hpk; reflexivity. }
  rewrite Hg, Hv, Hp, Hge, Hpk, Hpp.
  cbn [_grounded _velY set_steepNormal set_groundCandidate set_grounded andb].
  repeat split; reflexivity.
Qed.

End EarlyStages.

(** ** The stages on concrete controllers *)

(** The first five steps on a controller that is airborne, has no
    platform and no pending yaw: only gravity acts. *)
Lemma beforePasses_airborne {Quat : Type} {E : Engine Quat}
    (app : @World Quat) (dt : R) (k : @KCC Quat) :
  _yawDelta k = 0 -> _wasGrounded k = false -> _grounded k = false ->
  _velY (beforePasses app dt k) = _velY k + gravity (attrs k) * dt /\
  entityPosition (beforePasses app dt k) = entityPosition k.
Proof.
  intros Hy Hw Hg; unfold beforePasses.
  rewrite (applyYaw_idle k Hy).
  unfold followGround; rewrite Hw.
  unfold jump; rewrite Hg; split; reflexivity.
Qed.

(** X9, witness: the fresh controller sent up at 6 m/s under the
    ceiling world. *)
Lemma ceiling_strike_ends_rise_witness :
  _velY (tick ceilingWorld (1 / 10) (set_velY 6 kcc0)) = 0.
Proof.
  destruct (beforePasses_airborne ceilingWorld (1 / 10) (set_velY 6 kcc0))
    as [Hv Hp]; try reflexivity.
  cbn [_velY set_velY attrs gravity kcc0 initialize defaultAttributes] in Hv.
  apply (ceiling_strike_ends_rise ceilingWorld (1 / 10) (set_velY 6 kcc0)
           ceilingHit).
  - rewrite Hv; lra.
  - rewrite Hv; unfold EPS; lra.
  - cbn; lia.
  - reflexivity.
Defined.

(** X11, witness: D and S held together by the unrotated default
    controller. *)
Lemma input_step_length_witness :
  Vec3.lengthSq (inputDisplacement (1 / 10) (setInput 1 1 false 0 kcc0))
  = (moveSpeed (setInput 1 1 false 0 kcc0) * (1 / 10))
    * (moveSpeed (setInput 1 1 false 0 kcc0) * (1 / 10)).
Proof.
  apply input_step_length.
  - left; cbn; lra.
  - destruct identity_axes as [Hf Hr].
    unfold inputDirection.
    cbn [entityRotation _horizontal _vertical setInput set_yawDelta
         set_jumpPressed set_vertical set_horizontal kcc0 initialize].
    rewrite Hf, Hr.
    unfold Vec3.lengthSq, Vec3.add, Vec3.mulScalar;
      cbn [Vec3.x Vec3.y Vec3.z]; lra.
Defined.

(** X12, witness: the steep ramp and a push towards -x. *)
Lemma clampUphill_contract_witness :
  clampUphill (Some rampNormal)
    (clampUphill (Some rampNormal) (Vec3.mk (-1) 0 0))
  = clampUphill (Some rampNormal) (Vec3.mk (-1) 0 0).
Proof.
  apply (clampUphill_contract rampNormal (Vec3.mk (-1) 0 0)).
  rewrite projectOnPlane_unit by (unfold Vec3.lengthSq; cbn; field).
  unfold Vec3.lengthSq, Vec3.sub, Vec3.mulScalar, Vec3.dot; cbn; lra.
Defined.

(** X13, witness: the first millisecond of a fall. *)
Lemma short_vertical_step_dropped_witness :
  l_casts (verticalPass floorWorld (1 / 1000) kcc0) = [].
Proof.
  destruct (beforePasses_airborne floorWorld (1 / 1000) kcc0)
    as [Hv Hp]; try reflexivity.
  cbn [_velY attrs gravity kcc0 initialize defaultAttributes] in Hv.
  apply (short_vertical_step_dropped floorWorld (1 / 1000) kcc0).
  rewrite Hv; unfold EPS; lra.
Defined.

(** X14, witness: the fresh controller falling in open space. *)
Lemma free_flight_witness :
  _grounded (tick emptyWorld (1 / 10) kcc0) = false.
Proof.
  destruct (beforePasses_airborne emptyWorld (1 / 10) kcc0)
    as [Hv Hp]; try reflexivity.
  cbn [_velY attrs gravity kcc0 initialize defaultAttributes] in Hv.
  apply (free_flight emptyWorld (1 / 10) kcc0).
  - intros r a b; reflexivity.
  - cbn; lia.
  - rewrite Hv; unfold EPS; lra.
Defined.

Section Legacy.

Context {Quat : Type} {E : Engine Quat}.

Implicit Types (app : @World Quat) (k kcc : @KCC Quat) (s : @SweepLoop Quat)
  (t : @Tick Quat).

(** ** The older [_sweep] and [update] against the current ones *)

Lemma set_steepNormal_same k : set_steepNormal (_steepNormal k) k = k.
Proof. destruct k; reflexivity. Qed.

(** No branch of a round reads the steep normal: a round of the older
    loop is the current round with the stored normal put back. *)
Lemma resolveHitLegacy_withSteep (sn : option Vec3.t) (v : bool) s
    (casts : list Cast) (hit : ConvexCastResult) :
  resolveHitLegacy v (withSteep sn s) casts hit =
  (fst (resolveHit v s casts hit), withSteep sn (snd (resolveHit v s casts hit))).
Proof.
  unfold resolveHitLegacy, resolveHit, withSteep;
    cbn [l_kcc l_pos l_remaining l_wallN1 l_wallN2 l_casts attrs
         set_steepNormal].
  destruct v.
  - destruct (Rgt_dec _ 0); [reflexivity |].
    destruct (Rlt_dec _ 0); [| reflexivity].
    destruct (walkable _ _); reflexivity.
  - destruct (walkable _ _); [reflexivity |].
    destruct (recordWall _ _ _) as [[n1 |] [n2 |]]; reflexivity.
Qed.

Lemma sweepRoundLegacy_withSteep (sn : option Vec3.t) app (v : bool) s :
  sweepRoundLegacy app v (withSteep sn s) =
  (fst (sweepRound app v s), withSteep sn (snd (sweepRound app v s))).
Proof.
  unfold sweepRoundLegacy, sweepRound.
  change (l_remaining (withSteep sn s)) with (l_remaining s).
  destruct (Rlt_dec _ EPS); [reflexivity |].
  change (l_pos (withSteep sn s)) with (l_pos s).
  change (l_casts (withSteep sn s)) with (l_casts s).
  change (attrs (l_kcc (withSteep sn s))) with (attrs (l_kcc s)).
  destruct (sphereCast app _ _ _) as [hit |]; [| reflexivity].
  apply resolveHitLegacy_withSteep.
Qed.

Lemma sweepLoopLegacy_withSteep (sn : option Vec3.t) app (v : bool) (n : nat) :
  forall s,
    sweepLoopLegacy app v n (withSteep sn s) = withSteep sn (sweepLoop app v n s).
Proof.
  induction n as [| n IH]; intros s; [reflexivity |].
  rewrite sweepLoop_S_eq.
  cbn [sweepLoopLegacy]; rewrite sweepRoundLegacy_withSteep.
  destruct (sweepRound app v s) as [[|] s']; cbn [fst snd];
    [reflexivity | apply IH].
Qed.

Lemma sweepLegacy_start (sn : option Vec3.t) kcc (pos disp : Vec3.t) :
  mkLoop (set_steepNormal sn kcc) pos disp None None []
  = withSteep sn (mkLoop kcc pos disp None None []).
Proof. reflexivity. Qed.

(** X15 - the older in-class [_sweep] against the current [sweep].
    On every input the two return the same position after the same
    queries, with the same remainder and wall normals; the controller
    they leave differs at most in the steep normal, which the older one
    never assigns; when the current pass took no steep branch the two
    results are equal. *)
Theorem legacy_sweep_agrees app kcc (pos disp : Vec3.t) (v : bool) :
  l_pos (_sweep app kcc pos disp v) = l_pos (sweep app kcc pos disp v) /\
  l_casts (_sweep app kcc pos disp v) = l_casts (sweep app kcc pos disp v) /\
  l_remaining (_sweep app kcc pos disp v)
    = l_remaining (sweep app kcc pos disp v) /\
  l_kcc (_sweep app kcc pos disp v)
    = set_steepNormal (_steepNormal kcc) (l_kcc (sweep app kcc pos disp v)) /\
  (_steepNormal (l_kcc (sweep app kcc pos disp v)) = _steepNormal kcc ->
   _sweep app kcc pos disp v = sweep app kcc pos disp v).
Proof.
  assert (Hrun : _sweep app kcc pos disp v
                 = withSteep (_steepNormal kcc) (sweep app kcc pos disp v)).
  { unfold _sweep, sweep.
    rewrite <- (set_steepNormal_same kcc) at 2.
    rewrite sweepLegacy_start.
    cbn [attrs set_steepNormal].
    apply sweepLoopLegacy_withSteep. }
  rewrite Hrun.
  generalize (sweep app kcc pos disp v); intros r.
  repeat split.
  intros Hsame; unfold withSteep; rewrite <- Hsame.
  rewrite set_steepNormal_same; destruct r; reflexivity.
Qed.

(** The early steps of the two versions on a controller with no
    platform under it. *)
Lemma followGroundLegacy_idle app k :
  _wasGrounded k = false \/ _groundEntity k = None ->
  followGroundLegacy app k = followGround app k.
Proof.
  intros [Hw | Hg]; unfold followGroundLegacy, followGround.
  - rewrite Hw; reflexivity.
  - rewrite Hg; destruct (_wasGrounded k); reflexivity.
Qed.

Lemma applyYaw_footing k :
  _wasGrounded (applyYaw k) = _wasGrounded k /\
  _groundEntity (applyYaw k) = _groundEntity k.
Proof. unfold applyYaw; destruct (Rgt_dec _ EPS); split; reflexivity. Qed.

(** X16 - the older [update] against the current one.  For a
    controller with no steep normal stored (as after every current
    [update]) and no platform to follow, the two versions of [update]
    compute the same tick: same controller, same position, same
    queries.  The versions differ only in the platform follow and in
    the steep normal. *)
Theorem legacy_update_agrees app (dt : R) k :
  _steepNormal k = None ->
  _wasGrounded k = false \/ _groundEntity k = None ->
  updateLegacy app dt k = update app dt k.
Proof.
  intros Hsn Hplat.
  assert (Hearly : followGroundLegacy app (applyYaw k)
                   = followGround app (applyYaw k)).
  { apply followGroundLegacy_idle.
    destruct (applyYaw_footing k) as [-> ->]; exact Hplat. }
  assert (Hdh : desiredHorizLegacy app dt k = desiredHoriz app dt k).
  { rewrite (desiredHoriz_unclamped app dt k Hsn).
    unfold desiredHorizLegacy; rewrite Hearly; reflexivity. }
  assert (Hes : _steepNormal (beforePasses app dt k) = None).
  { unfold beforePasses, applyGravity; cbn [_steepNormal set_velY].
    rewrite early_steepNormal; exact Hsn. }
  assert (Hv : verticalPassLegacy app dt k
               = withSteep None (verticalPass app dt k)).
  { unfold verticalPassLegacy, verticalPass; cbv zeta.
    rewrite Hearly; fold (beforePasses app dt k).
    generalize dependent (beforePasses app dt k); intros kb Hes.
    destruct (Rgt_dec _ EPS).
    - unfold _sweep, sweep.
      rewrite <- sweepLoopLegacy_withSteep.
      unfold withSteep; cbn [l_kcc l_pos l_remaining l_wallN1 l_wallN2 l_casts].
      replace (set_steepNormal None
                 (set_groundCandidate None (set_grounded false kb)))
        with (set_groundCandidate None (set_grounded false kb));
        [reflexivity |].
      destruct kb; cbn in *; rewrite Hes; reflexivity.
    - unfold withSteep; cbn [l_kcc l_pos l_remaining l_wallN1 l_wallN2 l_casts].
      f_equal; destruct kb; cbn in *; rewrite Hes; reflexivity. }
  assert (Hm : movePassesLegacy app dt k = movePasses app dt k).
  { unfold movePassesLegacy, movePasses; cbv zeta.
    rewrite Hv.
    generalize (verticalPass app dt k); intros vp.
    unfold horizontalPassLegacy, horizontalPass; rewrite Hdh.
    generalize (desiredHoriz app dt k); intros dh.
    destruct (Rgt_dec _ EPS).
    - unfold _sweep, sweep.
      change (mkLoop (l_kcc (withSteep None vp)) (l_pos (withSteep None vp))
                     dh None None [])
        with (withSteep None (mkLoop (l_kcc vp) (l_pos vp) dh None None [])).
      change (attrs (l_kcc (withSteep None vp))) with (attrs (l_kcc vp)).
      rewrite sweepLoopLegacy_withSteep.
      generalize (sweepLoop app false (maxIterations (attrs (l_kcc vp)))
                    (mkLoop (l_kcc vp) (l_pos vp) dh None None [])).
      intros h; unfold withSteep; cbn [l_kcc l_pos l_casts].
      destruct h as [hk hp hr h1 h2 hc]; destruct hk; reflexivity.
    - unfold withSteep; cbn [l_kcc l_pos l_casts].
      destruct vp as [hk hp hr h1 h2 hc]; destruct hk; reflexivity. }
  unfold updateLegacy, update; rewrite Hm; reflexivity.
Qed.

End Legacy.

(** X16, witness: the fresh controller, which has neither. *)
Lemma legacy_update_agrees_witness :
  updateLegacy floorWorld (1 / 60) kcc0 = update floorWorld (1 / 60) kcc0.
Proof.
  apply legacy_update_agrees; [reflexivity | left; reflexivity].
Defined.

(** ** The desktop input script *)

Section InputScript.

Context {Quat : Type} {E : Engine Quat}.

Implicit Types (k kcc : @KCC Quat) (i : KccInputDesktop.t) (keys : Keyboard).

(** What a frame of the script leaves in the controller and in
    itself. *)
Lemma input_update_fields keys i kcc :
  _horizontal (snd (KccInputDesktop.update keys i kcc))
    = toNumber (KEY_D keys) - toNumber (KEY_A keys) /\
  _vertical (snd (KccInputDesktop.update keys i kcc))
    = toNumber (KEY_S keys) - toNumber (KEY_W keys) /\
  _yawDelta (snd (KccInputDesktop.update keys i kcc))
    = KccInputDesktop.yawInput i /\
  speed (attrs (snd (KccInputDesktop.update keys i kcc)))
    = (if KEY_SHIFT keys
       then KccInputDesktop._cachedSpeed i * KccInputDesktop.sprintScalar i
       else KccInputDesktop._cachedSpeed i) /\
  entityRotation (snd (KccInputDesktop.update keys i kcc)) = entityRotation kcc /\
  _grounded (snd (KccInputDesktop.update keys i kcc)) = _grounded kcc /\
  airControl (attrs (snd (KccInputDesktop.update keys i kcc)))
    = airControl (attrs kcc).
Proof.
  unfold KccInputDesktop.update, KccInputDesktop.yawInput; cbv zeta.
  cbn [snd].
  destruct (KEY_SHIFT keys); repeat split; reflexivity.
Qed.

Lemma input_update_script keys i kcc :
  KccInputDesktop._cachedSpeed (fst (KccInputDesktop.update keys i kcc))
    = KccInputDesktop._cachedSpeed i /\
  KccInputDesktop.sprintScalar (fst (KccInputDesktop.update keys i kcc))
    = KccInputDesktop.sprintScalar i /\
  KccInputDesktop.lookSpeed (fst (KccInputDesktop.update keys i kcc))
    = KccInputDesktop.lookSpeed i /\
  KccInputDesktop.prevMousePosition (fst (KccInputDesktop.update keys i kcc))
    = KccInputDesktop.currMousePosition i /\
  KccInputDesktop.currMousePosition (fst (KccInputDesktop.update keys i kcc))
    = KccInputDesktop.currMousePosition i.
Proof. repeat split; reflexivity. Qed.

(** X17 - keys to direction.  After a frame of the input script the
    controller's step 4 combines [entity.forward] scaled by W minus S
    with [entity.right] scaled by D minus A: W moves forward, S back, D
    right, A left, and opposite keys cancel; with both pairs cancelled
    the horizontal step is zero. *)
Theorem keys_to_direction keys i kcc (dt : R) :
  inputDirection (snd (KccInputDesktop.update keys i kcc)) =
    Vec3.add
      (Vec3.mulScalar (forward (entityRotation kcc))
                      (toNumber (KEY_W keys) - toNumber (KEY_S keys)))
      (Vec3.mulScalar (right (entityRotation kcc))
                      (toNumber (KEY_D keys) - toNumber (KEY_A keys))) /\
  (KEY_W keys = KEY_S keys -> KEY_D keys = KEY_A keys ->
   inputDisplacement dt (snd (KccInputDesktop.update keys i kcc))
   = Vec3.mk 0 0 0).
Proof.
  destruct (input_update_fields keys i kcc) as (Hh & Hv & _ & _ & Hr & _).
  split.
  - unfold inputDirection; rewrite Hh, Hv, Hr.
    apply vec3_eq; unfold Vec3.add, Vec3.mulScalar;
      cbn [Vec3.x Vec3.y Vec3.z]; repeat split; ring.
  - intros Hws Hda; apply inputDisplacement_idle.
    + rewrite Hh, Hda; ring.
    + rewrite Hv, Hws; ring.
Qed.

(** The speed a run of frames leaves in the controller. *)
Lemma frames_speed (fs : list (Keyboard * Vec2)) :
  forall i kcc keys (m : Vec2),
    KccInputDesktop._cachedSpeed
      (fst (fst (KccInputDesktop.frames (fs ++ [(keys, m)]) i kcc)))
      = KccInputDesktop._cachedSpeed i /\
    KccInputDesktop.sprintScalar
      (fst (fst (KccInputDesktop.frames (fs ++ [(keys, m)]) i kcc)))
      = KccInputDesktop.sprintScalar i /\
    speed (attrs (snd (fst (KccInputDesktop.frames (fs ++ [(keys, m)]) i kcc))))
      = (if KEY_SHIFT keys
         then KccInputDesktop._cachedSpeed i * KccInputDesktop.sprintScalar i
         else KccInputDesktop._cachedSpeed i).
Proof.
  induction fs as [| [keys0 m0] rest IH]; intros i kcc keys m.
  - cbn [List.app KccInputDesktop.frames].
    set (i1 := KccInputDesktop.onMouseMove (mouseX m) (mouseY m) i).
    destruct (input_update_fields keys i1 kcc) as (_ & _ & _ & Hs & _).
    destruct (input_update_script keys i1 kcc) as (Hc & Hsc & _).
    destruct (KccInputDesktop.update keys i1 kcc) as [i2 k2].
    cbn [fst snd] in *.
    rewrite Hc, Hsc, Hs; repeat split; reflexivity.
  - cbn [List.app KccInputDesktop.frames].
    set (i1 := KccInputDesktop.onMouseMove (mouseX m0) (mouseY m0) i).
    destruct (input_update_script keys0 i1 kcc) as (Hc & Hsc & _).
    destruct (KccInputDesktop.update keys0 i1 kcc) as [i2 k2].
    cbn [fst snd] in *.
    specialize (IH i2 k2 keys m).
    destruct (KccInputDesktop.frames (rest ++ [(keys, m)]) i2 k2)
      as [[i3 k3] yaws].
    cbn [fst snd] in *.
    destruct IH as (-> & -> & ->).
    rewrite Hc, Hsc; repeat split; reflexivity.
Qed.

(** X18 - sprint does not compound.  After any run of frames the
    controller's speed is the speed cached at the script's
    [initialize], times [sprintScalar] exactly when SHIFT is down in
    the last frame: holding SHIFT for many frames multiplies once,
    releasing it restores the cached speed, and whatever speed the
    controller had before the frame is overwritten. *)
Theorem sprint_never_compounds (fs : list (Keyboard * Vec2)) keys (m : Vec2)
    (look sprint : R) (continuous : bool) kcc (k' : @KCC Quat) :
  speed (attrs
    (snd (fst (KccInputDesktop.frames (fs ++ [(keys, m)])
                 (KccInputDesktop.initialize look sprint continuous kcc) k'))))
  = (if KEY_SHIFT keys then speed (attrs kcc) * sprint else speed (attrs kcc)).
Proof.
  destruct (frames_speed fs
              (KccInputDesktop.initialize look sprint continuous kcc) k' keys m)
    as (_ & _ & ->).
  reflexivity.
Qed.

(** The yaw of a run of frames. *)
Lemma frames_yaw (fs : list (Keyboard * Vec2)) :
  forall i kcc,
    KccInputDesktop.lookSpeed (fst (fst (KccInputDesktop.frames fs i kcc)))
      = KccInputDesktop.lookSpeed i /\
    (fs <> [] ->
     KccInputDesktop.prevMousePosition
       (fst (fst (KccInputDesktop.frames fs i kcc)))
     = snd (last fs (mkKeyboard false false false false false false false,
                     mkVec2 0 0))) /\
    fold_right Rplus 0 (snd (KccInputDesktop.frames fs i kcc))
      = (mouseX (KccInputDesktop.prevMousePosition i)
         - mouseX (KccInputDesktop.prevMousePosition
                     (fst (fst (KccInputDesktop.frames fs i kcc)))))
        * KccInputDesktop.lookSpeed i.
Proof.
  induction fs as [| [keys0 m0] rest IH]; intros i kcc.
  - cbn [KccInputDesktop.frames fst snd fold_right].
    split; [reflexivity |]; split; [intros H; contradiction | ring].
  - cbn [KccInputDesktop.frames].
    set (i1 := KccInputDesktop.onMouseMove (mouseX m0) (mouseY m0) i).
    destruct (input_update_script keys0 i1 kcc) as (_ & _ & Hl & Hp & _).
    destruct (KccInputDesktop.update keys0 i1 kcc) as [i2 k2].
    cbn [fst snd] in *.
    specialize (IH i2 k2).
    destruct (KccInputDesktop.frames rest i2 k2) as [[i3 k3] yaws] eqn:Hrun.
    cbn [fst snd fold_right] in *.
    destruct IH as (Hl3 & Hlast & Hsum).
    rewrite Hl3, Hl, Hsum, Hl, Hp.
    split; [reflexivity |]; split.
    + intros _; destruct rest as [| f rest'].
      * cbn [KccInputDesktop.frames] in Hrun.
        injection Hrun as <- _ _.
        rewrite Hp; destruct m0; reflexivity.
      * rewrite Hlast by discriminate; reflexivity.
    + unfold KccInputDesktop.yawInput.
      subst i1; cbn [KccInputDesktop.onMouseMove KccInputDesktop.lookSpeed
                     KccInputDesktop.prevMousePosition
                     KccInputDesktop.currMousePosition mouseX].
      ring.
Qed.

(** X19 - the yaw of a run of frames telescopes.  Each frame hands
    the controller the mouse travel in x since the previous frame
    (reversed in sign) times [lookSpeed]; over any run of frames these
    add up to the net travel from the position stored before the run to
    the last reported position, times [lookSpeed]. *)
Theorem yaw_follows_mouse_travel (fs : list (Keyboard * Vec2)) keys (m : Vec2)
    i kcc :
  _yawDelta (snd (KccInputDesktop.update keys i kcc))
    = (mouseX (KccInputDesktop.prevMousePosition i)
       - mouseX (KccInputDesktop.currMousePosition i))
      * KccInputDesktop.lookSpeed i /\
  fold_right Rplus 0 (snd (KccInputDesktop.frames (fs ++ [(keys, m)]) i kcc))
    = (mouseX (KccInputDesktop.prevMousePosition i) - mouseX m)
      * KccInputDesktop.lookSpeed i.
Proof.
  split; [reflexivity |].
  destruct (frames_yaw (fs ++ [(keys, m)]) i kcc) as (_ & Hlast & ->).
  rewrite Hlast by (destruct fs; discriminate).
  rewrite last_last; reflexivity.
Qed.

Lemma mulScalar_scaled (v : Vec3.t) (p q c : R) :
  p = q * c -> Vec3.mulScalar v p = Vec3.mulScalar (Vec3.mulScalar v q) c.
Proof.
  intros ->; apply vec3_eq; unfold Vec3.mulScalar;
    cbn [Vec3.x Vec3.y Vec3.z]; repeat split; ring.
Qed.

(** X20 - sprint scales the step.  With the same keys otherwise, a
    frame with SHIFT down makes the controller's horizontal input step
    [sprintScalar] times the step of the frame without it, grounded or
    airborne. *)
Theorem sprint_scales_step (d a s w sp spw : bool) i kcc (dt : R) :
  inputDisplacement dt
    (snd (KccInputDesktop.update (mkKeyboard d a s w true sp spw) i kcc))
  = Vec3.mulScalar
      (inputDisplacement dt
         (snd (KccInputDesktop.update (mkKeyboard d a s w false sp spw) i kcc)))
      (KccInputDesktop.sprintScalar i).
Proof.
  unfold inputDisplacement, moveSpeed, horizDir.
  destruct (input_update_fields (mkKeyboard d a s w true sp spw) i kcc)
    as (-> & -> & _ & -> & -> & -> & ->).
  destruct (input_update_fields (mkKeyboard d a s w false sp spw) i kcc)
    as (-> & -> & _ & -> & -> & -> & ->).
  cbn [KEY_D KEY_A KEY_S KEY_W KEY_SHIFT].
  destruct (_grounded kcc); apply mulScalar_scaled; ring.
Qed.

End InputScript.

Section WholeTick.

Context {Quat : Type} {E : Engine Quat}.

Implicit Types (app : @World Quat) (k kcc : @KCC Quat) (s : @SweepLoop Quat)
  (t : @Tick Quat).

(** ** The queries of a whole tick *)

Lemma groundSnapProbe_passes app t :
  t_vertical (groundSnapProbe app t) = t_vertical t /\
  t_horizontal (groundSnapProbe app t) = t_horizontal t.
Proof.
  unfold groundSnapProbe.
  destruct (snapAttempted _); [| split; reflexivity].
  destruct (sphereCast _ _ _ _); [destruct (walkable _ _) |]; split; reflexivity.
Qed.

Lemma verticalPass_budget app (dt : R) k :
  (length (l_casts (verticalPass app dt k)) <= maxIterations (attrs k))%nat.
Proof.
  pose proof (beforePasses_attrs app dt k) as Ha.
  unfold verticalPass; cbv zeta.
  generalize dependent (beforePasses app dt k); intros kb Ha.
  destruct (Rgt_dec _ EPS); [| cbn [l_casts length]; lia].
  unfold sweep.
  match goal with
  | |- context [sweepLoop app true ?n ?s0] =>
      pose proof (sweepLoop_casts_bound app true n s0) as Hb
  end.
  cbn [l_casts length attrs set_groundCandidate set_grounded] in Hb |- *.
  rewrite Ha in Hb |- *; lia.
Qed.

Lemma horizontalPass_budget app (dt : R) k s :
  attrs (l_kcc s) = attrs k ->
  (length (l_casts (horizontalPass app dt k s)) <= maxIterations (attrs k))%nat.
Proof.
  intros Ha; unfold horizontalPass.
  generalize (desiredHoriz app dt k); intros dh.
  destruct (Rgt_dec _ EPS); [| cbn [l_casts length]; lia].
  unfold sweep.
  match goal with
  | |- context [sweepLoop app false ?n ?s0] =>
      pose proof (sweepLoop_casts_bound app false n s0) as Hb
  end.
  cbn [l_casts length] in Hb; rewrite Ha in Hb |- *; lia.
Qed.

(** X21 - the queries of a tick.  Whatever the world answers, one
    [update] makes at most maxIterations sweep queries in its vertical
    pass, at most maxIterations in its horizontal pass and at most one
    for the ground-snap probe: never more than 2 * maxIterations + 1 in
    all. *)
Theorem tick_query_budget app (dt : R) k :
  (length (t_vertical (update app dt k)) <= maxIterations (attrs k))%nat /\
  (length (t_horizontal (update app dt k)) <= maxIterations (attrs k))%nat /\
  (length (t_snap (update app dt k)) <= 1)%nat /\
  (length (tickCasts (update app dt k))
     <= 2 * maxIterations (attrs k) + 1)%nat.
Proof.
  pose proof (verticalPass_budget app dt k) as Hv.
  assert (Ha : attrs (l_kcc (verticalPass app dt k)) = attrs k).
  { rewrite (verticalPass_frame (@attrs Quat)) by apply frame_attrs.
    apply early_attrs. }
  pose proof (horizontalPass_budget app dt k (verticalPass app dt k) Ha) as Hh.
  assert (Hmv : t_vertical (movePasses app dt k)
                = l_casts (verticalPass app dt k)) by reflexivity.
  assert (Hmh : t_horizontal (movePasses app dt k)
                = l_casts (horizontalPass app dt k (verticalPass app dt k)))
    by reflexivity.
  pose proof (movePasses_snap app dt k) as Hms.
  rewrite <- Hmv in Hv; rewrite <- Hmh in Hh.
  unfold update, tickCasts.
  clear Hmv Hmh; revert Hv Hh Hms.
  generalize (movePasses app dt k); intros m Hv Hh Hms.
  destruct (groundSnapProbe_passes app m) as [Hpv Hph].
  assert (Hps : (length (t_snap (groundSnapProbe app m)) <= 1)%nat).
  { destruct (groundSnapProbe_cases app m) as [[_ ->] | [_ ->]];
      rewrite Hms; cbn; lia. }
  rewrite <- Hpv in Hv; rewrite <- Hph in Hh.
  clear Hpv Hph; revert Hv Hh Hps.
  generalize (groundSnapProbe app m); intros p Hv Hh Hps.
  unfold commit; cbv zeta; cbn [t_vertical t_horizontal t_snap].
  rewrite !length_app; lia.
Qed.

(** ** The first tick *)

(** X22 - the first tick of a fresh controller.  After [initialize],
    whatever input is set, the first [update] follows no platform and
    cannot jump: before the passes the entity is where it was placed,
    the vertical velocity is gravity times dt, the jump request is
    consumed, and the horizontal step uses the air-control speed. *)
Theorem fresh_controller_first_tick app (dt : R) (a : Attributes)
    (p : Vec3.t) (r identity : Quat) (h v yaw : R) (j : bool) :
  entityPosition
    (beforePasses app dt (setInput h v j yaw (initialize a p r identity))) = p /\
  _velY (beforePasses app dt (setInput h v j yaw (initialize a p r identity)))
    = 0 + gravity a * dt /\
  _jumpPressed
    (beforePasses app dt (setInput h v j yaw (initialize a p r identity)))
    = false /\
  moveSpeed
    (jump (followGround app
             (applyYaw (setInput h v j yaw (initialize a p r identity)))))
    = speed a * airControl a.
Proof.
  set (k := setInput h v j yaw (initialize a p r identity)).
  assert (Hg : _grounded k = false) by reflexivity.
  assert (Hw : _wasGrounded k = false) by reflexivity.
  assert (Hp : entityPosition k = p) by reflexivity.
  assert (Hv : _velY k = 0) by reflexivity.
  assert (Ha : attrs k = a) by reflexivity.
  clearbody k.
  destruct (early_motion app k) as [Hvel Hgr].
  pose proof (early_attrs app k) as Hat.
  rewrite Hg in Hvel, Hgr; cbn [andb] in Hvel, Hgr.
  assert (Hpos : entityPosition (jump (followGround app (applyYaw k))) = p).
  { destruct (jump_cases (followGround app (applyYaw k))) as (_ & _ & -> & _).
    destruct (applyYaw_footing k) as [Hw' _].
    unfold followGround; rewrite Hw', Hw.
    destruct (applyYaw_motion k) as (_ & _ & _ & ->); exact Hp. }
  destruct (jump_inputs (followGround app (applyYaw k))) as (_ & _ & Hj & _).
  unfold beforePasses, applyGravity, moveSpeed.
  cbn [entityPosition _velY _jumpPressed set_velY].
  rewrite Hpos, Hvel, Hgr, Hat, Hj, Hv, Ha.
  repeat split; reflexivity.
Qed.

End WholeTick.
